(** * go-netcat: the transfer engines of [main.go]

    A shallow embedding of [TransferPackets] and [TransferStreams]: the
    constants, the [copy] closure of each engine as a transition system
    driven by the results of its reads and writes, and the orchestrating
    function with its unbuffered channel of [Progress] values. *)

From Stdlib Require Import ZArith Bool String List Lia.
From Stdlib.Strings Require Import Byte.
Import ListNotations.
Local Open Scope Z_scope.

(** ** Constants (main.go, 11-16) *)

(** [BufferLimit = 2<<16 - 1]. In Go the shift binds tighter than the
    subtraction, so the expression is [(2 << 16) - 1]. *)
Definition BufferLimit : Z := Z.shiftl 2 16 - 1.

(** [UDPDisconnectSequence = "~."], as bytes. *)
Definition UDPDisconnectSequence : list byte := [x7e; x2e].

(** ** Values *)

(** A [net.Addr]; the nil interface value is [None]. *)
Definition Addr := string.

(** An [error]; [io.EOF] is the one value the code compares against. *)
Inductive error :=
| EOF
| ErrOther (msg : string).

Definition is_EOF (e : error) : bool :=
  match e with EOF => true | ErrOther _ => false end.

(** [type Progress struct] (main.go, 19-22). *)
Record Progress := mkProgress {
  remoteAddr : option Addr;
  bytes : Z
}.

Definition two64 : Z := 2 ^ 64.

(** Conversion to [uint64], and the wrap-around of [uint64] sums. *)
Definition uint64 (z : Z) : Z := z mod two64.

Definition is_nil {A} (o : option A) : bool :=
  match o with None => true | Some _ => false end.

(** ** Byte slices *)

Fixpoint bytes_eqb (a b : list byte) : bool :=
  match a, b with
  | [], [] => true
  | x :: a', y :: b' => Byte.eqb x y && bytes_eqb a' b'
  | _, _ => false
  end.

(** [b[lo:hi]] on a slice whose capacity is its length: the bounds check
    [0 <= lo <= hi <= cap(b)] fails with a run-time panic ([None]). *)
Definition slice (b : list byte) (lo hi : Z) : option (list byte) :=
  if (0 <=? lo) && (lo <=? hi) && (hi <=? Z.of_nat (length b))
  then Some (firstn (Z.to_nat (hi - lo)) (skipn (Z.to_nat lo) b))
  else None.

(** A read stores the bytes it received at the front of the buffer and
    leaves the rest of the buffer as it was. *)
Definition fill (b data : list byte) : list byte :=
  data ++ skipn (length data) b.

(** [make([]byte, size)]. *)
Definition make (size : Z) : list byte := repeat x00 (Z.to_nat size).

(** ** The environment of a session *)

(** The three handles a session works on: the connection [con] given to the
    engine, [os.Stdin] and [os.Stdout]. *)
Inductive resource := Con | Stdin | Stdout.

Definition resource_eqb (a b : resource) : bool :=
  match a, b with
  | Con, Con | Stdin, Stdin | Stdout, Stdout => true
  | _, _ => false
  end.

(** What the engine can observe of [con]: whether its dynamic type is
    [*net.UDPConn], and [con.RemoteAddr()]. *)
Record endpoint := mkEndpoint {
  is_udp : bool;
  remote : option Addr
}.

(** The type assertion of [x] to a UDP connection succeeds: the standard
    streams are files. *)
Definition is_UDPConn (ep : endpoint) (x : resource) : bool :=
  match x with Con => is_udp ep | _ => false end.

(** [x.RemoteAddr()] for a handle that is a connection. *)
Definition RemoteAddr (ep : endpoint) (x : resource) : option Addr :=
  match x with Con => remote ep | _ => None end.

(** The result of [ReadFrom(buf)] or [Read(buf)]: the bytes stored in the
    buffer (their number is [n]), the sender and the error. [Read] has no
    sender; its [raddr] is ignored. *)
Record read_result := mkRead {
  rdata : list byte;
  raddr : option Addr;
  rerr : option error
}.

(** The result of [WriteTo] or [Write]. *)
Record write_result := mkWrite {
  wn : Z;
  werr : option error
}.

(** ** Observable events *)

Inductive dir := Inbound | Outbound.

Definition dir_eqb (a b : dir) : bool :=
  match a, b with
  | Inbound, Inbound | Outbound, Outbound => true
  | _, _ => false
  end.

Definition other (d : dir) : dir :=
  match d with Inbound => Outbound | Outbound => Inbound end.

Inductive actor := Orchestrator | Worker (d : dir).

(** The lines handed to [log.Printf], by format string. *)
Inductive log_line :=
| LogError (ra : option Addr) (e : error)
| LogDatagram (ra : option Addr)
| LogReceived (ra : option Addr) (count : Z)
| LogSent (ra : option Addr) (count : Z)
| LogClosedByPeer (ra : option Addr) (count : Z).

(** Which send statement a [Progress] value comes from: line 76 or 104. *)
Inductive kind := AddressOnly | FinalCount.

Inductive event :=
| EvSpawn (d : dir) (ra : option Addr)
| EvRead (d : dir) (x : resource) (rr : read_result)
| EvWrite (d : dir) (x : resource) (to : option (option Addr))
          (data : list byte) (wr : write_result)
| EvChan (d : dir) (k : kind) (p : Progress)
| EvLog (a : actor) (l : log_line)
| EvClose (d : dir) (x : resource)
| EvPanic (d : dir)
| EvCopy (d : dir) (src dst : resource) (n : Z) (err : option error)
| EvReturn.

(** ** The [copy] closure of [TransferPackets] (main.go, 56-105) *)

(** Where a running [copy] stands: about to read (69-80), about to send the
    address-only report (76), about to examine what it read (81-89), about
    to write (92-97), about to send its final report (104), about to run the
    deferred closes (57-60), returned, or stopped by a run-time panic. *)
Inductive point :=
| AtRead | AtReport | AtCheck | AtWrite | AtFinal | AtDefer | Done | Panicked.

(** The parameters and local variables of one [copy]. *)
Record locals := mkLocals {
  c_r : resource;
  c_w : resource;
  c_ra : option Addr;
  c_buf : list byte;
  c_bytes : Z;
  c_n : Z;
  c_err : option error;
  c_addr : option Addr;
  c_pc : point
}.

Definition at_ (p : point) (st : locals) : locals :=
  mkLocals (c_r st) (c_w st) (c_ra st) (c_buf st) (c_bytes st) (c_n st)
           (c_err st) (c_addr st) p.

(** [go copy(r, w, ra)]: the state at the top of the loop. *)
Definition spawn (r w : resource) (ra : option Addr) : locals :=
  mkLocals r w ra (make BufferLimit) 0 0 None None AtRead.

(** Lines 70-80, given what the read returned. *)
Definition on_read (ep : endpoint) (st : locals) (rr : read_result) : locals :=
  let n := Z.of_nat (length (rdata rr)) in
  let b := fill (c_buf st) (rdata rr) in
  if is_UDPConn ep (c_r st) then
    if is_nil (RemoteAddr ep (c_r st)) && is_nil (c_ra st) then
      mkLocals (c_r st) (c_w st) (raddr rr) b (c_bytes st) n (rerr rr)
               (raddr rr) AtReport
    else
      mkLocals (c_r st) (c_w st) (c_ra st) b (c_bytes st) n (rerr rr)
               (raddr rr) AtCheck
  else
    mkLocals (c_r st) (c_w st) (c_ra st) b (c_bytes st) n (rerr rr)
             (c_addr st) AtCheck.

(** Lines 81-89: the error test, then the marker test on [buf[0:n-1]]. *)
Definition on_check (st : locals) : locals * list log_line :=
  match c_err st with
  | Some e =>
      (at_ AtFinal st, if is_EOF e then [] else [LogError (c_ra st) e])
  | None =>
      match slice (c_buf st) 0 (c_n st - 1) with
      | None => (at_ Panicked st, [])
      | Some s =>
          if bytes_eqb s UDPDisconnectSequence
          then (at_ AtFinal st, [])
          else (at_ AtWrite st, [])
      end
  end.

(** Lines 92-97: the bytes [buf[0:n]] and how they are sent: [WriteTo] with
    [ra] on an unconnected UDP handle ([Some ra]), [Write] otherwise. *)
Definition write_request (ep : endpoint) (st : locals)
  : option (list byte * option (option Addr)) :=
  match slice (c_buf st) 0 (c_n st) with
  | None => None
  | Some data =>
      Some (data,
            if is_UDPConn ep (c_w st) && is_nil (RemoteAddr ep (c_w st))
            then Some (c_ra st) else None)
  end.

(** Lines 94-102, given what the write returned. *)
Definition on_write (st : locals) (wr : write_result) : locals * list log_line :=
  match werr wr with
  | Some e =>
      (mkLocals (c_r st) (c_w st) (c_ra st) (c_buf st) (c_bytes st) (wn wr)
                (werr wr) (c_addr st) AtFinal,
       [LogError (c_ra st) e])
  | None =>
      (mkLocals (c_r st) (c_w st) (c_ra st) (c_buf st)
                (uint64 (c_bytes st + uint64 (wn wr))) (wn wr)
                (werr wr) (c_addr st) AtRead,
       [])
  end.

(** [Progress{remoteAddr: ra}] (76) and [Progress{bytes: bytes}] (104). *)
Definition addr_report (st : locals) : Progress := mkProgress (c_ra st) 0.
Definition final_report (st : locals) : Progress := mkProgress None (c_bytes st).

(** The value a [copy] standing at a channel send is sending. *)
Definition sending (st : locals) : option (kind * Progress) :=
  match c_pc st with
  | AtReport => Some (AddressOnly, addr_report st)
  | AtFinal => Some (FinalCount, final_report st)
  | _ => None
  end.

Definition after_send (st : locals) : locals :=
  match c_pc st with
  | AtReport => at_ AtCheck st
  | AtFinal => at_ AtDefer st
  | _ => st
  end.

(** *** One transition of [copy] for each kind of action, with its events *)

Definition do_read (ep : endpoint) (d : dir) (st : locals) (rr : read_result)
  : locals * list event :=
  (on_read ep st rr, [EvRead d (c_r st) rr]).

Definition do_send (d : dir) (st : locals) : locals * list event :=
  match sending st with
  | Some (k, p) => (after_send st, [EvChan d k p])
  | None => (st, [])
  end.

Definition do_check (d : dir) (st : locals) : locals * list event :=
  let '(st', logs) := on_check st in
  (st', map (EvLog (Worker d)) logs ++
        match c_pc st' with Panicked => [EvPanic d] | _ => [] end).

Definition do_write (ep : endpoint) (d : dir) (st : locals) (wr : write_result)
  : locals * list event :=
  match write_request ep st with
  | None => (at_ Panicked st, [EvPanic d])
  | Some (data, to) =>
      let '(st', logs) := on_write st wr in
      (st', EvWrite d (c_w st) to data wr :: map (EvLog (Worker d)) logs)
  end.

Definition do_defer (d : dir) (st : locals) : locals * list event :=
  (at_ Done st, [EvClose d (c_r st); EvClose d (c_w st)]).

(** *** [copy] run on its own

    One [round] holds what the environment answers in one iteration: the
    result of the read and, if the iteration gets that far, of the write.
    Every channel send finds its receiver. With no round left the loop is
    blocked in its read. *)
Record round := mkRound {
  i_read : read_result;
  i_write : write_result
}.

Fixpoint loop (ep : endpoint) (d : dir) (ins : list round) (st : locals)
  : locals * list event :=
  match ins with
  | [] => (st, [])
  | i :: rest =>
      let '(st1, e1) := do_read ep d st (i_read i) in
      let '(st2, e2) :=
        match c_pc st1 with AtReport => do_send d st1 | _ => (st1, []) end in
      let '(st3, e3) := do_check d st2 in
      match c_pc st3 with
      | AtWrite =>
          let '(st4, e4) := do_write ep d st3 (i_write i) in
          match c_pc st4 with
          | AtRead =>
              let '(st5, e5) := loop ep d rest st4 in
              (st5, e1 ++ e2 ++ e3 ++ e4 ++ e5)
          | _ => (st4, e1 ++ e2 ++ e3 ++ e4)
          end
      | _ => (st3, e1 ++ e2 ++ e3)
      end
  end.

(** After the loop: the final report (104), then the deferred closes. *)
Definition finish (d : dir) (st : locals) : locals * list event :=
  match c_pc st with
  | AtFinal =>
      let '(st1, e1) := do_send d st in
      let '(st2, e2) := do_defer d st1 in
      (st2, e1 ++ e2)
  | _ => (st, [])
  end.

Definition copy (ep : endpoint) (d : dir) (st : locals) (ins : list round)
  : locals * list event :=
  let '(st1, e1) := loop ep d ins st in
  let '(st2, e2) := finish d st1 in
  (st2, e1 ++ e2).

(** ** [TransferPackets] (main.go, 51-121) *)

(** Where the orchestrating function stands: at one of its three channel
    receives (111, 117, 119) or returned. *)
Inductive opoint := OWaitAddr | OWait1 | OWait2 | OReturned.

(** A session: the orchestrator with its variable [ra], the inbound [copy]
    (started at line 108), the outbound one once it is started (115), the
    handles closed so far, whether a panic has stopped the process, and the
    events so far, oldest first. *)
Record system := mkSystem {
  o_pc : opoint;
  o_ra : option Addr;
  inb : locals;
  outb : option locals;
  closed : list resource;
  crashed : bool;
  trace : list event
}.

(** Lines 107-115 up to the first receive. *)
Definition init (ep : endpoint) : system :=
  let ra := RemoteAddr ep Con in
  if is_nil ra then
    mkSystem OWaitAddr ra (spawn Con Stdout ra) None [] false
             [EvSpawn Inbound ra]
  else
    mkSystem OWait1 ra (spawn Con Stdout ra) (Some (spawn Stdin Con ra)) []
             false [EvSpawn Inbound ra; EvSpawn Outbound ra].

Definition worker (d : dir) (s : system) : option locals :=
  match d with Inbound => Some (inb s) | Outbound => outb s end.

Definition is_closed (x : resource) (cl : list resource) : bool :=
  existsb (resource_eqb x) cl.

(** What the Go library promises of a read: at most [len(buf)] bytes; an
    error on a closed handle; a sender address with every datagram that
    [ReadFrom] returns without error. *)
Definition read_ok (ep : endpoint) (cl : list resource) (st : locals)
           (rr : read_result) : bool :=
  (length (rdata rr) <=? length (c_buf st))%nat
  && (if is_closed (c_r st) cl then negb (is_nil (rerr rr)) else true)
  && (if is_UDPConn ep (c_r st) && is_nil (rerr rr)
      then negb (is_nil (raddr rr)) else true).

(** What the Go library promises of a write: [0 <= n <= len(p)], and an
    error on a closed handle. *)
Definition write_ok (cl : list resource) (st : locals) (data : list byte)
           (wr : write_result) : bool :=
  (0 <=? wn wr) && (wn wr <=? Z.of_nat (length data))
  && (if is_closed (c_w st) cl then negb (is_nil (werr wr)) else true).

(** A transition of worker [d] takes effect: its new locals, its events,
    and the end of the process if it panicked. *)
Definition commit (d : dir) (out : locals * list event) (s : system) : system :=
  let '(st, ev) := out in
  let dead := match c_pc st with Panicked => true | _ => false end in
  match d with
  | Inbound =>
      mkSystem (o_pc s) (o_ra s) st (outb s) (closed s)
               (crashed s || dead) (trace s ++ ev)
  | Outbound =>
      mkSystem (o_pc s) (o_ra s) (inb s) (Some st) (closed s)
               (crashed s || dead) (trace s ++ ev)
  end.

Definition close (xs : list resource) (s : system) : system :=
  mkSystem (o_pc s) (o_ra s) (inb s) (outb s) (closed s ++ xs) (crashed s)
           (trace s).

(** The orchestrator takes [p] from the channel and runs on to its next
    receive: lines 111-115, 117-118 or 119-121. *)
Definition receive (p : Progress) (s : system) : option system :=
  match o_pc s with
  | OWaitAddr =>
      let ra := remoteAddr p in
      Some (mkSystem OWait1 ra (inb s) (Some (spawn Stdin Con ra)) (closed s)
                     (crashed s)
                     (trace s ++ [EvLog Orchestrator (LogDatagram ra);
                                  EvSpawn Outbound ra]))
  | OWait1 =>
      Some (mkSystem OWait2 (o_ra s) (inb s) (outb s) (closed s) (crashed s)
                     (trace s ++
                      [EvLog Orchestrator (LogReceived (o_ra s) (bytes p))]))
  | OWait2 =>
      Some (mkSystem OReturned (o_ra s) (inb s) (outb s) (closed s)
                     (crashed s)
                     (trace s ++
                      [EvLog Orchestrator (LogSent (o_ra s) (bytes p));
                       EvReturn]))
  | OReturned => None
  end.

(** What can happen next in a session. A read or a write comes with the
    result the environment gives it; a send happens when the orchestrator
    is at a receive (the channel is unbuffered). *)
Inductive choice :=
| DoRead (d : dir) (rr : read_result)
| DoSend (d : dir)
| DoCheck (d : dir)
| DoWrite (d : dir) (wr : write_result)
| DoDefer (d : dir).

Definition actor_of (c : choice) : dir :=
  match c with
  | DoRead d _ | DoSend d | DoCheck d | DoWrite d _ | DoDefer d => d
  end.

Definition step_worker (ep : endpoint) (s : system) (c : choice) (st : locals)
  : option system :=
  match c, c_pc st with
  | DoRead d rr, AtRead =>
      if read_ok ep (closed s) st rr
      then Some (commit d (do_read ep d st rr) s) else None
  | DoSend d, (AtReport | AtFinal) =>
      match sending st with
      | Some (_, p) => receive p (commit d (do_send d st) s)
      | None => None
      end
  | DoCheck d, AtCheck => Some (commit d (do_check d st) s)
  | DoWrite d wr, AtWrite =>
      match write_request ep st with
      | Some (data, _) =>
          if write_ok (closed s) st data wr
          then Some (commit d (do_write ep d st wr) s) else None
      | None => Some (commit d (do_write ep d st wr) s)
      end
  | DoDefer d, AtDefer =>
      Some (close [c_r st; c_w st] (commit d (do_defer d st) s))
  | _, _ => None
  end.

(** One step of the session; [None] when the choice is not possible. *)
Definition step (ep : endpoint) (s : system) (c : choice) : option system :=
  if crashed s then None
  else match worker (actor_of c) s with
       | Some st => step_worker ep s c st
       | None => None
       end.

Fixpoint run_from (ep : endpoint) (s : system) (sched : list choice)
  : option system :=
  match sched with
  | [] => Some s
  | c :: rest =>
      match step ep s c with
      | Some s' => run_from ep s' rest
      | None => None
      end
  end.

(** The session after the schedule [sched]. *)
Definition run (ep : endpoint) (sched : list choice) : option system :=
  run_from ep (init ep) sched.

(** *** What a trace tells *)

Definition addr_reports (tr : list event) : list (option Addr) :=
  flat_map (fun e => match e with
                     | EvChan _ AddressOnly p => [remoteAddr p]
                     | _ => []
                     end) tr.

(** The sender of the first unit the inbound loop read. *)
Definition first_sender (tr : list event) : option (option Addr) :=
  match find (fun e => match e with EvRead Inbound _ _ => true | _ => false end) tr with
  | Some (EvRead _ _ rr) => Some (raddr rr)
  | _ => None
  end.

(** The bytes of the writes of [d] that returned without error. *)
Definition written (d : dir) (tr : list event) : Z :=
  fold_right (fun e acc =>
                match e with
                | EvWrite d' _ _ _ wr =>
                    if dir_eqb d d' && is_nil (werr wr) then wn wr + acc else acc
                | _ => acc
                end) 0 tr.

(** The event is an action of the [copy] of direction [d], or its start. *)
Definition acts (d : dir) (e : event) : bool :=
  match e with
  | EvSpawn d' _ | EvRead d' _ _ | EvWrite d' _ _ _ _ | EvChan d' _ _
  | EvClose d' _ | EvPanic d' => dir_eqb d d'
  | EvLog (Worker d') _ => dir_eqb d d'
  | EvCopy d' _ _ _ _ => dir_eqb d d'
  | EvLog Orchestrator _ | EvReturn => false
  end.

(** The [copy] has handed over its final report. *)
Definition delivered (st : locals) : bool :=
  match c_pc st with AtDefer | Done => true | _ => false end.

Definition returned (s : system) : bool :=
  match o_pc s with OReturned => true | _ => false end.

(** ** [TransferStreams] (main.go, 25-48) *)

Module Streams.

(** Where a [copy] of this engine stands: in [io.Copy] (34), about to
    send its report (38), about to run the deferred closes (30-33), or
    returned. *)
Inductive point := AtCopy | AtFinal | AtDefer | Done.

(** The parameters of one [copy] and its variable [n]. *)
Record locals := mkLocals {
  c_r : resource;
  c_w : resource;
  c_n : Z;
  c_pc : point
}.

Definition spawn (r w : resource) : locals := mkLocals r w 0 AtCopy.

(** [io.Copy] of the Go library is taken whole: it returns the number of
    bytes it copied, an [int64] that is never negative, and the first
    error it met, which is never [io.EOF]. *)
Definition copy_ok (n : Z) (err : option error) : bool :=
  (0 <=? n) && (n <? 2 ^ 63)
  && match err with Some e => negb (is_EOF e) | None => true end.

(** Lines 34-37, given what [io.Copy] returned. *)
Definition do_copy (ep : endpoint) (d : dir) (st : locals) (n : Z)
           (err : option error) : locals * list event :=
  (mkLocals (c_r st) (c_w st) n AtFinal,
   EvCopy d (c_r st) (c_w st) n err ::
   match err with
   | Some e => [EvLog (Worker d) (LogError (RemoteAddr ep Con) e)]
   | None => []
   end).

(** [Progress{bytes: uint64(n)}] (38). *)
Definition final_report (st : locals) : Progress :=
  mkProgress None (uint64 (c_n st)).

Definition do_send (d : dir) (st : locals) : locals * list event :=
  (mkLocals (c_r st) (c_w st) (c_n st) AtDefer,
   [EvChan d FinalCount (final_report st)]).

Definition do_defer (d : dir) (st : locals) : locals * list event :=
  (mkLocals (c_r st) (c_w st) (c_n st) Done,
   [EvClose d (c_r st); EvClose d (c_w st)]).

(** The orchestrator is at its first receive (44), its second (46), or has
    returned. *)
Inductive opoint := OWait1 | OWait2 | OReturned.

Record system := mkSystem {
  o_pc : opoint;
  inb : locals;
  outb : locals;
  closed : list resource;
  trace : list event
}.

(** Lines 41-42. *)
Definition init : system :=
  mkSystem OWait1 (spawn Con Stdout) (spawn Stdin Con) []
           [EvSpawn Inbound None; EvSpawn Outbound None].

Definition worker (d : dir) (s : system) : locals :=
  match d with Inbound => inb s | Outbound => outb s end.

Definition commit (d : dir) (out : locals * list event) (s : system)
  : system :=
  let '(st, ev) := out in
  match d with
  | Inbound => mkSystem (o_pc s) st (outb s) (closed s) (trace s ++ ev)
  | Outbound => mkSystem (o_pc s) (inb s) st (closed s) (trace s ++ ev)
  end.

Definition close (xs : list resource) (s : system) : system :=
  mkSystem (o_pc s) (inb s) (outb s) (closed s ++ xs) (trace s).

(** Lines 44-45 and 46-48. *)
Definition receive (ep : endpoint) (p : Progress) (s : system)
  : option system :=
  match o_pc s with
  | OWait1 =>
      Some (mkSystem OWait2 (inb s) (outb s) (closed s)
              (trace s ++
               [EvLog Orchestrator
                      (LogClosedByPeer (RemoteAddr ep Con) (bytes p))]))
  | OWait2 =>
      Some (mkSystem OReturned (inb s) (outb s) (closed s)
              (trace s ++
               [EvLog Orchestrator (LogSent (RemoteAddr ep Con) (bytes p));
                EvReturn]))
  | OReturned => None
  end.

Inductive choice :=
| DoCopy (d : dir) (n : Z) (err : option error)
| DoSend (d : dir)
| DoDefer (d : dir).

Definition step (ep : endpoint) (s : system) (c : choice) : option system :=
  match c with
  | DoCopy d n err =>
      match c_pc (worker d s) with
      | AtCopy =>
          if copy_ok n err
          then Some (commit d (do_copy ep d (worker d s) n err) s)
          else None
      | _ => None
      end
  | DoSend d =>
      match c_pc (worker d s) with
      | AtFinal =>
          receive ep (final_report (worker d s))
                  (commit d (do_send d (worker d s)) s)
      | _ => None
      end
  | DoDefer d =>
      match c_pc (worker d s) with
      | AtDefer =>
          Some (close [c_r (worker d s); c_w (worker d s)]
                      (commit d (do_defer d (worker d s)) s))
      | _ => None
      end
  end.

Fixpoint run_from (ep : endpoint) (s : system) (sched : list choice)
  : option system :=
  match sched with
  | [] => Some s
  | c :: rest =>
      match step ep s c with
      | Some s' => run_from ep s' rest
      | None => None
      end
  end.

Definition run (ep : endpoint) (sched : list choice) : option system :=
  run_from ep init sched.

Definition delivered (st : locals) : bool :=
  match c_pc st with AtDefer | Done => true | _ => false end.

Definition returned (s : system) : bool :=
  match o_pc s with OReturned => true | _ => false end.

(** The bytes [io.Copy] reports to have copied in direction [d]. *)
Definition copied (d : dir) (tr : list event) : Z :=
  fold_right (fun e acc =>
                match e with
                | EvCopy d' _ _ n _ => if dir_eqb d d' then n + acc else acc
                | _ => acc
                end) 0 tr.

(** *** Invariants of a stream session *)

Definition count_delivered (s : system) : nat :=
  (if delivered (inb s) then 1 else 0) + (if delivered (outb s) then 1 else 0).

Definition taken (p : opoint) : nat :=
  match p with OWait1 => 0 | OWait2 => 1 | OReturned => 2 end.

Definition accounted (d : dir) (st : locals) (tr : list event) : Prop :=
  c_n st = copied d tr /\ 0 <= c_n st < 2 ^ 63 /\
  (c_pc st = AtCopy -> c_n st = 0) /\
  forall p, In (EvChan d FinalCount p) tr ->
            delivered st = true /\ bytes p = uint64 (c_n st).

Definition Inv (s : system) : Prop :=
  count_delivered s = taken (o_pc s) /\
  forall d, accounted d (worker d s) (trace s).

(** The events that matter to the byte count of direction [d]. *)
Definition counts (d : dir) (e : event) : bool :=
  match e with
  | EvCopy d' _ _ _ _ | EvChan d' FinalCount _ => dir_eqb d d'
  | _ => false
  end.

(** What is left to do for a [copy] to hand over its report, if [io.Copy]
    returns at once. *)
Definition finish_worker (d : dir) (st : locals) : list choice :=
  match c_pc st with
  | AtCopy => [DoCopy d 0 None; DoSend d]
  | AtFinal => [DoSend d]
  | _ => []
  end.

Definition finish_session (s : system) : list choice :=
  finish_worker Inbound (inb s) ++ finish_worker Outbound (outb s).

(** Lines 45 and 47 for the counts [ns], taken in order. *)
Definition labelled (ra : option Addr) (ns : list Z) : list log_line :=
  match ns with
  | [] => []
  | [a] => [LogClosedByPeer ra a]
  | a :: b :: _ => [LogClosedByPeer ra a; LogSent ra b]
  end.

End Streams.

(** ** [main] (main.go, 123-202) *)

(** The four command-line flags, as [flag.Parse] leaves them. *)
Record flags := mkFlags {
  host : string;
  proto : string;
  listen : bool;
  port : string
}.

(** The default values of lines 126-129. *)
Definition default_flags : flags :=
  mkFlags EmptyString "tcp" false ":9999".

(** What the calls of package [net] answer: an error, or the handle asked
    for. Of a connection the engine sees only the remote address; a
    listening UDP connection has none. *)
Record network := mkNetwork {
  Listen : string -> string -> option error;
  Accept : Addr + error;
  Dial : string -> string -> Addr + error;
  ResolveUDPAddr : string -> string -> Addr + error;
  ListenUDP : string -> Addr -> option error;
  DialUDP : string -> Addr -> option error
}.

(** The lines [main] logs before the engine runs. *)
Inductive setup_line :=
| LogListening (on : string)
| LogOpened (ra : option Addr)
| LogConnected (to : string)
| LogSending (to : string).

(** How [main] ends or goes on: the usage text, a fatal error, or one of
    the engines on a connection. *)
Inductive outcome :=
| Usage
| Fatal (logs : list setup_line) (e : error)
| RunStreams (logs : list setup_line) (ep : endpoint)
| RunPackets (logs : list setup_line) (ep : endpoint).

(** Lines 132-144. *)
Definition startTCPServer (net : network) (f : flags) : outcome :=
  match Listen net (proto f) (port f) with
  | Some e => Fatal [] e
  | None =>
      match Accept net with
      | inr e => Fatal [LogListening (proto f ++ port f)] e
      | inl ra =>
          RunStreams [LogListening (proto f ++ port f); LogOpened (Some ra)]
                     (mkEndpoint false (Some ra))
      end
  end.

(** Lines 146-153. *)
Definition startTCPClient (net : network) (f : flags) : outcome :=
  match Dial net (proto f) (host f ++ port f) with
  | inr e => Fatal [] e
  | inl ra =>
      RunStreams [LogConnected (host f ++ port f)] (mkEndpoint false (Some ra))
  end.

(** Lines 155-167. *)
Definition startUDPServer (net : network) (f : flags) : outcome :=
  match ResolveUDPAddr net (proto f) (port f) with
  | inr e => Fatal [] e
  | inl addr =>
      match ListenUDP net (proto f) addr with
      | Some e => Fatal [] e
      | None =>
          RunPackets [LogListening (proto f ++ port f)] (mkEndpoint true None)
      end
  end.

(** Lines 169-180. *)
Definition startUDPClient (net : network) (f : flags) : outcome :=
  match ResolveUDPAddr net (proto f) (host f ++ port f) with
  | inr e => Fatal [] e
  | inl addr =>
      match DialUDP net (proto f) addr with
      | Some e => Fatal [] e
      | None =>
          RunPackets [LogSending (host f ++ port f)]
                     (mkEndpoint true (Some addr))
      end
  end.

(** Lines 182-201. *)
Definition main (net : network) (f : flags) : outcome :=
  if String.eqb (proto f) "tcp" then
    if listen f then startTCPServer net f
    else if negb (String.eqb (host f) EmptyString) then startTCPClient net f
    else Usage
  else if String.eqb (proto f) "udp" then
    if listen f then startUDPServer net f
    else if negb (String.eqb (host f) EmptyString) then startUDPClient net f
    else Usage
  else Usage.

(** ** Sample sessions *)

Definition A1 : Addr := "192.0.2.7:40000"%string.
Definition A2 : Addr := "198.51.100.9:5353"%string.

(** A network on which every call succeeds. *)
Definition fair_weather : network :=
  mkNetwork (fun _ _ => None) (inl A1) (fun _ _ => inl A1)
            (fun _ _ => inl A2) (fun _ _ => None) (fun _ _ => None).
Definition listener : endpoint := mkEndpoint true None.
Definition dialer : endpoint := mkEndpoint true (Some A1).

Definition hi : list byte := [x68; x69; x0a].
Definition bye : list byte := UDPDisconnectSequence ++ [x0a].

(** A listening session: a unit from [A1], a unit from [A2], a line of
    local input sent out, the marker from [A2], and a last line of local
    input that meets the closed connection. *)
Definition listen_session : list choice :=
  [DoRead Inbound (mkRead hi (Some A1) None); DoSend Inbound;
   DoCheck Inbound; DoWrite Inbound (mkWrite 3 None);
   DoRead Inbound (mkRead hi (Some A2) None);
   DoCheck Inbound; DoWrite Inbound (mkWrite 3 None);
   DoRead Outbound (mkRead hi None None);
   DoCheck Outbound; DoWrite Outbound (mkWrite 3 None);
   DoRead Inbound (mkRead bye (Some A2) None);
   DoCheck Inbound; DoSend Inbound; DoDefer Inbound;
   DoRead Outbound (mkRead hi None None); DoCheck Outbound;
   DoWrite Outbound (mkWrite 0 (Some (ErrOther "closed")));
   DoSend Outbound].

Definition state_after (ep : endpoint) (sched : list choice) : system :=
  match run ep sched with Some s => s | None => init ep end.

(** A stream session: five bytes each way. *)
Definition stream_session : list Streams.choice :=
  [Streams.DoCopy Inbound 5 None; Streams.DoSend Inbound;
   Streams.DoCopy Outbound 5 None; Streams.DoDefer Inbound;
   Streams.DoSend Outbound].

Definition stream_after (ep : endpoint) (sched : list Streams.choice)
  : Streams.system :=
  match Streams.run ep sched with Some s => s | None => Streams.init end.

(** The events of [listen_session] before the first write of the outbound
    loop, that write, and the events after it. *)
Definition listen_before : list event :=
  firstn 9 (trace (state_after listener listen_session)).
Definition listen_write : event :=
  EvWrite Outbound Con (Some (Some A1)) hi (mkWrite 3 None).
Definition listen_afterwards : list event :=
  skipn 10 (trace (state_after listener listen_session)).

(** A first read that fails, with no sender. *)
Definition refused : read_result :=
  mkRead [] None (Some (ErrOther "refused")).

(** A listening session whose first read fails, after the report. *)
Definition refused_start : list choice :=
  [DoRead Inbound refused; DoSend Inbound].

(** The start of [listen_session], up to the outbound loop's first write. *)
Definition listen_start : list choice := firstn 10 listen_session.

(** The address-learning test of line 74, for a [copy] about to read. *)
Definition learns (ep : endpoint) (st : locals) : bool :=
  is_UDPConn ep (c_r st) && is_nil (RemoteAddr ep (c_r st)) && is_nil (c_ra st).

(** Where a solo run ended, and what it did. *)
Definition summary (out : locals * list event) : point * list event :=
  (c_pc (fst out), snd out).

(** ** Invariants of a datagram session *)

(** The inbound [copy] will not take the address-learning branch again:
    its [ra] is set, or the read that left it nil failed and ends the loop. *)
Definition settled (st : locals) : Prop :=
  c_ra st <> None \/ (c_pc st = AtCheck /\ c_err st <> None) \/
  c_pc st = AtFinal \/ c_pc st = AtDefer \/ c_pc st = Done.

Definition count_delivered (s : system) : nat :=
  (if delivered (inb s) then 1 else 0) +
  match outb s with
  | Some st => if delivered st then 1 else 0
  | None => 0
  end.

(** The final reports the orchestrator has taken when it stands at [p]. *)
Definition taken (p : opoint) : nat :=
  match p with OWaitAddr | OWait1 => 0 | OWait2 => 1 | OReturned => 2 end.

(** Before the address is known the inbound [copy] is alone, at its first
    read or at the report that follows it. *)
Definition learning (ep : endpoint) (s : system) : Prop :=
  remote ep = None /\ outb s = None /\ addr_reports (trace s) = [] /\
  (forall e, In e (trace s) -> acts Outbound e = false) /\
  ((c_pc (inb s) = AtRead /\ c_ra (inb s) = None /\
    first_sender (trace s) = None) \/
   (c_pc (inb s) = AtReport /\
    first_sender (trace s) = Some (c_ra (inb s)) /\
    (c_ra (inb s) = None -> c_err (inb s) <> None))).

(** Once both directions run, [ra] is the same everywhere; a listening
    endpoint has reported exactly the sender of its first unit. *)
Definition relaying (ep : endpoint) (s : system) : Prop :=
  outb s <> None /\ c_pc (inb s) <> AtReport /\ c_ra (inb s) = o_ra s /\
  match remote ep with
  | None =>
      addr_reports (trace s) = [o_ra s] /\
      first_sender (trace s) = Some (o_ra s) /\ settled (inb s)
  | Some a => addr_reports (trace s) = [] /\ o_ra s = Some a
  end.

Record Inv (ep : endpoint) (s : system) : Prop := mkInv {
  inv_in : c_r (inb s) = Con /\ c_w (inb s) = Stdout;
  inv_out : forall st, outb s = Some st ->
            c_r st = Stdin /\ c_w st = Con /\ c_ra st = o_ra s /\
            c_pc st <> AtReport;
  inv_count : count_delivered s = taken (o_pc s);
  inv_phase : match o_pc s with
              | OWaitAddr => learning ep s
              | _ => relaying ep s
              end;
  inv_closed : c_pc (inb s) = Done -> is_closed Con (closed s) = true
}.

(** The running byte count of a [copy] is the sum of its successful writes,
    and a final report in the trace carries it. *)
Definition accounted (d : dir) (st : locals) (tr : list event) : Prop :=
  c_bytes st = uint64 (written d tr) /\ 0 <= written d tr /\
  forall p, In (EvChan d FinalCount p) tr ->
            delivered st = true /\ bytes p = c_bytes st.

Definition Inv_bytes (s : system) : Prop :=
  (o_pc s = OWaitAddr -> outb s = None) /\
  forall d,
    match worker d s with
    | Some st => accounted d st (trace s)
    | None => forall e, In e (trace s) -> acts d e = false
    end.

(** The events that matter to the byte count of direction [d]. *)
Definition counts (d : dir) (e : event) : bool :=
  match e with
  | EvWrite d' _ _ _ _ | EvChan d' FinalCount _ => dir_eqb d d'
  | _ => false
  end.

Definition is_report (e : event) : bool :=
  match e with EvChan _ AddressOnly _ => true | _ => false end.

(** How an event of the outbound direction uses the address [x]. *)
Definition uses (x : option Addr) (e : event) : Prop :=
  match e with
  | EvSpawn _ ra => ra = x
  | EvWrite _ dst to _ _ => dst = Con /\ to = Some x
  | _ => True
  end.

(** An address-only report is sent by the inbound [copy] and has no count. *)
Definition from_inbound (e : event) : Prop :=
  match e with
  | EvChan d AddressOnly p => d = Inbound /\ bytes p = 0
  | _ => True
  end.

(** Every event of the outbound direction comes after the one address-only
    report, and uses the address it carried. *)
Definition Inv_order (s : system) : Prop :=
  (forall e, In e (trace s) -> from_inbound e) /\
  forall pre e post,
    trace s = pre ++ e :: post -> acts Outbound e = true ->
    addr_reports pre = [o_ra s] /\ uses (o_ra s) e.

(** ** Units that are forwarded *)

(** A unit that the loop writes on: read without error, not empty, and not
    the marker once its last byte is dropped. *)
Definition forwardable (rr : read_result) : Prop :=
  rerr rr = None /\ rdata rr <> [] /\
  removelast (rdata rr) <> UDPDisconnectSequence.

(** How the write of lines 92-97 addresses a unit, for a [copy] whose [ra]
    is [ra]. *)
Definition destination (ep : endpoint) (w : resource) (ra : option Addr)
  : option (option Addr) :=
  if is_UDPConn ep w && is_nil (RemoteAddr ep w) then Some ra else None.

(** The units written by direction [d], in order. *)
Definition units_written (d : dir) (tr : list event) : list (list byte) :=
  flat_map (fun e => match e with
                     | EvWrite d' _ _ data _ =>
                         if dir_eqb d d' then [data] else []
                     | _ => []
                     end) tr.

(** The sum of the counts the writes of a list of rounds return. *)
Definition counts_sum (ins : list round) : Z :=
  fold_right (fun i acc => wn (i_write i) + acc) 0 ins.

(** ** What every [copy] keeps *)

(** The buffer keeps the length it was made with; what was read fits in
    it; and a [copy] stopped by a panic had read an empty unit without
    error. *)
Definition in_bounds (st : locals) : Prop :=
  Z.of_nat (length (c_buf st)) = BufferLimit /\
  match c_pc st with
  | AtReport | AtCheck | AtWrite =>
      0 <= c_n st <= Z.of_nat (length (c_buf st))
  | Panicked => c_n st = 0 /\ c_err st = None
  | _ => True
  end.

(** A listening session whose first datagram is empty. *)
Definition empty_first : list choice :=
  [DoRead Inbound (mkRead [] (Some A1) None); DoSend Inbound; DoCheck Inbound].

(** A dialled session: a line sent, a unit received. *)
Definition dial_session : list choice :=
  [DoRead Outbound (mkRead hi None None); DoCheck Outbound;
   DoWrite Outbound (mkWrite 3 None);
   DoRead Inbound (mkRead hi (Some A1) None); DoCheck Inbound;
   DoWrite Inbound (mkWrite 3 None)].

(** The handles closed so far are those of the copies that have returned,
    and a copy that has returned has closed both of its handles. *)
Definition closes_ok (s : system) : Prop :=
  (o_pc s = OWaitAddr -> outb s = None) /\
  (forall d st,
     worker d s = Some st -> c_pc st = Done ->
     is_closed (c_r st) (closed s) = true /\
     is_closed (c_w st) (closed s) = true) /\
  (forall x,
     is_closed x (closed s) = true ->
     exists d st, worker d s = Some st /\ c_pc st = Done /\
                  (x = c_r st \/ x = c_w st)).

(** [listen_session] up to the pending write of the outbound loop, after
    the inbound loop has returned. *)
Definition listen_closed : list choice := firstn 16 listen_session.

(** ** What the orchestrator logs at the end *)

(** The final reports sent, oldest first: who sent each, and its count. *)
Definition final_reports (tr : list event) : list (dir * Z) :=
  flat_map (fun e => match e with
                     | EvChan d FinalCount p => [(d, bytes p)]
                     | _ => []
                     end) tr.

(** The lines the orchestrator logs after its last two receives. *)
Definition closing_lines (tr : list event) : list log_line :=
  flat_map (fun e => match e with
                     | EvLog Orchestrator (LogDatagram _) => []
                     | EvLog Orchestrator l => [l]
                     | _ => []
                     end) tr.

(** Lines 118 and 120 for the counts [ns], taken in order. *)
Definition labelled (ra : option Addr) (ns : list Z) : list log_line :=
  match ns with
  | [] => []
  | [a] => [LogReceived ra a]
  | a :: b :: _ => [LogReceived ra a; LogSent ra b]
  end.

(** Events of a worker other than a channel send. *)
Definition silent (e : event) : Prop :=
  match e with
  | EvChan _ _ _ | EvLog Orchestrator _ => False
  | _ => True
  end.

(** A dialled session in which the outbound loop sends a line and then
    meets the end of its input, before anything is received. *)
Definition outbound_first : list choice :=
  [DoRead Outbound (mkRead hi None None); DoCheck Outbound;
   DoWrite Outbound (mkWrite 3 None);
   DoRead Outbound (mkRead [] None (Some EOF)); DoCheck Outbound;
   DoSend Outbound].

(** An accepted TCP connection. *)
Definition tcp_peer : endpoint := mkEndpoint false (Some A1).

(** A stream session in which local input ends first, after seven bytes. *)
Definition stream_outbound_first : list Streams.choice :=
  [Streams.DoCopy Outbound 7 None; Streams.DoSend Outbound].

(** ** Bytes written and bytes counted *)

(** The bytes the writes of [d] report to have written, be it with an
    error: what has reached the destination. *)
Definition transferred (d : dir) (tr : list event) : Z :=
  fold_right (fun e acc =>
                match e with
                | EvWrite d' _ _ _ wr =>
                    if dir_eqb d d' then wn wr + acc else acc
                | _ => acc
                end) 0 tr.

(** Every write that returned an error had written nothing. *)
Definition no_partial_write (d : dir) (tr : list event) : Prop :=
  forall x to data wr,
    In (EvWrite d x to data wr) tr -> werr wr <> None -> wn wr = 0.

(** A dialled session whose local output takes two of the three bytes of
    a unit and then fails. *)
Definition short_write : list choice :=
  [DoRead Inbound (mkRead hi (Some A1) None); DoCheck Inbound;
   DoWrite Inbound (mkWrite 2 (Some (ErrOther "no space left on device")));
   DoSend Inbound].

(** A read that meets the end of its input. *)
Definition hung_up : read_result := mkRead [] None (Some EOF).

(** A dialled session that receives units of three bytes until their bytes
    no longer fit the counter, and then a read that fails. *)
Definition flood : list round :=
  repeat (mkRound (mkRead hi (Some A1) None) (mkWrite 3 None))
         (Z.to_nat (2 ^ 63))
  ++ [mkRound hung_up (mkWrite 3 None)].

(** ** The first read and the address *)

(** The first read of the inbound loop. *)
Definition first_read (tr : list event) : option read_result :=
  match find (fun e => match e with EvRead Inbound _ _ => true | _ => false end) tr with
  | Some (EvRead _ _ rr) => Some rr
  | _ => None
  end.

(** A listening session whose first read fails; the outbound loop then
    takes a line of local input and tries to send it. *)
Definition blind_reply : list choice :=
  refused_start ++
  [DoRead Outbound (mkRead hi None None); DoCheck Outbound;
   DoWrite Outbound (mkWrite 0 (Some (ErrOther "missing address")))].

(** ** The end of a direction *)

(** What the orchestrator logs when it takes a final report with count
    [n], standing at [p]: line 118, or line 120 and its return. *)
Definition closing (p : opoint) (ra : option Addr) (n : Z) : list event :=
  match p with
  | OWait1 => [EvLog Orchestrator (LogReceived ra n)]
  | _ => [EvLog Orchestrator (LogSent ra n); EvReturn]
  end.

(** A dialled session whose local input ends at once: the outbound loop
    reports and returns. *)
Definition input_ends : list choice :=
  [DoRead Outbound hung_up; DoCheck Outbound; DoSend Outbound;
   DoDefer Outbound].

(** A read on a connection that has been closed. *)
Definition on_closed : read_result :=
  mkRead [] None (Some (ErrOther "use of closed network connection")).

(** ** Winding a session down *)

(** A read that fails with the error [e]. *)
Definition fails (e : error) : read_result := mkRead [] None (Some e).

(** The pending write of a [copy] completes: in full while its handle is
    open, with an error once the handle has been closed. *)
Definition completes (cl : list resource) (st : locals) : write_result :=
  if is_closed (c_w st) cl
  then mkWrite 0 (Some (ErrOther "use of closed network connection"))
  else mkWrite (c_n st) None.

(** What is left for a [copy] to do up to its final report when its
    pending write completes and every read from then on fails with [e]:
    from the write, from the examination of a unit, and from any point of
    the loop. *)
Definition after_write (cl : list resource) (e : error) (d : dir)
           (st : locals) : list choice :=
  DoWrite d (completes cl st) ::
  (if is_closed (c_w st) cl then [] else [DoRead d (fails e); DoCheck d]) ++
  [DoSend d].

Definition after_check (cl : list resource) (e : error) (d : dir)
           (st : locals) : list choice :=
  DoCheck d ::
  match c_pc (fst (on_check st)) with
  | AtWrite => after_write cl e d st
  | _ => [DoSend d]
  end.

Definition wind_worker (ep : endpoint) (cl : list resource) (e : error)
           (d : dir) (st : locals) : list choice :=
  match c_pc st with
  | AtRead =>
      DoRead d (fails e) ::
      (if learns ep st then [DoSend d] else []) ++ [DoCheck d; DoSend d]
  | AtReport => DoSend d :: after_check cl e d st
  | AtCheck => after_check cl e d st
  | AtWrite => after_write cl e d st
  | AtFinal => [DoSend d]
  | AtDefer | Done | Panicked => []
  end.

(** The inbound loop first, its reads failing with [ei]; then the outbound
    loop, its reads failing with [eo]; if not yet started, it is by then at
    its first read. *)
Definition wind_down (ep : endpoint) (ei eo : error) (s : system)
  : list choice :=
  wind_worker ep (closed s) ei Inbound (inb s) ++
  wind_worker ep (closed s) eo Outbound
    match outb s with Some st => st | None => spawn Stdin Con None end.






(** An error of a read on the connection. *)
Definition net_down : error := ErrOther "network is down".

(** [listen_session] up to the first pending write of the outbound loop,
    the inbound loop being at a read. *)
Definition listen_midway : list choice := firstn 9 listen_session.

(** Two lines, as units. *)
Definition two_lines : list round :=
  [mkRound (mkRead hi (Some A1) None) (mkWrite 3 None);
   mkRound (mkRead [x7e; x2e; x78; x79] (Some A2) None) (mkWrite 4 None)].

(** * Properties *)

(** ** Slices and the buffer *)

Lemma bytes_eqb_eq a : forall b, bytes_eqb a b = true <-> a = b.
Proof.
  induction a as [|x a IH]; intros [|y b]; simpl; split; intro H;
    try reflexivity; try discriminate.
  - apply andb_true_iff in H as [Hx Hab].
    apply Byte.byte_dec_bl in Hx. apply IH in Hab. now subst.
  - injection H as -> ->. apply andb_true_iff. split.
    + now apply Byte.byte_dec_lb.
    + now apply IH.
Qed.

Lemma slice_front data rest k :
  0 <= k <= Z.of_nat (length data) ->
  slice (data ++ rest) 0 k = Some (firstn (Z.to_nat k) data).
Proof.
  intros [Hlo Hhi]. unfold slice.
  assert (Hlen : k <= Z.of_nat (length (data ++ rest))).
  { rewrite length_app. lia. }
  apply Z.leb_le in Hlo as Hlo', Hlen.
  rewrite Hlo', Hlen. simpl. rewrite Z.sub_0_r.
  rewrite firstn_app.
  replace (Z.to_nat k - length data)%nat with 0%nat by lia.
  simpl. now rewrite app_nil_r.
Qed.

Lemma slice_negative b hi : hi < 0 -> slice b 0 hi = None.
Proof.
  intro H. unfold slice.
  replace (0 <=? hi) with false by (symmetry; apply Z.leb_gt; lia).
  reflexivity.
Qed.

Lemma slice_unit b data :
  slice (fill b data) 0 (Z.of_nat (length data)) = Some data.
Proof.
  unfold fill. rewrite slice_front by lia.
  now rewrite Nat2Z.id, firstn_all.
Qed.

Lemma slice_but_last b data :
  data <> [] ->
  slice (fill b data) 0 (Z.of_nat (length data) - 1) = Some (removelast data).
Proof.
  intro Hne. unfold fill.
  assert (0 < length data)%nat by (destruct data; simpl; [congruence | lia]).
  rewrite slice_front by lia.
  rewrite removelast_firstn_len. do 2 f_equal. lia.
Qed.

(** ** What a read leaves in the locals *)

Lemma on_read_pc ep st rr :
  c_pc (on_read ep st rr) = if learns ep st then AtReport else AtCheck.
Proof.
  unfold on_read, learns.
  destruct (is_UDPConn ep (c_r st)); simpl; [|reflexivity].
  now destruct (is_nil (RemoteAddr ep (c_r st)) && is_nil (c_ra st)).
Qed.

Lemma on_read_ra ep st rr :
  c_ra (on_read ep st rr) = if learns ep st then raddr rr else c_ra st.
Proof.
  unfold on_read, learns.
  destruct (is_UDPConn ep (c_r st)); simpl; [|reflexivity].
  now destruct (is_nil (RemoteAddr ep (c_r st)) && is_nil (c_ra st)).
Qed.

Lemma on_read_fields ep st rr :
  c_r (on_read ep st rr) = c_r st /\
  c_w (on_read ep st rr) = c_w st /\
  c_buf (on_read ep st rr) = fill (c_buf st) (rdata rr) /\
  c_n (on_read ep st rr) = Z.of_nat (length (rdata rr)) /\
  c_err (on_read ep st rr) = rerr rr /\
  c_bytes (on_read ep st rr) = c_bytes st.
Proof.
  unfold on_read.
  destruct (is_UDPConn ep (c_r st)); simpl; [|tauto].
  destruct (is_nil (RemoteAddr ep (c_r st)) && is_nil (c_ra st)); simpl; tauto.
Qed.

(** The locals at the examination of a unit: after the read and, when the
    address was learned, after the report. *)
Lemma arrive_check ep d st rr :
  exists st2,
    match c_pc (on_read ep st rr) with
    | AtReport => do_send d (on_read ep st rr)
    | _ => (on_read ep st rr, [])
    end
    = (st2, if learns ep st
            then [EvChan d AddressOnly (mkProgress (raddr rr) 0)] else []) /\
    c_pc st2 = AtCheck /\
    c_r st2 = c_r st /\ c_w st2 = c_w st /\
    c_ra st2 = (if learns ep st then raddr rr else c_ra st) /\
    c_buf st2 = fill (c_buf st) (rdata rr) /\
    c_n st2 = Z.of_nat (length (rdata rr)) /\
    c_err st2 = rerr rr /\
    c_bytes st2 = c_bytes st.
Proof.
  pose proof (on_read_pc ep st rr) as Hpc.
  pose proof (on_read_ra ep st rr) as Hra.
  destruct (on_read_fields ep st rr) as (Hr & Hw & Hb & Hn & He & Hy).
  destruct (learns ep st); rewrite Hpc.
  - exists (at_ AtCheck (on_read ep st rr)).
    unfold do_send, sending, after_send, addr_report. rewrite Hpc, Hra.
    simpl. repeat split; assumption.
  - exists (on_read ep st rr). repeat split; assumption.
Qed.

(** ** The loop on one unit *)

Lemma loop_step ep d i rest st :
  loop ep d (i :: rest) st =
  let '(st2, e2) :=
    match c_pc (on_read ep st (i_read i)) with
    | AtReport => do_send d (on_read ep st (i_read i))
    | _ => (on_read ep st (i_read i), [])
    end in
  let '(st3, e3) := do_check d st2 in
  match c_pc st3 with
  | AtWrite =>
      let '(st4, e4) := do_write ep d st3 (i_write i) in
      match c_pc st4 with
      | AtRead =>
          let '(st5, e5) := loop ep d rest st4 in
          (st5, [EvRead d (c_r st) (i_read i)] ++ e2 ++ e3 ++ e4 ++ e5)
      | _ => (st4, [EvRead d (c_r st) (i_read i)] ++ e2 ++ e3 ++ e4)
      end
  | _ => (st3, [EvRead d (c_r st) (i_read i)] ++ e2 ++ e3)
  end.
Proof. reflexivity. Qed.

(** A unit read without error whose bytes but the last are the marker sends
    the loop to its final report, with no log line. *)
Lemma check_marker st data b0 :
  c_err st = None ->
  c_buf st = fill b0 data ->
  c_n st = Z.of_nat (length data) ->
  removelast data = UDPDisconnectSequence ->
  on_check st = (at_ AtFinal st, []).
Proof.
  intros He Hb Hn Hm. unfold on_check. rewrite He, Hb, Hn.
  assert (data <> []) by (intros ->; discriminate).
  rewrite slice_but_last by assumption. rewrite Hm. reflexivity.
Qed.

(** A read error sends the loop to its final report; only an error other
    than the end of data is logged, with the current [ra]. *)
Lemma check_error st e :
  c_err st = Some e ->
  on_check st =
  (at_ AtFinal st, if is_EOF e then [] else [LogError (c_ra st) e]).
Proof. intro He. unfold on_check. now rewrite He. Qed.

(** An empty unit read without error: [buf[0:n-1]] is [buf[0:-1]]. *)
Lemma check_empty st :
  c_err st = None -> c_n st = 0 -> on_check st = (at_ Panicked st, []).
Proof.
  intros He Hn. unfold on_check. rewrite He, Hn.
  now rewrite slice_negative by lia.
Qed.

(** What [finish] does after the loop has ended at its final report. *)
Lemma finish_final d st :
  c_pc st = AtFinal ->
  summary (finish d st) =
  (Done, [EvChan d FinalCount (mkProgress None (c_bytes st));
          EvClose d (c_r st); EvClose d (c_w st)]).
Proof.
  intro H. unfold finish, do_send, sending, after_send. rewrite H. reflexivity.
Qed.

Lemma summary_copy ep d st ins :
  summary (copy ep d st ins) =
  (c_pc (fst (finish d (fst (loop ep d ins st)))),
   snd (loop ep d ins st) ++ snd (finish d (fst (loop ep d ins st)))).
Proof.
  unfold copy, summary.
  destruct (loop ep d ins st) as [st1 e1]. simpl.
  now destruct (finish d st1).
Qed.

(** C1. In a datagram-session copy loop, a unit that is read without error
    and whose content without its final byte is the disconnect marker ends
    the loop: the run goes from the read (and, on the first read of a
    listening endpoint, the address-only report) straight to the final
    report with the byte count unchanged and to the deferred closes. The unit
    is not written and nothing is logged. *)
Theorem marker_unit_ends_loop ep d st rr wr rest :
  rerr rr = None ->
  removelast (rdata rr) = UDPDisconnectSequence ->
  summary (copy ep d st (mkRound rr wr :: rest)) =
  (Done,
   [EvRead d (c_r st) rr] ++
   (if learns ep st
    then [EvChan d AddressOnly (mkProgress (raddr rr) 0)] else []) ++
   [EvChan d FinalCount (mkProgress None (c_bytes st));
    EvClose d (c_r st); EvClose d (c_w st)]).
Proof.
  intros Herr Hm. rewrite summary_copy, loop_step. cbn [i_read i_write].
  destruct (arrive_check ep d st rr)
    as (st2 & -> & Hpc & Hr & Hw & _ & Hb & Hn & He & Hy).
  unfold do_check.
  rewrite (check_marker st2 (rdata rr) (c_buf st)); try congruence.
  cbn. unfold final_report. cbn. now rewrite Hr, Hw, Hy, app_nil_r.
Qed.

Lemma marker_unit_ends_loop_witness :
  summary (copy (mkEndpoint true None) Inbound (spawn Con Stdout None)
             [mkRound (mkRead [x7e; x2e; x0a] (Some A1) None) (mkWrite 3 None)]) =
  (Done,
   [EvRead Inbound Con (mkRead [x7e; x2e; x0a] (Some A1) None);
    EvChan Inbound AddressOnly (mkProgress (Some A1) 0);
    EvChan Inbound FinalCount (mkProgress None 0);
    EvClose Inbound Con; EvClose Inbound Stdout]).
Proof.
  exact (marker_unit_ends_loop (mkEndpoint true None) Inbound
           (spawn Con Stdout None)
           (mkRead [x7e; x2e; x0a] (Some A1) None) (mkWrite 3 None) []
           eq_refl eq_refl).
Defined.

(** C2. The code does not handle an empty unit: when a read returns no byte
    and no error, the marker comparison slices [buf[0:-1]], the bounds check
    fails and the [copy] stops in a run-time panic, after the address-only
    report if this was the first read of a listening endpoint. *)
Theorem empty_unit_panics ep d st a wr rest :
  summary (copy ep d st (mkRound (mkRead [] a None) wr :: rest)) =
  (Panicked,
   [EvRead d (c_r st) (mkRead [] a None)] ++
   (if learns ep st then [EvChan d AddressOnly (mkProgress a 0)] else []) ++
   [EvPanic d]).
Proof.
  rewrite summary_copy, loop_step. cbn [i_read i_write].
  destruct (arrive_check ep d st (mkRead [] a None))
    as (st2 & -> & Hpc & Hr & Hw & _ & Hb & Hn & He & Hy).
  unfold do_check. rewrite (check_empty st2 He Hn). cbn.
  now rewrite app_nil_r.
Qed.

(** The same in a session: an empty datagram sent to a listening endpoint
    ends the whole process. *)
Example empty_datagram_crashes_session :
  option_map (fun s => (crashed s, o_pc s, c_pc (inb s)))
    (run listener [DoRead Inbound (mkRead [] (Some A1) None);
                   DoSend Inbound; DoCheck Inbound])
  = Some (true, OWait1, Panicked).
Proof. vm_compute. reflexivity. Qed.

(** A step of one worker that is no channel send leaves the other worker
    and the orchestrator as they were. *)
Lemma check_step ep s d st :
  crashed s = false -> worker d s = Some st -> c_pc st = AtCheck ->
  step ep s (DoCheck d) = Some (commit d (do_check d st) s).
Proof.
  intros Hc Hw Hpc. unfold step. rewrite Hc. cbn [actor_of]. rewrite Hw.
  unfold step_worker. now rewrite Hpc.
Qed.

Lemma refused_start_runs :
  crashed (state_after listener refused_start) = false /\
  c_pc (inb (state_after listener refused_start)) = AtCheck /\
  c_err (inb (state_after listener refused_start)) = Some (ErrOther "refused").
Proof. vm_compute. repeat split; reflexivity. Qed.

(** C4. The buffer of a [copy] is not 65535 bytes long: the constant
    [2<<16 - 1] is 131071. *)
Theorem BufferLimit_value :
  BufferLimit = 131071 /\ BufferLimit <> 65535 /\
  forall r w ra, Z.of_nat (length (c_buf (spawn r w ra))) = 131071.
Proof.
  assert (H : BufferLimit = 131071) by reflexivity.
  split; [exact H|]. split; [rewrite H; discriminate|].
  intros. unfold spawn, make. cbn [c_buf].
  rewrite repeat_length, H. now rewrite Z2Nat.id.
Qed.

(** With this buffer a read can return more than 65535 bytes, a full UDP
    datagram and more, and the loop takes them as one unit. *)
Example oversized_unit_is_read_whole :
  let rr := mkRead (repeat x61 (Z.to_nat 65536)) None None in
  let st := on_read dialer (spawn Stdin Con (Some A1)) rr in
  read_ok dialer [] (spawn Stdin Con (Some A1)) rr = true /\
  c_n st = 65536 /\
  option_map (fun q => Z.of_nat (length (fst q))) (write_request dialer st)
  = Some 65536.
Proof. vm_compute. repeat split; reflexivity. Qed.

(** ** Traces *)

Lemma addr_reports_app tr ev :
  addr_reports (tr ++ ev) = addr_reports tr ++ addr_reports ev.
Proof. unfold addr_reports. apply flat_map_app. Qed.

Lemma first_sender_app tr ev :
  first_sender (tr ++ ev) =
  match first_sender tr with Some x => Some x | None => first_sender ev end.
Proof.
  unfold first_sender. induction tr as [|e tr IH]; [reflexivity|].
  destruct e as [| [] | | | | | | |]; simpl; try exact IH; reflexivity.
Qed.

Lemma written_app d tr ev : written d (tr ++ ev) = written d tr + written d ev.
Proof.
  unfold written. induction tr as [|e tr IH]; simpl; [reflexivity|].
  destruct e; try exact IH.
  destruct (dir_eqb d d0 && is_nil (werr wr)); lia.
Qed.

(** Where an event of an extended trace lies. *)
Lemma split_app {A} (tr ev pre post : list A) e :
  tr ++ ev = pre ++ e :: post ->
  (exists post', tr = pre ++ e :: post' /\ post = post' ++ ev) \/
  (exists pre', pre = tr ++ pre' /\ ev = pre' ++ e :: post).
Proof.
  revert pre. induction tr as [|a tr IH]; intros pre H; simpl in H.
  - right. exists pre. now split.
  - destruct pre as [|b pre]; simpl in H; injection H as -> H.
    + left. exists tr. now subst.
    + destruct (IH pre H) as [(post' & -> & ->) | (pre' & -> & ->)].
      * left. now exists post'.
      * right. now exists pre'.
Qed.

Lemma no_outbound_written tr :
  (forall e, In e tr -> acts Outbound e = false) -> written Outbound tr = 0.
Proof.
  induction tr as [|e tr IH]; intro H; [reflexivity|].
  simpl. rewrite IH by (intros; apply H; now right).
  specialize (H e (or_introl eq_refl)).
  destruct e; try reflexivity. simpl in H. now rewrite H.
Qed.

(** ** Steps of a session *)

(** What a possible step is made of. *)
Lemma step_inv ep s c s' :
  step ep s c = Some s' ->
  crashed s = false /\
  exists st, worker (actor_of c) s = Some st /\
  match c with
  | DoRead d rr =>
      c_pc st = AtRead /\ read_ok ep (closed s) st rr = true /\
      s' = commit d (do_read ep d st rr) s
  | DoSend d =>
      exists k p, sending st = Some (k, p) /\
                  receive p (commit d (after_send st, [EvChan d k p]) s) = Some s'
  | DoCheck d => c_pc st = AtCheck /\ s' = commit d (do_check d st) s
  | DoWrite d wr =>
      c_pc st = AtWrite /\
      match write_request ep st with
      | Some (data, _) => write_ok (closed s) st data wr = true
      | None => True
      end /\
      s' = commit d (do_write ep d st wr) s
  | DoDefer d =>
      c_pc st = AtDefer /\
      s' = close [c_r st; c_w st] (commit d (do_defer d st) s)
  end.
Proof.
  unfold step. destruct (crashed s); [discriminate|].
  destruct (worker (actor_of c) s) as [st|]; [|discriminate].
  intro H. split; [reflexivity|]. exists st. split; [reflexivity|].
  unfold step_worker in H.
  destruct c; destruct (c_pc st) eqn:Hpc; try discriminate.
  - destruct (read_ok ep (closed s) st rr) eqn:Hok; [|discriminate].
    injection H as <-. now repeat split.
  - unfold do_send in H. destruct (sending st) as [[k p]|] eqn:Hs; [|discriminate].
    now exists k, p.
  - unfold do_send in H. destruct (sending st) as [[k p]|] eqn:Hs; [|discriminate].
    now exists k, p.
  - injection H as <-. now split.
  - destruct (write_request ep st) as [[data to]|].
    + destruct (write_ok (closed s) st data wr) eqn:Hok; [|discriminate].
      injection H as <-. now repeat split.
    + injection H as <-. now repeat split.
  - injection H as <-. now split.
Qed.

(** The examination of a unit only moves the [copy]: to its final report,
    to the write, or to a panic. *)
Lemma on_check_shape st :
  exists p logs,
    on_check st = (at_ p st, logs) /\
    (p = AtFinal \/ (p = AtWrite /\ c_err st = None /\ logs = []) \/
     (p = Panicked /\ c_err st = None /\ logs = [])).
Proof.
  unfold on_check. destruct (c_err st) as [e|].
  - eexists _, _. split; [reflexivity|]. now left.
  - destruct (slice (c_buf st) 0 (c_n st - 1)) as [b|].
    + destruct (bytes_eqb b UDPDisconnectSequence);
        eexists _, _; (split; [reflexivity|]); [now left | right; left; tauto].
    + eexists _, _. split; [reflexivity|]. right. right. tauto.
Qed.

Lemma do_check_shape d st :
  exists p ev,
    do_check d st = (at_ p st, ev) /\
    (p = AtFinal \/ (p = AtWrite /\ c_err st = None) \/
     (p = Panicked /\ c_err st = None)) /\
    forall e, In e ev -> (exists l, e = EvLog (Worker d) l) \/ e = EvPanic d.
Proof.
  unfold do_check.
  destruct (on_check_shape st) as (p & logs & -> & Hp).
  eexists _, _. split; [reflexivity|]. split.
  - destruct Hp as [?|[(? & ? & ?)|(? & ? & ?)]]; tauto.
  - intros e He. apply in_app_or in He as [He|He].
    + apply in_map_iff in He as (l & <- & _). left. now exists l.
    + simpl in He. destruct p; simpl in He; try contradiction.
      destruct He as [<-|[]]. now right.
Qed.

(** The write keeps the parameters of the [copy] and leads back to the
    read or on to the final report. *)
Lemma do_write_shape ep d st wr :
  exists st' ev,
    do_write ep d st wr = (st', ev) /\
    c_r st' = c_r st /\ c_w st' = c_w st /\ c_ra st' = c_ra st /\
    (c_pc st' = AtRead \/ c_pc st' = AtFinal \/ c_pc st' = Panicked) /\
    forall e, In e ev ->
      (exists l, e = EvLog (Worker d) l) \/ e = EvPanic d \/
      exists data,
        e = EvWrite d (c_w st)
              (if is_UDPConn ep (c_w st) && is_nil (RemoteAddr ep (c_w st))
               then Some (c_ra st) else None) data wr.
Proof.
  unfold do_write, write_request.
  destruct (slice (c_buf st) 0 (c_n st)) as [data|].
  - unfold on_write. destruct (werr wr) as [e|];
      eexists _, _; (split; [reflexivity|]); cbn; repeat split; auto;
      intros e' [<-|H]; try (right; right; now exists data);
      try contradiction.
    destruct H as [<-|[]]. left. eauto.
  - eexists _, _. split; [reflexivity|]. cbn. repeat split; auto.
    intros e [<-|[]]. right. now left.
Qed.

#[local] Arguments addr_reports : simpl never.
#[local] Arguments first_sender : simpl never.
#[local] Arguments written : simpl never.

Lemma Inv_init ep : is_udp ep = true -> Inv ep (init ep).
Proof.
  intros _. unfold init. destruct ep as [udp [a|]]; cbn.
  - constructor; cbn; try tauto; try discriminate.
    + intros st [= <-]. cbn. repeat split; discriminate.
    + unfold relaying. cbn. repeat split; discriminate.
  - constructor; cbn; try tauto; try discriminate.
    unfold learning. cbn. repeat split.
    + intros e [<-|[]]. reflexivity.
    + left. tauto.
Qed.

Lemma learns_inbound ep st :
  is_udp ep = true -> c_r st = Con ->
  learns ep st = is_nil (remote ep) && is_nil (c_ra st).
Proof. intros Hu Hr. unfold learns. rewrite Hr. cbn. now rewrite Hu. Qed.

Lemma learns_outbound ep st : c_r st = Stdin -> learns ep st = false.
Proof. intros Hr. unfold learns. now rewrite Hr. Qed.

Lemma delivered_on_read ep st rr : delivered (on_read ep st rr) = false.
Proof.
  unfold delivered. rewrite on_read_pc. now destruct (learns ep st).
Qed.


Lemma addr_reports_none ev :
  (forall e, In e ev -> is_report e = false) -> addr_reports ev = [].
Proof.
  induction ev as [|e ev IH]; intro H; [reflexivity|].
  unfold addr_reports in *. simpl. rewrite IH by (intros; apply H; now right).
  specialize (H e (or_introl eq_refl)).
  destruct e as [| | |? [] ?| | | | |]; try reflexivity; discriminate.
Qed.

Lemma first_sender_keep tr ev x :
  first_sender tr = Some x -> first_sender (tr ++ ev) = Some x.
Proof. intro H. now rewrite first_sender_app, H. Qed.

(** The relaying phase goes on while the trace grows without another
    address report and [ra] stays the same. *)
Lemma relaying_ext ep s s' ev :
  relaying ep s ->
  outb s' <> None -> c_pc (inb s') <> AtReport ->
  c_ra (inb s') = o_ra s' -> o_ra s' = o_ra s ->
  trace s' = trace s ++ ev -> addr_reports ev = [] ->
  (remote ep = None -> settled (inb s) -> settled (inb s')) ->
  relaying ep s'.
Proof.
  intros (_ & _ & _ & M) Ho Hp Hra Hora Htr Hev Hset.
  unfold relaying. repeat split; try assumption.
  rewrite Htr, Hora, addr_reports_app, Hev, app_nil_r.
  destruct (remote ep); [exact M|].
  destruct M as (M1 & M2 & M3). repeat split; auto.
  now apply first_sender_keep.
Qed.

Lemma settled_at p st :
  settled st -> c_pc st = AtCheck ->
  (p = AtFinal \/ (p = AtWrite /\ c_err st = None) \/
   (p = Panicked /\ c_err st = None)) ->
  settled (at_ p st).
Proof.
  unfold settled. cbn. intros [H|[(_ & H)|[H|[H|H]]]] Hpc Hp;
    try congruence; [now left|].
  destruct Hp as [->|[(_ & ?)|(_ & ?)]]; try congruence. tauto.
Qed.


Lemma relaying_no_learn ep s :
  relaying ep s -> c_pc (inb s) = AtRead ->
  is_nil (remote ep) && is_nil (c_ra (inb s)) = false.
Proof.
  intros (_ & _ & _ & M) Hpc. destruct (remote ep); [reflexivity|].
  destruct M as (_ & _ & [H|[(H & _)|[H|[H|H]]]]); try congruence.
  now destruct (c_ra (inb s)).
Qed.

Lemma learning_alone ep s st : learning ep s -> outb s = Some st -> False.
Proof. intros (_ & H & _) E. congruence. Qed.


Ltac relay Hphase evs :=
  let Ho := fresh "Ho" in
  let Hnr := fresh "Hnr" in
  let Hra := fresh "Hra" in
  pose proof Hphase as (Ho & Hnr & Hra & _); cbn in Ho, Hnr, Hra;
  eapply relaying_ext with (ev := evs);
  [exact Hphase
  | cbn; try congruence; try assumption; try reflexivity; try discriminate ..].

Lemma Inv_step ep s c s' :
  is_udp ep = true -> Inv ep s -> step ep s c = Some s' -> Inv ep s'.
Proof.
  intros Hudp HI Hs. apply step_inv in Hs as (Hc & st & Hw & H).
  destruct HI as [[Hir Hiw] Hout Hcount Hphase Hclosed].
  destruct s as [op ora ist ost cl cr tr]. cbn in *. subst cr.
  unfold count_delivered in Hcount. cbn in Hcount.
  destruct c as [d rr|d|d|d wr|d]; cbn in Hw.
  - (* read *)
    destruct H as (Hpc & Hok & ->).
    pose proof (on_read_pc ep st rr) as Rpc.
    pose proof (on_read_ra ep st rr) as Rra.
    destruct (on_read_fields ep st rr) as (Rr & Rw & Rb & Rn & Re & Ry).
    assert (Hd : delivered st = false) by (unfold delivered; now rewrite Hpc).
    destruct d; cbn in Hw.
    + injection Hw as <-.
      rewrite (learns_inbound ep ist Hudp Hir) in Rpc, Rra.
      constructor; cbn.
      * split; congruence.
      * exact Hout.
      * unfold count_delivered. cbn. now rewrite delivered_on_read, <- Hcount, Hd.
      * destruct op;
          [|pose proof (relaying_no_learn _ _ Hphase Hpc) as Hnl; cbn in Hnl;
            rewrite Hnl in Rpc, Rra;
            relay Hphase [EvRead Inbound (c_r ist) rr];
            intros _ [X|[(X & _)|[X|[X|X]]]]; cbn in X; try congruence;
            left; cbn; congruence ..].
        destruct Hphase as (Hrem & Hnone & Hrep & Hno & [(A1 & A2 & A3)|(B1 & _)]);
          cbn in *; [|congruence].
        rewrite Hrem, A2 in Rpc, Rra. cbn in Rpc, Rra.
        unfold learning. cbn. repeat split; auto.
        -- now rewrite addr_reports_app, Hrep.
        -- intros e He. apply in_app_or in He as [He|[<-|[]]]; auto.
        -- right. repeat split; auto.
           ++ rewrite first_sender_app, A3, Rra. reflexivity.
           ++ rewrite Rra, Re. intros Hn He.
              unfold read_ok in Hok. rewrite Hir in Hok. cbn in Hok.
              rewrite Hudp, Hn, He in Hok. cbn in Hok.
              now rewrite andb_false_r in Hok.
      * intro HD. rewrite Rpc in HD. now destruct (is_nil (remote ep) && is_nil (c_ra ist)).
    + subst ost. destruct (Hout st eq_refl) as (Or & Ow & Ora & Opc).
      rewrite (learns_outbound ep st Or) in Rpc, Rra.
      constructor; cbn.
      * tauto.
      * intros st' [= <-]. repeat split; congruence.
      * unfold count_delivered. cbn. now rewrite delivered_on_read, <- Hcount, Hd.
      * destruct op; [exfalso; eapply learning_alone; [exact Hphase|reflexivity]|..];
          relay Hphase [EvRead Outbound (c_r st) rr]; auto.
      * exact Hclosed.
  - (* send *)
    destruct H as (k & p & Hsend & Hrecv).
    unfold sending in Hsend. unfold after_send in Hrecv.
    destruct d; cbn in Hw.
    + injection Hw as <-.
      destruct (c_pc ist) eqn:Hpc; try discriminate;
        injection Hsend as <- <-; unfold receive in Hrecv; cbn in Hrecv.
      * (* the address-only report *)
        destruct op; try (destruct Hphase as (_ & X & _); now cbn in X).
        injection Hrecv as <-.
        destruct Hphase as (Hrem & Hnone & Hrep & Hno & [(A1 & _)|(_ & B2 & B3)]);
          cbn in *; [congruence|]. subst ost.
        constructor; cbn.
        -- tauto.
        -- intros st' [= <-]. cbn. repeat split; discriminate.
        -- reflexivity.
        -- unfold relaying. cbn. rewrite Hrem.
           repeat split; try discriminate.
           ++ rewrite !addr_reports_app, Hrep. reflexivity.
           ++ now rewrite <- app_assoc, first_sender_app, B2.
           ++ unfold settled. cbn. destruct (c_ra ist); [left; discriminate|].
              right. left. split; [reflexivity|]. now apply B3.
        -- discriminate.
      * (* the final report *)
        assert (Hd : delivered ist = false) by (unfold delivered; now rewrite Hpc).
        rewrite Hd in Hcount.
        destruct op; try discriminate;
          try (destruct Hphase as (_ & _ & _ & _ & [(X & _)|(X & _)]);
               cbn in X; congruence);
          injection Hrecv as <-; (constructor; cbn;
            [tauto | exact Hout
            | unfold count_delivered; cbn; cbn in Hcount; lia
            | rewrite <- app_assoc;
              match goal with |- relaying _ {| trace := _ ++ ?ev |} =>
                relay Hphase ev end;
              intros; right; right; right; now left
            | discriminate]).
    + subst ost. destruct (Hout st eq_refl) as (Or & Ow & Ora & Opc).
      destruct (c_pc st) eqn:Hpc; try discriminate; try congruence.
      injection Hsend as <- <-; unfold receive in Hrecv; cbn in Hrecv.
      assert (Hd : delivered st = false) by (unfold delivered; now rewrite Hpc).
      rewrite Hd in Hcount.
      destruct op; try discriminate;
        try (exfalso; eapply learning_alone; [exact Hphase|reflexivity]);
        injection Hrecv as <-; (constructor; cbn;
          [tauto | intros st' [= <-]; cbn; repeat split; auto; discriminate
          | unfold count_delivered; cbn; cbn in Hcount; lia
          | rewrite <- app_assoc;
            match goal with |- relaying _ {| trace := _ ++ ?ev |} =>
              relay Hphase ev end; auto
          | exact Hclosed]).
  - (* check *)
    destruct H as (Hpc & ->).
    destruct (do_check_shape d st) as (p & ev & -> & Hp & Hev).
    assert (Hrep : addr_reports ev = []).
    { apply addr_reports_none. intros e He.
      destruct (Hev e He) as [(l & ->)| ->]; reflexivity. }
    assert (Hd : delivered st = false) by (unfold delivered; now rewrite Hpc).
    assert (Hd' : delivered (at_ p st) = false).
    { destruct Hp as [->|[(-> & _)|(-> & _)]]; reflexivity. }
    destruct d; cbn in Hw.
    + injection Hw as <-.
      constructor; cbn.
      * tauto.
      * exact Hout.
      * unfold count_delivered. cbn. now rewrite Hd', <- Hcount, Hd.
      * destruct op;
          [destruct Hphase as (_ & _ & _ & _ & [(X & _)|(X & _)]);
           cbn in X; congruence
          | relay Hphase ev;
            [destruct Hp as [->|[(-> & _)|(-> & _)]]; discriminate
            | intros _ Hs; now apply settled_at] ..].
      * destruct Hp as [->|[(-> & _)|(-> & _)]]; discriminate.
    + subst ost. destruct (Hout st eq_refl) as (Or & Ow & Ora & Opc).
      constructor; cbn.
      * tauto.
      * intros st' [= <-]. cbn. repeat split; auto.
        destruct Hp as [->|[(-> & _)|(-> & _)]]; discriminate.
      * unfold count_delivered. cbn. now rewrite Hd', <- Hcount, Hd.
      * destruct op; [exfalso; eapply learning_alone; [exact Hphase|reflexivity]|..];
          relay Hphase ev; auto.
      * exact Hclosed.
  - (* write *)
    destruct H as (Hpc & _ & ->).
    destruct (do_write_shape ep d st wr)
      as (st' & ev & -> & Wr & Ww & Wra & Wpc & Hev).
    assert (Hrep : addr_reports ev = []).
    { apply addr_reports_none. intros e He.
      destruct (Hev e He) as [(l & ->)|[->|(data & ->)]]; reflexivity. }
    assert (Hd : delivered st = false) by (unfold delivered; now rewrite Hpc).
    assert (Hd' : delivered st' = false).
    { unfold delivered. destruct Wpc as [->|[->| ->]]; reflexivity. }
    destruct d; cbn in Hw.
    + injection Hw as <-.
      constructor; cbn.
      * split; congruence.
      * exact Hout.
      * unfold count_delivered. cbn. now rewrite Hd', <- Hcount, Hd.
      * destruct op;
          [destruct Hphase as (_ & _ & _ & _ & [(X & _)|(X & _)]);
           cbn in X; congruence
          | relay Hphase ev;
            [destruct Wpc as [->|[->| ->]]; discriminate
            | intros _ [X|[(X & _)|[X|[X|X]]]]; cbn in X; try congruence;
              left; congruence] ..].
      * destruct Wpc as [->|[->| ->]]; discriminate.
    + subst ost. destruct (Hout st eq_refl) as (Or & Ow & Ora & Opc).
      constructor; cbn.
      * tauto.
      * intros st'' [= <-]. repeat split; try congruence.
        destruct Wpc as [->|[->| ->]]; discriminate.
      * unfold count_delivered. cbn. now rewrite Hd', <- Hcount, Hd.
      * destruct op; [exfalso; eapply learning_alone; [exact Hphase|reflexivity]|..];
          relay Hphase ev; auto.
      * exact Hclosed.
  - (* deferred closes *)
    destruct H as (Hpc & ->).
    assert (Hd : delivered st = true) by (unfold delivered; now rewrite Hpc).
    destruct d; cbn in Hw.
    + injection Hw as <-.
      constructor; cbn.
      * tauto.
      * exact Hout.
      * unfold count_delivered. cbn. now rewrite <- Hcount, Hd.
      * destruct op;
          [destruct Hphase as (_ & _ & _ & _ & [(X & _)|(X & _)]);
           cbn in X; congruence
          | relay Hphase [EvClose Inbound (c_r ist); EvClose Inbound (c_w ist)];
            intros; right; right; right; now right ..].
      * intros _. rewrite Hir. unfold is_closed. rewrite existsb_app. cbn.
        now rewrite orb_true_r.
    + subst ost. destruct (Hout st eq_refl) as (Or & Ow & Ora & Opc).
      constructor; cbn.
      * tauto.
      * intros st'' [= <-]. cbn. repeat split; auto. discriminate.
      * unfold count_delivered. cbn. now rewrite <- Hcount, Hd.
      * destruct op; [exfalso; eapply learning_alone; [exact Hphase|reflexivity]|..];
          relay Hphase [EvClose Outbound (c_r st); EvClose Outbound (c_w st)]; auto.
      * intro HD. unfold is_closed. rewrite existsb_app.
        apply orb_true_iff. left. now apply Hclosed.
Qed.

Lemma Inv_run_from ep sched : forall s s',
  is_udp ep = true -> Inv ep s -> run_from ep s sched = Some s' -> Inv ep s'.
Proof.
  induction sched as [|c sched IH]; intros s s' Hu HI H; cbn in H.
  - now injection H as <-.
  - destruct (step ep s c) as [s1|] eqn:Hs; [|discriminate].
    exact (IH s1 s' Hu (Inv_step ep s c s1 Hu HI Hs) H).
Qed.

Lemma Inv_run ep sched s :
  is_udp ep = true -> run ep sched = Some s -> Inv ep s.
Proof. intros Hu H. exact (Inv_run_from ep sched _ s Hu (Inv_init ep Hu) H). Qed.

(** ** The byte counts *)

Lemma uint64_add a b : uint64 (uint64 a + b) = uint64 (a + b).
Proof. unfold uint64. now rewrite Zplus_mod_idemp_l. Qed.

Lemma uint64_add_r a b : uint64 (a + uint64 b) = uint64 (a + b).
Proof. unfold uint64. now rewrite Zplus_mod_idemp_r. Qed.

Lemma quiet_written d ev :
  (forall e, In e ev -> counts d e = false) -> written d ev = 0.
Proof.
  induction ev as [|e ev IH]; intro H; [reflexivity|].
  change (e :: ev) with ([e] ++ ev). rewrite written_app.
  rewrite IH by (intros; apply H; now right).
  specialize (H e (or_introl eq_refl)).
  destruct e; try reflexivity. unfold written. cbn in *. now rewrite H.
Qed.

Lemma quiet_final d ev p :
  (forall e, In e ev -> counts d e = false) ->
  ~ In (EvChan d FinalCount p) ev.
Proof.
  intros H Hin. specialize (H _ Hin). cbn in H. now destruct d.
Qed.

Lemma acts_counts d e : acts d e = false -> counts d e = false.
Proof. destruct e as [| | |? [] ?| | | | |]; cbn; auto. Qed.

(** The general step of the count. *)
Lemma bytes_update d st st' tr ev :
  accounted d st tr ->
  c_bytes st' = uint64 (c_bytes st + written d ev) ->
  0 <= written d ev ->
  (delivered st = true -> delivered st' = true /\ c_bytes st' = c_bytes st) ->
  (forall p, In (EvChan d FinalCount p) ev ->
             delivered st' = true /\ bytes p = c_bytes st') ->
  accounted d st' (tr ++ ev).
Proof.
  intros (H1 & H2 & H3) P1 P2 P3 P4. unfold accounted.
  rewrite written_app. repeat split.
  - now rewrite P1, H1, uint64_add.
  - lia.
  - apply in_app_or in H as [H|H].
    + now apply P3, H3 with p.
    + exact (proj1 (P4 p H)).
  - apply in_app_or in H as [H|H].
    + destruct (H3 p H) as [Hd Hb]. destruct (P3 Hd) as [_ E]. congruence.
    + exact (proj2 (P4 p H)).
Qed.

Lemma bytes_quiet d st st' tr ev :
  accounted d st tr ->
  c_bytes st' = c_bytes st ->
  (delivered st = true -> delivered st' = true) ->
  (forall e, In e ev -> counts d e = false) ->
  accounted d st' (tr ++ ev).
Proof.
  intros HA Hb Hd Hq. apply bytes_update with st; auto.
  - rewrite (quiet_written d ev Hq), Z.add_0_r, Hb.
    destruct HA as (-> & _). unfold uint64. now rewrite Zmod_mod.
  - rewrite (quiet_written d ev Hq). lia.
  - intros p Hp. now apply quiet_final in Hp.
Qed.

Lemma bytes_fresh d st tr :
  (forall e, In e tr -> counts d e = false) -> c_bytes st = 0 ->
  accounted d st tr.
Proof.
  intros Hq Hb. unfold accounted. rewrite (quiet_written d tr Hq), Hb.
  repeat split; try reflexivity.
  - now apply quiet_final in H.
  - now apply quiet_final in H.
Qed.

Lemma dir_cases d d' : d' = d \/ d' = other d.
Proof. destruct d, d'; auto. Qed.

Lemma acts_other_self d : dir_eqb (other d) d = false.
Proof. now destruct d. Qed.

(** A step of worker [d] that leaves the orchestrator where it is. *)
Lemma bytes_local d st st' ev s s' :
  Inv_bytes s -> worker d s = Some st ->
  (o_pc s' = OWaitAddr -> o_pc s = OWaitAddr) -> worker d s' = Some st' ->
  worker (other d) s' = worker (other d) s ->
  trace s' = trace s ++ ev ->
  (forall e, In e ev -> acts (other d) e = false) ->
  accounted d st' (trace s ++ ev) ->
  Inv_bytes s'.
Proof.
  intros [Ha Hb] Hw Ho Hw' Hoth Htr Hev Hacc. split.
  - intro E. specialize (Ha (Ho E)).
    destruct d; cbn in *; congruence.
  - intro d'. destruct (dir_cases d d') as [-> | ->].
    + rewrite Hw', Htr. exact Hacc.
    + rewrite Hoth, Htr. specialize (Hb (other d)).
      destruct (worker (other d) s) as [st2|].
      * apply bytes_quiet with st2; auto.
        intros e He. now apply acts_counts, Hev.
      * intros e He. apply in_app_or in He as [He|He]; auto.
Qed.

Lemma commit_facts d st' ev s :
  o_pc (commit d (st', ev) s) = o_pc s /\
  o_ra (commit d (st', ev) s) = o_ra s /\
  closed (commit d (st', ev) s) = closed s /\
  trace (commit d (st', ev) s) = trace s ++ ev /\
  worker d (commit d (st', ev) s) = Some st' /\
  worker (other d) (commit d (st', ev) s) = worker (other d) s.
Proof. destruct d; cbn; tauto. Qed.

Lemma sending_inv st k p :
  sending st = Some (k, p) ->
  (c_pc st = AtReport /\ k = AddressOnly /\ p = addr_report st /\
   after_send st = at_ AtCheck st) \/
  (c_pc st = AtFinal /\ k = FinalCount /\ p = final_report st /\
   after_send st = at_ AtDefer st).
Proof.
  unfold sending, after_send. destruct (c_pc st); try discriminate;
    intros [= <- <-]; tauto.
Qed.

(** The count of the sender over a channel send and the log lines [evo] of
    the orchestrator that follow it. *)
Lemma bytes_send d st k p tr evo :
  accounted d st tr -> sending st = Some (k, p) ->
  (forall e, In e evo -> acts d e = false) ->
  accounted d (after_send st) (tr ++ EvChan d k p :: evo).
Proof.
  intros HA Hs Hevo.
  assert (Hq : forall e, In e evo -> counts d e = false)
    by (intros; now apply acts_counts, Hevo).
  destruct (sending_inv st k p Hs) as [(Hpc & -> & -> & ->)|(Hpc & -> & -> & ->)].
  - apply bytes_quiet with st; auto.
    + unfold delivered at 1. now rewrite Hpc.
    + intros e [<-|He]; auto.
  - assert (Hw : written d (EvChan d FinalCount (final_report st) :: evo) = 0).
    { change (written d ([EvChan d FinalCount (final_report st)] ++ evo) = 0).
      rewrite written_app, (quiet_written d evo Hq). reflexivity. }
    apply bytes_update with st; auto.
    + rewrite Hw, Z.add_0_r. cbn. destruct HA as (-> & _).
      unfold uint64. now rewrite Zmod_mod.
    + rewrite Hw. lia.
    + intros p [[= <-]|Hp]; [now split|]. now apply quiet_final in Hp.
Qed.

Lemma step_bytes ep s c s' :
  Inv_bytes s -> step ep s c = Some s' -> Inv_bytes s'.
Proof.
  intros HI Hs. apply step_inv in Hs as (Hc & st & Hw & H).
  pose proof HI as [Ha Hb]. pose proof (Hb (actor_of c)) as HA.
  rewrite Hw in HA.
  destruct c as [d rr|d|d|d wr|d]; cbn [actor_of] in *.
  - destruct H as (Hpc & Hok & ->). unfold do_read.
    destruct (commit_facts d (on_read ep st rr) [EvRead d (c_r st) rr] s)
      as (F1 & F2 & F3 & F4 & F5 & F6).
    eapply bytes_local; eauto; try congruence.
    + intros e [<-|[]]. cbn. apply acts_other_self.
    + apply bytes_quiet with st; auto.
      * apply on_read_fields.
      * unfold delivered. now rewrite Hpc.
      * intros e [<-|[]]. reflexivity.
  - (* send *)
    destruct H as (k & p & Hsend & Hrecv).
    destruct (commit_facts d (after_send st) [EvChan d k p] s)
      as (F1 & F2 & F3 & F4 & F5 & F6).
    set (s1 := commit d (after_send st, [EvChan d k p]) s) in *.
    clearbody s1.
    unfold receive in Hrecv. rewrite F1 in Hrecv.
    destruct (o_pc s) eqn:Hop; try discriminate; injection Hrecv as <-.
    + (* the orchestrator learns the address and starts the outbound copy *)
      specialize (Ha eq_refl).
      destruct d; cbn in Hw; [injection Hw as <-|congruence].
      pose proof (Hb Outbound) as Hn. cbn in Hn. rewrite Ha in Hn.
      cbn in F5, F6. injection F5 as F5.
      split; [discriminate|]. intros [|]; cbn; rewrite F4.
      * rewrite F5, <- app_assoc. apply bytes_send; auto.
        intros e [<-|[<-|[]]]; reflexivity.
      * apply bytes_fresh; [|reflexivity].
        intros e He. rewrite <- app_assoc in He.
        apply in_app_or in He as [He|[<-|[<-|[<-|[]]]]]; try reflexivity.
        -- now apply acts_counts, Hn.
        -- now destruct k.
    + rewrite F2, F4.
      eapply bytes_local with (d := d) (st' := after_send st)
        (ev := [EvChan d k p; EvLog Orchestrator (LogReceived (o_ra s) (bytes p))]);
        [exact HI | exact Hw | discriminate
        | rewrite <- F5; now destruct d | rewrite <- F6; now destruct d
        | cbn; now rewrite <- app_assoc | | ].
      * intros e [<-|[<-|[]]]; cbn; auto using acts_other_self.
      * apply bytes_send; auto. intros e [<-|[]]. reflexivity.
    + rewrite F2, F4.
      eapply bytes_local with (d := d) (st' := after_send st)
        (ev := [EvChan d k p; EvLog Orchestrator (LogSent (o_ra s) (bytes p));
                EvReturn]);
        [exact HI | exact Hw | discriminate
        | rewrite <- F5; now destruct d | rewrite <- F6; now destruct d
        | cbn; now rewrite <- app_assoc | | ].
      * intros e [<-|[<-|[<-|[]]]]; cbn; auto using acts_other_self.
      * apply bytes_send; auto. intros e [<-|[<-|[]]]; reflexivity.
  - (* check *)
    destruct H as (Hpc & ->).
    destruct (do_check_shape d st) as (p & ev & -> & Hp & Hev).
    destruct (commit_facts d (at_ p st) ev s) as (F1 & F2 & F3 & F4 & F5 & F6).
    eapply bytes_local; eauto; try congruence.
    + intros e He. destruct (Hev e He) as [(l & ->)| ->]; cbn;
        apply acts_other_self.
    + apply bytes_quiet with st; auto.
      * unfold delivered at 1. now rewrite Hpc.
      * intros e He. destruct (Hev e He) as [(l & ->)| ->]; reflexivity.
  - (* write *)
    destruct H as (Hpc & Hok & ->).
    assert (Hd : delivered st = false) by (unfold delivered; now rewrite Hpc).
    unfold do_write in *.
    destruct (write_request ep st) as [[data to]|].
    + unfold write_ok in Hok.
      apply andb_true_iff in Hok as [Hok _].
      apply andb_true_iff in Hok as [Hn _]. apply Z.leb_le in Hn.
      unfold on_write. destruct (werr wr) as [e|] eqn:He.
      * match goal with |- Inv_bytes (commit d (?x, ?y) s) =>
          destruct (commit_facts d x y s) as (F1 & F2 & F3 & F4 & F5 & F6) end.
        eapply bytes_local; eauto; try congruence.
        -- intros e' [<-|[<-|[]]]; cbn; apply acts_other_self.
        -- cbn [map].
           assert (W : written d [EvWrite d (c_w st) to data wr;
                                   EvLog (Worker d) (LogError (c_ra st) e)] = 0).
           { unfold written. cbn. rewrite He. cbn. now rewrite andb_false_r. }
           apply bytes_update with st; auto; rewrite ?W.
           ++ cbn. rewrite Z.add_0_r. destruct HA as (-> & _).
              unfold uint64. now rewrite Zmod_mod.
           ++ lia.
           ++ congruence.
           ++ intros p [X|[X|[]]]; discriminate.
      * match goal with |- Inv_bytes (commit d (?x, ?y) s) =>
          destruct (commit_facts d x y s) as (F1 & F2 & F3 & F4 & F5 & F6) end.
        eapply bytes_local; eauto; try congruence.
        -- intros e' [<-|[]]; cbn; apply acts_other_self.
        -- cbn [map].
           assert (W : written d [EvWrite d (c_w st) to data wr] = wn wr).
           { unfold written. cbn. rewrite He.
             replace (dir_eqb d d) with true by now destruct d.
             cbn. lia. }
           apply bytes_update with st; auto; rewrite ?W;
             try lia; try congruence;
             try (intros p [X|[]]; discriminate).
           cbn. apply uint64_add_r.
    + destruct (commit_facts d (at_ Panicked st) [EvPanic d] s)
        as (F1 & F2 & F3 & F4 & F5 & F6).
      eapply bytes_local; eauto; try congruence.
      * intros e [<-|[]]. cbn. apply acts_other_self.
      * apply bytes_quiet with st; auto; [congruence|].
        intros e [<-|[]]. reflexivity.
  - (* deferred closes *)
    destruct H as (Hpc & ->). unfold do_defer.
    destruct (commit_facts d (at_ Done st)
                [EvClose d (c_r st); EvClose d (c_w st)] s)
      as (F1 & F2 & F3 & F4 & F5 & F6).
    eapply bytes_local with (d := d) (st' := at_ Done st)
      (ev := [EvClose d (c_r st); EvClose d (c_w st)]);
      [exact HI | exact Hw | intro E; rewrite <- F1; exact E
      | exact F5 | exact F6 | exact F4 | | ].
    + intros e [<-|[<-|[]]]; cbn; apply acts_other_self.
    + apply bytes_quiet with st; auto.
      intros e [<-|[<-|[]]]; reflexivity.
Qed.

Lemma bytes_init ep : Inv_bytes (init ep).
Proof.
  unfold init. destruct (is_nil (RemoteAddr ep Con)); split; cbn;
    try discriminate; try reflexivity; intros [|]; cbn;
    try (apply bytes_fresh; [|reflexivity]);
    intros e He; repeat (destruct He as [<-|He]; [reflexivity|]);
    destruct He.
Qed.

Lemma bytes_run_from ep sched : forall s s',
  Inv_bytes s -> run_from ep s sched = Some s' -> Inv_bytes s'.
Proof.
  induction sched as [|c sched IH]; intros s s' HI H; cbn in H.
  - now injection H as <-.
  - destruct (step ep s c) as [s1|] eqn:Hs; [|discriminate].
    exact (IH s1 s' (step_bytes ep s c s1 HI Hs) H).
Qed.

(** ** The order of events in a listening session *)

Lemma relaying_outbound ep s st :
  Inv ep s -> remote ep = None -> outb s = Some st ->
  addr_reports (trace s) = [o_ra s] /\ c_w st = Con /\ c_ra st = o_ra s /\
  c_pc st <> AtReport /\ c_pc (inb s) <> AtReport /\ o_pc s <> OWaitAddr.
Proof.
  intros [_ Hout _ Hphase _] Hrem Ho.
  destruct (Hout st Ho) as (_ & Hw & Hra & Hpc).
  destruct (o_pc s);
    [exfalso; eapply learning_alone; eauto | ..];
    destruct Hphase as (_ & Hnr & _ & M); rewrite Hrem in M;
    repeat split; try tauto; discriminate.
Qed.

Lemma order_ext s s' ev :
  Inv_order s -> trace s' = trace s ++ ev -> o_ra s' = o_ra s ->
  (forall e, In e ev -> is_report e = false) ->
  (forall e, In e ev -> acts Outbound e = true ->
             addr_reports (trace s) = [o_ra s] /\ uses (o_ra s) e) ->
  Inv_order s'.
Proof.
  intros [HF HO] Htr Hra Hrep Hout. split.
  { intros e He. rewrite Htr in He. apply in_app_or in He as [He|He]; auto.
    specialize (Hrep e He).
    destruct e as [| | |? [] ?| | | | |]; cbn; auto. discriminate. }
  intros pre e post Hsplit Hact.
  rewrite Hra. rewrite Htr in Hsplit.
  apply split_app in Hsplit as [(post' & E & _)|(pre' & -> & E)].
  - now apply (HO pre e post').
  - assert (He : In e ev) by (rewrite E; apply in_elt).
    destruct (Hout e He Hact) as [H1 H2]. split; [|exact H2].
    rewrite addr_reports_app, H1, addr_reports_none; [reflexivity|].
    intros x Hx. apply Hrep. rewrite E. apply in_or_app. now left.
Qed.

Lemma dir_eqb_eq a b : dir_eqb a b = true -> a = b.
Proof. now destruct a, b. Qed.

Lemma step_order ep s c s' :
  is_udp ep = true -> remote ep = None ->
  Inv ep s -> Inv_order s -> step ep s c = Some s' -> Inv_order s'.
Proof.
  intros Hudp Hrem HI HO Hs. apply step_inv in Hs as (Hc & st & Hw & H).
  assert (Hin : forall d', dir_eqb Outbound d' = true -> d' = actor_of c ->
                  addr_reports (trace s) = [o_ra s] /\ c_w st = Con /\
                  c_ra st = o_ra s /\ c_pc st <> AtReport).
  { intros d' H1 H2. apply dir_eqb_eq in H1. subst d'. rewrite <- H2 in Hw.
    pose proof (relaying_outbound ep s st HI Hrem Hw). tauto. }
  destruct c as [d rr|d|d|d wr|d]; cbn [actor_of] in *.
  - destruct H as (Hpc & Hok & ->). unfold do_read.
    destruct (commit_facts d (on_read ep st rr) [EvRead d (c_r st) rr] s)
      as (F1 & F2 & F3 & F4 & F5 & F6).
    eapply order_ext; eauto.
    + intros e [<-|[]]. reflexivity.
    + intros e [<-|[]] Ha. destruct (Hin d Ha eq_refl) as (? & _). now split.
  - (* send *)
    destruct H as (k & p & Hsend & Hrecv).
    destruct (commit_facts d (after_send st) [EvChan d k p] s)
      as (F1 & F2 & F3 & F4 & F5 & F6).
    set (s1 := commit d (after_send st, [EvChan d k p]) s) in *.
    clearbody s1.
    unfold receive in Hrecv. rewrite F1 in Hrecv.
    destruct (o_pc s) eqn:Hop; try discriminate; injection Hrecv as <-.
    + (* the address is learned *)
      pose proof (inv_phase ep s HI) as Hph. rewrite Hop in Hph.
      destruct Hph as (_ & Hnone & Hrep & Hno & Hpc).
      destruct d; cbn in Hw; [injection Hw as <-|congruence].
      assert (Hk : k = AddressOnly /\ p = addr_report (inb s)).
      { destruct (sending_inv _ _ _ Hsend) as [(_ & -> & -> & _)|(X & _)];
          [tauto|]. destruct Hpc as [(Y & _)|(Y & _)]; congruence. }
      destruct Hk as [-> ->]. destruct HO as [HF HO]. split.
      { cbn. rewrite F4, <- app_assoc. intros e He.
        apply in_app_or in He as [He|[<-|[<-|[<-|[]]]]]; cbn; auto. }
      intros pre e post Hsplit Hact. cbn in Hsplit |- *.
      rewrite F4, <- app_assoc in Hsplit.
      apply split_app in Hsplit as [(post' & E & _)|(pre' & -> & E)].
      * rewrite Hno in Hact; [discriminate|]. rewrite E. apply in_elt.
      * destruct pre' as [|x [|y [|z pre']]]; cbn in E;
          inversion E; subst; try discriminate.
        -- rewrite addr_reports_app, Hrep. now split.
        -- now destruct pre'.
    + assert (Hk : k = FinalCount).
      { destruct (sending_inv _ _ _ Hsend) as [(X & _)|(_ & -> & _)];
          [|reflexivity].
        exfalso. pose proof (inv_phase ep s HI) as Hph. rewrite Hop in Hph.
        destruct Hph as (_ & Hnr & _).
        destruct d; cbn in Hw; [injection Hw as <-; congruence|].
        destruct (inv_out ep s HI st Hw) as (_ & _ & _ & Y). congruence. }
      subst k.
      eapply order_ext with (s := s)
        (ev := [EvChan d FinalCount p;
                EvLog Orchestrator (LogReceived (o_ra s) (bytes p))]);
        [exact HO | cbn; now rewrite F2, F4, <- app_assoc | cbn; exact F2 | | ].
      * intros e [<-|[<-|[]]]; reflexivity.
      * intros e [<-|[<-|[]]] Ha; try discriminate.
        destruct (Hin d Ha eq_refl) as (? & _). now split.
    + assert (Hk : k = FinalCount).
      { destruct (sending_inv _ _ _ Hsend) as [(X & _)|(_ & -> & _)];
          [|reflexivity].
        exfalso. pose proof (inv_phase ep s HI) as Hph. rewrite Hop in Hph.
        destruct Hph as (_ & Hnr & _).
        destruct d; cbn in Hw; [injection Hw as <-; congruence|].
        destruct (inv_out ep s HI st Hw) as (_ & _ & _ & Y). congruence. }
      subst k.
      eapply order_ext with (s := s)
        (ev := [EvChan d FinalCount p;
                EvLog Orchestrator (LogSent (o_ra s) (bytes p)); EvReturn]);
        [exact HO | cbn; now rewrite F2, F4, <- app_assoc | cbn; exact F2 | | ].
      * intros e [<-|[<-|[<-|[]]]]; reflexivity.
      * intros e [<-|[<-|[<-|[]]]] Ha; try discriminate.
        destruct (Hin d Ha eq_refl) as (? & _). now split.
  - (* check *)
    destruct H as (Hpc & ->).
    destruct (do_check_shape d st) as (p & ev & -> & Hp & Hev).
    destruct (commit_facts d (at_ p st) ev s) as (F1 & F2 & F3 & F4 & F5 & F6).
    eapply order_ext; eauto.
    + intros e He. destruct (Hev e He) as [(l & ->)| ->]; reflexivity.
    + intros e He Ha.
      destruct (Hev e He) as [(l & ->)| ->];
        destruct (Hin d Ha eq_refl) as (? & _); now split.
  - (* write *)
    destruct H as (Hpc & _ & ->).
    destruct (do_write_shape ep d st wr)
      as (st' & ev & -> & Wr & Ww & Wra & Wpc & Hev).
    destruct (commit_facts d st' ev s) as (F1 & F2 & F3 & F4 & F5 & F6).
    eapply order_ext; eauto.
    + intros e He.
      destruct (Hev e He) as [(l & ->)|[->|(data & ->)]]; reflexivity.
    + intros e He Ha.
      destruct (Hev e He) as [(l & ->)|[->|(data & ->)]];
        destruct (Hin d Ha eq_refl) as (R1 & R2 & R3 & _);
        (split; [exact R1|]); cbn; auto.
      rewrite R2. cbn. rewrite Hudp, Hrem, R3. now split.
  - (* deferred closes *)
    destruct H as (Hpc & ->). unfold do_defer.
    destruct (commit_facts d (at_ Done st)
                [EvClose d (c_r st); EvClose d (c_w st)] s)
      as (F1 & F2 & F3 & F4 & F5 & F6).
    eapply order_ext with (s := s)
      (ev := [EvClose d (c_r st); EvClose d (c_w st)]);
      [exact HO | exact F4 | exact F2 | | ].
    + intros e [<-|[<-|[]]]; reflexivity.
    + intros e [<-|[<-|[]]] Ha;
        destruct (Hin d Ha eq_refl) as (? & _); now split.
Qed.

Lemma order_init ep : remote ep = None -> Inv_order (init ep).
Proof.
  intros Hrem. unfold Inv_order, init. cbn. rewrite Hrem. cbn. split.
  - intros e [<-|[]]. exact I.
  - intros pre e post H Ha.
    destruct pre as [|x [|y pre]]; inversion H; subst; discriminate.
Qed.

Lemma order_run_from ep sched : forall s s',
  is_udp ep = true -> remote ep = None ->
  Inv ep s -> Inv_order s -> run_from ep s sched = Some s' -> Inv_order s'.
Proof.
  induction sched as [|c sched IH]; intros s s' Hu Hr HI HO H; cbn in H.
  - now injection H as <-.
  - destruct (step ep s c) as [s1|] eqn:Hs; [|discriminate].
    exact (IH s1 s' Hu Hr (Inv_step ep s c s1 Hu HI Hs)
              (step_order ep s c s1 Hu Hr HI HO Hs) H).
Qed.

(** ** Stream sessions *)

Lemma streams_copied_app d tr ev :
  Streams.copied d (tr ++ ev) = Streams.copied d tr + Streams.copied d ev.
Proof.
  unfold Streams.copied. induction tr as [|e tr IH]; simpl; [reflexivity|].
  destruct e; try exact IH. destruct (dir_eqb d d0); lia.
Qed.

Lemma streams_init : Streams.Inv Streams.init.
Proof.
  split; [reflexivity|].
  intros [|]; cbn; (repeat split; try reflexivity; try lia);
    repeat match goal with
           | H : In _ (_ :: _) |- _ => destruct H as [H|H]
           | H : In _ [] |- _ => destruct H
           end; discriminate.
Qed.

#[local] Arguments Streams.copied : simpl never.

Lemma streams_quiet d ev :
  (forall e, In e ev -> Streams.counts d e = false) ->
  Streams.copied d ev = 0 /\ forall p, ~ In (EvChan d FinalCount p) ev.
Proof.
  intro H. split.
  - induction ev as [|e ev IH]; [reflexivity|].
    change (e :: ev) with ([e] ++ ev). rewrite streams_copied_app.
    rewrite IH by (intros; apply H; now right).
    specialize (H e (or_introl eq_refl)).
    destruct e; try reflexivity. unfold Streams.copied. cbn in *. now rewrite H.
  - intros p Hin. specialize (H _ Hin). cbn in H. now destruct d.
Qed.

Lemma streams_frame d st tr ev :
  Streams.accounted d st tr ->
  (forall e, In e ev -> Streams.counts d e = false) ->
  Streams.accounted d st (tr ++ ev).
Proof.
  intros (H1 & H2 & H3 & H4) Hq. destruct (streams_quiet d ev Hq) as [Q1 Q2].
  unfold Streams.accounted. rewrite streams_copied_app, Q1, Z.add_0_r.
  repeat split; try tauto; try lia;
    (apply in_app_or in H as [H|H];
     [destruct (H4 _ H); assumption | now apply Q2 in H]).
Qed.

Lemma streams_commit_facts d st' ev s :
  Streams.o_pc (Streams.commit d (st', ev) s) = Streams.o_pc s /\
  Streams.trace (Streams.commit d (st', ev) s) = Streams.trace s ++ ev /\
  Streams.worker d (Streams.commit d (st', ev) s) = st' /\
  Streams.worker (other d) (Streams.commit d (st', ev) s)
  = Streams.worker (other d) s.
Proof. destruct d; cbn; tauto. Qed.

Lemma streams_count d s :
  Streams.count_delivered s =
  ((if Streams.delivered (Streams.worker d s) then 1 else 0) +
   (if Streams.delivered (Streams.worker (other d) s) then 1 else 0))%nat.
Proof. unfold Streams.count_delivered. destruct d; cbn; lia. Qed.

(** A step of worker [d] and what the orchestrator logs after it. *)
Lemma streams_local d st' ev s s' k :
  Streams.Inv s ->
  Streams.worker d s' = st' ->
  Streams.worker (other d) s' = Streams.worker (other d) s ->
  Streams.trace s' = Streams.trace s ++ ev ->
  (forall e, In e ev -> Streams.counts (other d) e = false) ->
  Streams.accounted d st' (Streams.trace s ++ ev) ->
  ((if Streams.delivered st' then 1 else 0)
   = k + (if Streams.delivered (Streams.worker d s) then 1 else 0))%nat ->
  Streams.taken (Streams.o_pc s') = (k + Streams.taken (Streams.o_pc s))%nat ->
  Streams.Inv s'.
Proof.
  intros [Hcount Hacc] Hw Hoth Htr Hev Hown Hk Hop. split.
  - rewrite (streams_count d s') , Hw, Hoth, Hk, Hop, <- Hcount.
    rewrite (streams_count d s). lia.
  - intro d'. destruct (dir_cases d d') as [-> | ->].
    + now rewrite Hw, Htr.
    + rewrite Hoth, Htr. now apply streams_frame.
Qed.

Lemma some_eq {A} (x y : A) : Some x = Some y -> x = y.
Proof. now intros [= ->]. Qed.

Lemma streams_step ep s c s' :
  Streams.Inv s -> Streams.step ep s c = Some s' -> Streams.Inv s'.
Proof.
  intros HI Hs. pose proof HI as [Hcount Hacc].
  destruct c as [d n err|d|d]; unfold Streams.step in Hs;
    pose proof (Hacc d) as (A1 & A2 & A3 & A4);
    destruct (Streams.c_pc (Streams.worker d s)) eqn:Hpc; try discriminate.
  - (* io.Copy returns *)
    destruct (Streams.copy_ok n err) eqn:Hok; [|discriminate].
    apply some_eq in Hs. subst s'. unfold Streams.do_copy.
    match goal with |- Streams.Inv (Streams.commit d (?x, ?y) s) =>
      destruct (streams_commit_facts d x y s) as (F1 & F2 & F3 & F4) end.
    unfold Streams.copy_ok in Hok.
    apply andb_true_iff in Hok as [Hok _].
    apply andb_true_iff in Hok as [Hlo Hhi].
    apply Z.leb_le in Hlo. apply Z.ltb_lt in Hhi.
    eapply streams_local with (d := d) (k := 0%nat); eauto.
    + intros e [<-|He]; [cbn; apply acts_other_self|].
      destruct err; cbn in He; [destruct He as [<-|[]]; reflexivity|destruct He].
    + unfold Streams.accounted. cbn [Streams.c_n Streams.c_pc].
      rewrite streams_copied_app, <- A1, (A3 eq_refl).
      repeat split; try lia; try discriminate.
      * unfold Streams.copied. cbn.
        replace (dir_eqb d d) with true by now destruct d.
        destruct err; cbn; lia.
      * apply in_app_or in H as [H|H].
        -- destruct (A4 p H) as [X _]. unfold Streams.delivered in X.
           now rewrite Hpc in X.
        -- destruct err; repeat (destruct H as [H|H]; [discriminate|]);
             destruct H.
      * apply in_app_or in H as [H|H].
        -- destruct (A4 p H) as [X _]. unfold Streams.delivered in X.
           now rewrite Hpc in X.
        -- destruct err; repeat (destruct H as [H|H]; [discriminate|]);
             destruct H.
    + unfold Streams.delivered. now rewrite Hpc.
    + now rewrite F1.
  - (* send *)
    unfold Streams.do_send in Hs.
    match type of Hs with context [Streams.commit d (?x, ?y) s] =>
      destruct (streams_commit_facts d x y s) as (F1 & F2 & F3 & F4);
      set (s1 := Streams.commit d (x, y) s) in *; clearbody s1 end.
    assert (Hown : forall evo,
      (forall e, In e evo -> Streams.counts d e = false) ->
      Streams.accounted d
        (Streams.mkLocals (Streams.c_r (Streams.worker d s))
           (Streams.c_w (Streams.worker d s))
           (Streams.c_n (Streams.worker d s)) Streams.AtDefer)
        (Streams.trace s ++
         EvChan d FinalCount (Streams.final_report (Streams.worker d s)) :: evo)).
    { intros evo Hq. destruct (streams_quiet d evo Hq) as [Q1 Q2].
      unfold Streams.accounted. cbn [Streams.c_n Streams.c_pc].
      rewrite streams_copied_app.
      change (EvChan d FinalCount (Streams.final_report (Streams.worker d s)) :: evo)
        with ([EvChan d FinalCount (Streams.final_report (Streams.worker d s))] ++ evo).
      rewrite streams_copied_app, Q1.
      change (Streams.copied d
                [EvChan d FinalCount (Streams.final_report (Streams.worker d s))])
        with 0.
      repeat split; try tauto; try lia; try discriminate.
      apply in_app_or in H as [H|[[= <-]|H]]; [|reflexivity|now apply Q2 in H].
        destruct (A4 p H) as [_ X]. exact X. }
    unfold Streams.receive in Hs. rewrite F1 in Hs.
    destruct (Streams.o_pc s) eqn:Hop; try discriminate;
      apply some_eq in Hs; subst s'.
    + eapply streams_local with (d := d) (k := 1%nat)
        (ev := [EvChan d FinalCount (Streams.final_report (Streams.worker d s));
                EvLog Orchestrator
                  (LogClosedByPeer (RemoteAddr ep Con)
                     (bytes (Streams.final_report (Streams.worker d s))))]);
        [exact HI
        | transitivity (Streams.worker d s1); [now destruct d | exact F3]
        | rewrite <- F4; now destruct d
        | cbn; now rewrite F2, <- app_assoc | | | | ].
      * intros e [<-|[<-|[]]]; cbn; auto using acts_other_self.
      * apply Hown. intros e [<-|[]]. reflexivity.
      * unfold Streams.delivered. cbn. now rewrite Hpc.
      * cbn. now rewrite Hop.
    + eapply streams_local with (d := d) (k := 1%nat)
        (ev := [EvChan d FinalCount (Streams.final_report (Streams.worker d s));
                EvLog Orchestrator
                  (LogSent (RemoteAddr ep Con)
                     (bytes (Streams.final_report (Streams.worker d s))));
                EvReturn]);
        [exact HI
        | transitivity (Streams.worker d s1); [now destruct d | exact F3]
        | rewrite <- F4; now destruct d
        | cbn; now rewrite F2, <- app_assoc | | | | ].
      * intros e [<-|[<-|[<-|[]]]]; cbn; auto using acts_other_self.
      * apply Hown. intros e [<-|[<-|[]]]; reflexivity.
      * unfold Streams.delivered. cbn. now rewrite Hpc.
      * cbn. now rewrite Hop.
  - (* deferred closes *)
    apply some_eq in Hs. subst s'. unfold Streams.do_defer.
    match goal with |- context [Streams.commit d (?x, ?y) s] =>
      destruct (streams_commit_facts d x y s) as (F1 & F2 & F3 & F4) end.
    eapply streams_local with (d := d) (k := 0%nat);
      [exact HI | exact F3 | exact F4 | exact F2 | | | | ].
    + intros e [<-|[<-|[]]]; reflexivity.
    + unfold Streams.accounted. cbn [Streams.c_n Streams.c_pc].
      rewrite streams_copied_app.
      change (Streams.copied d [EvClose d (Streams.c_r (Streams.worker d s));
                                EvClose d (Streams.c_w (Streams.worker d s))])
        with 0.
      repeat split; try tauto; try lia; try discriminate.
      apply in_app_or in H as [H|[H|[H|[]]]]; try discriminate.
      destruct (A4 p H) as [_ X]. exact X.
    + unfold Streams.delivered. cbn. now rewrite Hpc.
    + rewrite <- F1. reflexivity.
Qed.

Lemma streams_run_from ep sched : forall s s',
  Streams.Inv s -> Streams.run_from ep s sched = Some s' -> Streams.Inv s'.
Proof.
  induction sched as [|c sched IH]; intros s s' HI H; cbn in H.
  - now injection H as <-.
  - destruct (Streams.step ep s c) as [s1|] eqn:Hs; [|discriminate].
    exact (IH s1 s' (streams_step ep s c s1 HI Hs) H).
Qed.

(** ** The sample sessions *)

Lemma run_state_after ep sched p :
  option_map o_pc (run ep sched) = Some p ->
  run ep sched = Some (state_after ep sched).
Proof.
  unfold state_after. destruct (run ep sched); [reflexivity|discriminate].
Qed.

Lemma listen_session_runs :
  run listener listen_session = Some (state_after listener listen_session).
Proof. apply run_state_after with OReturned. vm_compute. reflexivity. Qed.

Lemma stream_session_runs :
  Streams.run dialer stream_session = Some (stream_after dialer stream_session).
Proof. vm_compute. reflexivity. Qed.

Lemma listen_session_ends :
  returned (state_after listener listen_session) = true /\
  crashed (state_after listener listen_session) = false.
Proof. vm_compute. split; reflexivity. Qed.

(** ** The claims on sessions *)

Lemma count_two s :
  count_delivered s = 2%nat <->
  delivered (inb s) = true /\
  exists st, outb s = Some st /\ delivered st = true.
Proof.
  unfold count_delivered. destruct (delivered (inb s)), (outb s) as [st|];
    try destruct (delivered st) eqn:E; cbn; split;
    try (intro; lia); try (intros [? (? & ? & ?)]; congruence);
    try (intros _; split; [reflexivity|]; now exists st).
Qed.

Lemma taken_two p : taken p = 2%nat <-> p = OReturned.
Proof. destruct p; cbn; split; intro; try lia; try discriminate; auto. Qed.

(** C6. A session returns exactly when both copy loops have ended and
    handed over their final report. For a datagram session and for a stream
    session: the orchestrator has returned if and only if both directions
    have delivered their final report; and a loop that has ended is never
    kept from delivering it, the orchestrator is then still at a receive. *)
Theorem session_returns_iff_both_done :
  (forall ep sched s,
     is_udp ep = true -> run ep sched = Some s ->
     (returned s = true <->
      delivered (inb s) = true /\
      exists st, outb s = Some st /\ delivered st = true) /\
     (forall d st,
        crashed s = false -> worker d s = Some st -> c_pc st = AtFinal ->
        step ep s (DoSend d) <> None)) /\
  (forall ep sched s,
     Streams.run ep sched = Some s ->
     (Streams.returned s = true <->
      Streams.delivered (Streams.inb s) = true /\
      Streams.delivered (Streams.outb s) = true) /\
     (forall d,
        Streams.c_pc (Streams.worker d s) = Streams.AtFinal ->
        Streams.step ep s (Streams.DoSend d) <> None)).
Proof.
  split.
  - intros ep sched s Hu Hrun. pose proof (Inv_run ep sched s Hu Hrun) as HI.
    pose proof (inv_count ep s HI) as Hcount.
    assert (Hret : returned s = true <->
                   delivered (inb s) = true /\
                   exists st, outb s = Some st /\ delivered st = true).
    { rewrite <- count_two, Hcount, taken_two. unfold returned.
      destruct (o_pc s); split; intro; try discriminate; auto. }
    split; [exact Hret|].
    intros d st Hc Hw Hpc. unfold step. rewrite Hc. cbn [actor_of].
    rewrite Hw. unfold step_worker. rewrite Hpc. unfold sending. rewrite Hpc.
    unfold receive.
    destruct (commit_facts d (after_send st)
                [EvChan d FinalCount (final_report st)] s) as (F1 & _).
    unfold do_send, sending. rewrite Hpc, F1.
    destruct (o_pc s) eqn:Hop; try discriminate.
    exfalso. assert (R : returned s = true) by (unfold returned; now rewrite Hop).
    apply Hret in R as [R1 (st' & R2 & R3)].
    unfold delivered in R1, R3.
    destruct d; cbn in Hw.
    + injection Hw as <-. now rewrite Hpc in R1.
    + assert (st' = st) by congruence. subst. now rewrite Hpc in R3.
  - intros ep sched s Hrun.
    pose proof (streams_run_from ep sched _ s streams_init Hrun) as [Hcount _].
    assert (Hret : Streams.returned s = true <->
                   Streams.delivered (Streams.inb s) = true /\
                   Streams.delivered (Streams.outb s) = true).
    { unfold Streams.returned, Streams.count_delivered in *.
      destruct (Streams.o_pc s), (Streams.delivered (Streams.inb s)),
        (Streams.delivered (Streams.outb s)); cbn in Hcount;
        split; intro; try discriminate; try tauto; try lia;
        try (destruct H; discriminate). }
    split; [exact Hret|].
    intros d Hpc. unfold Streams.step. rewrite Hpc.
    unfold Streams.receive, Streams.do_send.
    match goal with |- context [Streams.commit d (?x, ?y) s] =>
      destruct (streams_commit_facts d x y s) as (F1 & _) end.
    rewrite F1.
    destruct (Streams.o_pc s) eqn:Hop; try discriminate.
    exfalso.
    assert (R : Streams.returned s = true)
      by (unfold Streams.returned; now rewrite Hop).
    apply Hret in R as [R1 R2]. unfold Streams.delivered in R1, R2.
    destruct d; cbn in Hpc; [now rewrite Hpc in R1 | now rewrite Hpc in R2].
Qed.

Lemma session_returns_iff_both_done_witness :
  (returned (state_after listener listen_session) = true <->
   delivered (inb (state_after listener listen_session)) = true /\
   exists st, outb (state_after listener listen_session) = Some st /\
              delivered st = true) /\
  (Streams.returned (stream_after dialer stream_session) = true <->
   Streams.delivered (Streams.inb (stream_after dialer stream_session)) = true /\
   Streams.delivered (Streams.outb (stream_after dialer stream_session)) = true).
Proof.
  split.
  - exact (proj1 (proj1 session_returns_iff_both_done listener listen_session
                    _ eq_refl listen_session_runs)).
  - exact (proj1 (proj2 session_returns_iff_both_done dialer stream_session
                    _ stream_session_runs)).
Defined.

Lemma uint64_small z : 0 <= z < two64 -> uint64 z = z.
Proof. intro H. unfold uint64. now apply Z.mod_small. Qed.

Lemma order_run ep sched s :
  is_udp ep = true -> remote ep = None -> run ep sched = Some s ->
  Inv_order s.
Proof.
  intros Hu Hr H.
  exact (order_run_from ep sched _ s Hu Hr (Inv_init ep Hu) (order_init ep Hr) H).
Qed.

Lemma addr_reports_in tr x :
  In x (addr_reports tr) ->
  exists d p, In (EvChan d AddressOnly p) tr /\ remoteAddr p = x.
Proof.
  unfold addr_reports. intro H. apply in_flat_map in H as (e & He & Hx).
  destruct e as [| | |d [] p| | | | |]; cbn in Hx; try contradiction.
  destruct Hx as [<-|[]]. now exists d, p.
Qed.

(** C3. In a listening datagram session the address is learned at most
    once: there is no address-only report yet and the outbound loop is not
    started, or there is exactly one, it carries the sender [x] of the first
    unit the inbound loop read, and from then on [ra] is [x] in the inbound
    loop, in the orchestrator and in the outbound loop, whatever the senders
    of later units; every write of the outbound loop is a [WriteTo] on the
    connection with the address [x]. *)
Theorem peer_address_learned_once ep sched s :
  is_udp ep = true -> remote ep = None -> run ep sched = Some s ->
  (addr_reports (trace s) = [] /\ outb s = None) \/
  (exists x,
     addr_reports (trace s) = [x] /\ first_sender (trace s) = Some x /\
     c_ra (inb s) = x /\ o_ra s = x /\
     (exists st, outb s = Some st /\ c_ra st = x) /\
     forall dst to data wr,
       In (EvWrite Outbound dst to data wr) (trace s) ->
       dst = Con /\ to = Some x).
Proof.
  intros Hu Hr Hrun.
  pose proof (Inv_run ep sched s Hu Hrun) as HI.
  pose proof (order_run ep sched s Hu Hr Hrun) as [_ HO].
  pose proof (inv_phase ep s HI) as Hph.
  destruct (o_pc s) eqn:Hop.
  { left. destruct Hph as (_ & H1 & H2 & _). now split. }
  all: right; exists (o_ra s);
    destruct Hph as (Ho & _ & Hra & M); rewrite Hr in M;
    destruct M as (M1 & M2 & _);
    destruct (outb s) as [st|] eqn:Hout; [|congruence];
    destruct (inv_out ep s HI st Hout) as (_ & _ & Hst & _);
    (split; [exact M1|]); (split; [exact M2|]); (split; [exact Hra|]);
    (split; [reflexivity|]); (split; [now exists st|]);
    intros dst to data wr Hin;
    apply in_split in Hin as (pre & post & E);
    destruct (HO pre _ post E eq_refl) as [_ U]; exact U.
Qed.

Lemma listen_session_writes :
  first_sender (trace (state_after listener listen_session)) = Some (Some A1) /\
  In (EvRead Inbound Con (mkRead hi (Some A2) None))
     (trace (state_after listener listen_session)) /\
  In (EvWrite Outbound Con (Some (Some A1)) hi (mkWrite 3 None))
     (trace (state_after listener listen_session)).
Proof. vm_compute. tauto. Qed.

Lemma peer_address_learned_once_witness :
  (addr_reports (trace (state_after listener listen_session)) = [] /\
   outb (state_after listener listen_session) = None) \/
  (exists x,
     addr_reports (trace (state_after listener listen_session)) = [x] /\
     first_sender (trace (state_after listener listen_session)) = Some x /\
     c_ra (inb (state_after listener listen_session)) = x /\
     o_ra (state_after listener listen_session) = x /\
     (exists st, outb (state_after listener listen_session) = Some st /\
                 c_ra st = x) /\
     forall dst to data wr,
       In (EvWrite Outbound dst to data wr)
          (trace (state_after listener listen_session)) ->
       dst = Con /\ to = Some x).
Proof.
  exact (peer_address_learned_once listener listen_session
           (state_after listener listen_session) eq_refl eq_refl
           listen_session_runs).
Defined.

Lemma listen_session_split :
  trace (state_after listener listen_session) =
  listen_before ++ listen_write :: listen_afterwards.
Proof. vm_compute. reflexivity. Qed.

(** C10. In a listening datagram session the first read is followed by the
    address-only report whatever it returned: for every result [rr] of the
    read, failed or not, marker or not, the inbound loop stands at the send
    of the report with the error and the content not yet examined, the
    report carries the sender returned by that read (nil if there was none),
    and on receiving it the orchestrator logs it and starts the outbound
    loop with that address. No session has more than one such report, and
    the outbound loop runs exactly when there is one. *)
Theorem first_read_reports_address ep :
  is_udp ep = true -> remote ep = None ->
  (forall rr,
     read_ok ep [] (spawn Con Stdout None) rr = true ->
     exists s1 s2,
       step ep (init ep) (DoRead Inbound rr) = Some s1 /\
       c_pc (inb s1) = AtReport /\ c_err (inb s1) = rerr rr /\
       c_n (inb s1) = Z.of_nat (length (rdata rr)) /\ outb s1 = None /\
       step ep s1 (DoSend Inbound) = Some s2 /\
       c_pc (inb s2) = AtCheck /\
       trace s2 = [EvSpawn Inbound None; EvRead Inbound Con rr;
                   EvChan Inbound AddressOnly (mkProgress (raddr rr) 0);
                   EvLog Orchestrator (LogDatagram (raddr rr));
                   EvSpawn Outbound (raddr rr)] /\
       outb s2 = Some (spawn Stdin Con (raddr rr)) /\ o_ra s2 = raddr rr) /\
  (forall sched s,
     run ep sched = Some s ->
     (length (addr_reports (trace s)) <= 1)%nat /\
     (outb s <> None <-> addr_reports (trace s) <> [])).
Proof.
  intros Hu Hr. split.
  - destruct ep as [u r]. cbn in Hu, Hr. subst u r.
    intros rr Hok. eexists. eexists.
    split. { unfold step, init. cbn -[make read_ok]. rewrite Hok. reflexivity. }
    cbn -[make]. repeat split; reflexivity.
  - intros sched s Hrun.
    pose proof (Inv_run ep sched s Hu Hrun) as HI.
    pose proof (inv_phase ep s HI) as Hph.
    destruct (o_pc s).
    + destruct Hph as (_ & H1 & H2 & _). rewrite H1, H2. cbn.
      split; [lia|]. tauto.
    + destruct Hph as (H1 & _ & _ & M). rewrite Hr in M.
      destruct M as (-> & _). cbn. split; [lia|]. split; auto. discriminate.
    + destruct Hph as (H1 & _ & _ & M). rewrite Hr in M.
      destruct M as (-> & _). cbn. split; [lia|]. split; auto. discriminate.
    + destruct Hph as (H1 & _ & _ & M). rewrite Hr in M.
      destruct M as (-> & _). cbn. split; [lia|]. split; auto. discriminate.
Qed.

Lemma first_read_reports_address_witness :
  (exists s1 s2,
     step listener (init listener) (DoRead Inbound refused) = Some s1 /\
     c_pc (inb s1) = AtReport /\ c_err (inb s1) = rerr refused /\
     c_n (inb s1) = Z.of_nat (length (rdata refused)) /\ outb s1 = None /\
     step listener s1 (DoSend Inbound) = Some s2 /\
     c_pc (inb s2) = AtCheck /\
     trace s2 = [EvSpawn Inbound None; EvRead Inbound Con refused;
                 EvChan Inbound AddressOnly (mkProgress (raddr refused) 0);
                 EvLog Orchestrator (LogDatagram (raddr refused));
                 EvSpawn Outbound (raddr refused)] /\
     outb s2 = Some (spawn Stdin Con (raddr refused)) /\
     o_ra s2 = raddr refused) /\
  (length (addr_reports (trace (state_after listener listen_session))) <= 1)%nat.
Proof.
  split.
  - apply (proj1 (first_read_reports_address listener eq_refl eq_refl) refused).
    vm_compute. reflexivity.
  - exact (proj1 (proj2 (first_read_reports_address listener eq_refl eq_refl)
                    listen_session _ listen_session_runs)).
Defined.

(** ** The marker and the other direction *)

Lemma read_step ep s d st rr :
  crashed s = false -> worker d s = Some st -> c_pc st = AtRead ->
  read_ok ep (closed s) st rr = true ->
  step ep s (DoRead d rr) = Some (commit d (do_read ep d st rr) s).
Proof.
  intros Hc Hw Hpc Hok. unfold step. rewrite Hc. cbn [actor_of]. rewrite Hw.
  unfold step_worker. now rewrite Hpc, Hok.
Qed.

Lemma run_from_app ep l1 : forall s l2,
  run_from ep s (l1 ++ l2) =
  match run_from ep s l1 with
  | Some s' => run_from ep s' l2
  | None => None
  end.
Proof.
  induction l1 as [|c l1 IH]; intros s l2; cbn; [reflexivity|].
  destruct (step ep s c); [apply IH|reflexivity].
Qed.

(** No step of the inbound loop changes the locals of a running outbound
    loop. *)
Lemma inbound_step_frame ep s c s' st :
  Inv ep s -> step ep s c = Some s' -> actor_of c = Inbound ->
  outb s = Some st -> outb s' = Some st.
Proof.
  intros HI Hs Hact Hout. apply step_inv in Hs as (Hc & st0 & Hw & H).
  destruct c as [d rr|d|d|d wr|d]; cbn in Hact; subst d.
  - destruct H as (_ & _ & ->). exact Hout.
  - destruct H as (k & p & _ & Hrecv). unfold receive in Hrecv.
    cbn in Hrecv. pose proof (inv_phase ep s HI) as Hph.
    destruct (o_pc s); try discriminate;
      [exfalso; eapply learning_alone; eauto | ..];
      apply some_eq in Hrecv; subst s'; exact Hout.
  - destruct H as (_ & ->). destruct (do_check Inbound st0). exact Hout.
  - destruct H as (_ & _ & ->). destruct (do_write ep Inbound st0 wr).
    exact Hout.
  - destruct H as (_ & ->). exact Hout.
Qed.

Lemma relaying_of ep s : Inv ep s -> outb s <> None -> relaying ep s.
Proof.
  intros HI Ho. pose proof (inv_phase ep s HI) as Hph.
  destruct (o_pc s); try exact Hph.
  destruct Hph as (_ & H & _). contradiction.
Qed.

Lemma listen_start_runs :
  run listener listen_start = Some (state_after listener listen_start).
Proof. apply run_state_after with OWait1. vm_compute. reflexivity. Qed.

Lemma listen_start_state :
  crashed (state_after listener listen_start) = false /\
  option_map c_pc (outb (state_after listener listen_start)) = Some AtRead /\
  c_pc (inb (state_after listener listen_start)) = AtRead /\
  read_ok listener (closed (state_after listener listen_start))
    (inb (state_after listener listen_start)) (mkRead bye (Some A2) None) = true.
Proof. vm_compute. repeat split; reflexivity. Qed.

(** * Further properties of the code *)

(** ** The fate of a unit *)

Lemma after_send_read ep st rr :
  let st2 := after_send (on_read ep st rr) in
  c_pc st2 = AtCheck /\ c_r st2 = c_r st /\ c_w st2 = c_w st /\
  c_ra st2 = (if learns ep st then raddr rr else c_ra st) /\
  c_buf st2 = fill (c_buf st) (rdata rr) /\
  c_n st2 = Z.of_nat (length (rdata rr)) /\
  c_err st2 = rerr rr /\ c_bytes st2 = c_bytes st.
Proof.
  pose proof (on_read_pc ep st rr) as Hpc.
  pose proof (on_read_ra ep st rr) as Hra.
  destruct (on_read_fields ep st rr) as (Hr & Hw & Hb & Hn & He & Hy).
  unfold after_send. rewrite Hpc.
  destruct (learns ep st); cbn; repeat split; assumption.
Qed.

Lemma check_forward st data b0 :
  c_err st = None -> c_buf st = fill b0 data ->
  c_n st = Z.of_nat (length data) ->
  data <> [] -> removelast data <> UDPDisconnectSequence ->
  on_check st = (at_ AtWrite st, []).
Proof.
  intros He Hb Hn Hne Hm. unfold on_check. rewrite He, Hb, Hn.
  rewrite slice_but_last by assumption.
  destruct (bytes_eqb (removelast data) UDPDisconnectSequence) eqn:E;
    [|reflexivity].
  apply bytes_eqb_eq in E. contradiction.
Qed.

(** X1. What becomes of a unit is decided by its error and its content
    alone, whatever the buffer held before: it is written on exactly when
    it was read without error, is not empty and is not the marker once its
    last byte is dropped; the [copy] panics exactly when it was read without
    error and is empty; in every other case the loop ends. *)
Theorem unit_fate ep st rr :
  let p := c_pc (fst (on_check (after_send (on_read ep st rr)))) in
  (p = AtWrite <-> forwardable rr) /\
  (p = Panicked <-> rerr rr = None /\ rdata rr = []) /\
  (p = AtFinal <->
   rerr rr <> None \/ removelast (rdata rr) = UDPDisconnectSequence).
Proof.
  destruct (after_send_read ep st rr)
    as (Hpc & _ & _ & _ & Hb & Hn & He & _).
  set (st2 := after_send (on_read ep st rr)) in *. cbn zeta.
  unfold forwardable.
  destruct (rerr rr) as [e|] eqn:Herr.
  - rewrite (check_error st2 e He). cbn [fst c_pc at_].
    intuition (congruence || discriminate).
  - destruct (rdata rr) as [|x l] eqn:Hd.
    + assert (Hn0 : c_n st2 = 0) by (rewrite Hn; reflexivity).
      rewrite (check_empty st2 He Hn0). cbn [fst c_pc at_].
      cbn [removelast]. intuition (congruence || discriminate).
    + destruct (list_eq_dec Byte.byte_eq_dec (removelast (x :: l))
                  UDPDisconnectSequence) as [Hm|Hm].
      * rewrite (check_marker st2 (x :: l) (c_buf st)); auto.
        cbn [fst c_pc at_]. intuition (congruence || discriminate).
      * rewrite (check_forward st2 (x :: l) (c_buf st)); auto;
          [|discriminate].
        cbn [fst c_pc at_]. intuition (congruence || discriminate).
Qed.

(** ** Units written on *)

Lemma arrive ep d st rr :
  match c_pc (on_read ep st rr) with
  | AtReport => do_send d (on_read ep st rr)
  | _ => (on_read ep st rr, [])
  end
  = (after_send (on_read ep st rr),
     if learns ep st
     then [EvChan d AddressOnly (mkProgress (raddr rr) 0)] else []).
Proof.
  pose proof (on_read_pc ep st rr) as Hpc.
  pose proof (on_read_ra ep st rr) as Hra.
  unfold do_send, sending, after_send, addr_report. rewrite Hpc.
  destruct (learns ep st); [|reflexivity]. now rewrite Hra.
Qed.

(** The write of a forwardable unit carries exactly the bytes read. *)
Lemma write_of_unit ep st rr :
  write_request ep (at_ AtWrite (after_send (on_read ep st rr))) =
  Some (rdata rr,
        destination ep (c_w st)
          (if learns ep st then raddr rr else c_ra st)).
Proof.
  destruct (after_send_read ep st rr)
    as (_ & _ & Hw & Hra & Hb & Hn & _ & _).
  unfold write_request, destination. cbn [c_buf c_n c_w c_ra at_].
  now rewrite Hb, Hn, slice_unit, Hw, Hra.
Qed.

(** One iteration on a forwardable unit, up to the result of the write. *)
Lemma loop_forward ep d st rr wr rest :
  forwardable rr ->
  let st3 := at_ AtWrite (after_send (on_read ep st rr)) in
  let ra' := if learns ep st then raddr rr else c_ra st in
  let head :=
    [EvRead d (c_r st) rr] ++
    (if learns ep st
     then [EvChan d AddressOnly (mkProgress (raddr rr) 0)] else []) ++
    [EvWrite d (c_w st) (destination ep (c_w st) ra') (rdata rr) wr] in
  loop ep d (mkRound rr wr :: rest) st =
  match werr wr with
  | Some e =>
      (fst (on_write st3 wr), head ++ [EvLog (Worker d) (LogError ra' e)])
  | None =>
      (fst (loop ep d rest (fst (on_write st3 wr))),
       head ++ snd (loop ep d rest (fst (on_write st3 wr))))
  end.
Proof.
  intros (Herr & Hne & Hm). cbn zeta.
  rewrite loop_step. cbn [i_read i_write]. rewrite arrive.
  destruct (after_send_read ep st rr)
    as (Hpc & Hr & Hw & Hra & Hb & Hn & He & Hy).
  set (st2 := after_send (on_read ep st rr)) in *.
  unfold do_check.
  rewrite (check_forward st2 (rdata rr) (c_buf st)); try congruence.
  cbn [map app c_pc at_]. unfold do_write.
  change (at_ AtWrite st2) with (at_ AtWrite (after_send (on_read ep st rr))).
  rewrite write_of_unit. fold st2.
  unfold on_write. cbn [c_w c_ra at_]. rewrite Hw, Hra.
  destruct (werr wr) as [e|]; cbn [c_pc fst snd map].
  - now rewrite <- app_assoc.
  - destruct (loop ep d rest _) as [st5 e5]. cbn [fst snd app].
    now rewrite <- app_assoc.
Qed.

Lemma units_written_app d tr ev :
  units_written d (tr ++ ev) = units_written d tr ++ units_written d ev.
Proof. unfold units_written. apply flat_map_app. Qed.

Lemma dir_eqb_refl d : dir_eqb d d = true.
Proof. now destruct d. Qed.

(** X2. Units pass through unaltered and in order. When every unit of a
    run of the loop is forwardable and every write succeeds, the units
    written are exactly the units read, one write for each read, whatever
    the buffer held at the start; the byte count grows by the sum of the
    counts the writes returned, modulo 2^64, and the loop is back at its
    read. *)
Theorem units_pass_through ep d ins : forall st,
  0 <= c_bytes st < two64 ->
  Forall (fun i => forwardable (i_read i) /\ werr (i_write i) = None) ins ->
  units_written d (snd (loop ep d ins st))
  = map (fun i => rdata (i_read i)) ins /\
  c_bytes (fst (loop ep d ins st)) = uint64 (c_bytes st + counts_sum ins) /\
  (ins <> [] -> c_pc (fst (loop ep d ins st)) = AtRead).
Proof.
  induction ins as [|[rr wr] ins IH]; intros st Hrange HF.
  - cbn. split; [reflexivity|]. split; [|congruence].
    rewrite Z.add_0_r. symmetry. now apply uint64_small.
  - inversion HF as [|? ? [Hfw Hw] HF']; subst. cbn [i_read i_write] in *.
    rewrite (loop_forward ep d st rr wr ins Hfw). rewrite Hw.
    cbn [fst snd].
    set (st' := fst (on_write (at_ AtWrite (after_send (on_read ep st rr))) wr)).
    assert (Hb : c_bytes st' = uint64 (c_bytes st + uint64 (wn wr))).
    { unfold st', on_write. rewrite Hw. cbn [fst c_bytes at_].
      destruct (after_send_read ep st rr) as (_ & _ & _ & _ & _ & _ & _ & Hy).
      now rewrite Hy. }
    assert (Hp : c_pc st' = AtRead).
    { unfold st', on_write. now rewrite Hw. }
    assert (Hr' : 0 <= c_bytes st' < two64).
    { rewrite Hb. unfold uint64. apply Z.mod_pos_bound. reflexivity. }
    destruct (IH st' Hr' HF') as (I1 & I2 & I3).
    split; [|split].
    + rewrite !units_written_app, I1. cbn [map i_read].
      unfold units_written at 1 2 3. cbn [flat_map].
      rewrite dir_eqb_refl.
      destruct (learns ep st); reflexivity.
    + rewrite I2, Hb. cbn [counts_sum fold_right i_write].
      fold (counts_sum ins). rewrite uint64_add_r, uint64_add.
      f_equal. lia.
    + intros _. destruct ins as [|i ins']; [exact Hp|].
      apply I3. discriminate.
Qed.

Lemma units_pass_through_witness :
  units_written Inbound
    (snd (loop listener Inbound two_lines (spawn Con Stdout None)))
  = [hi; [x7e; x2e; x78; x79]] /\
  c_bytes (fst (loop listener Inbound two_lines (spawn Con Stdout None)))
  = uint64 (0 + 7).
Proof.
  assert (H : Forall (fun i => forwardable (i_read i) /\
                               werr (i_write i) = None) two_lines).
  { repeat constructor; cbn; discriminate. }
  assert (R : 0 <= c_bytes (spawn Con Stdout None) < two64).
  { cbn. unfold two64. lia. }
  destruct (units_pass_through listener Inbound two_lines
              (spawn Con Stdout None) R H) as (H1 & H2 & _).
  split; [exact H1|exact H2].
Defined.

(** X3. A write that fails ends its direction. After a forwardable unit
    whose write returns an error, the run of [copy] is: the read, the
    address-only report if the address was just learned, the write with
    exactly the bytes read, one log line with the error ([io.EOF] included,
    unlike for a read), the final report with the byte count as it was
    before that write, and the deferred closes. *)
Theorem write_failure_ends_direction ep d st rr wr rest e :
  forwardable rr -> werr wr = Some e ->
  summary (copy ep d st (mkRound rr wr :: rest)) =
  (Done,
   [EvRead d (c_r st) rr] ++
   (if learns ep st
    then [EvChan d AddressOnly (mkProgress (raddr rr) 0)] else []) ++
   [EvWrite d (c_w st)
      (destination ep (c_w st) (if learns ep st then raddr rr else c_ra st))
      (rdata rr) wr;
    EvLog (Worker d)
      (LogError (if learns ep st then raddr rr else c_ra st) e);
    EvChan d FinalCount (mkProgress None (c_bytes st));
    EvClose d (c_r st); EvClose d (c_w st)]).
Proof.
  intros Hfw Hw. rewrite summary_copy, (loop_forward ep d st rr wr rest Hfw).
  rewrite Hw. cbn [fst snd].
  destruct (after_send_read ep st rr) as (_ & Hr & Hw' & _ & _ & _ & _ & Hy).
  set (st2 := after_send (on_read ep st rr)) in *. clearbody st2.
  unfold on_write. rewrite Hw. cbn [fst].
  unfold finish, do_send, sending, after_send, do_defer, final_report.
  cbn [c_pc c_r c_w c_bytes at_ fst snd app].
  rewrite Hr, Hw', Hy. f_equal.
  rewrite <- !app_assoc. reflexivity.
Qed.

Lemma write_failure_ends_direction_witness :
  summary (copy dialer Outbound (spawn Stdin Con (Some A1))
             [mkRound (mkRead hi None None) (mkWrite 0 (Some EOF))]) =
  (Done,
   [EvRead Outbound Stdin (mkRead hi None None);
    EvWrite Outbound Con None hi (mkWrite 0 (Some EOF));
    EvLog (Worker Outbound) (LogError (Some A1) EOF);
    EvChan Outbound FinalCount (mkProgress None 0);
    EvClose Outbound Stdin; EvClose Outbound Con]).
Proof.
  assert (H : forwardable (mkRead hi None None)).
  { repeat split; cbn; discriminate. }
  exact (write_failure_ends_direction dialer Outbound
           (spawn Stdin Con (Some A1)) (mkRead hi None None)
           (mkWrite 0 (Some EOF)) [] EOF H eq_refl).
Defined.

(** ** Properties that every [copy] of a session keeps *)

Lemma receive_workers p s1 s2 :
  receive p s1 = Some s2 ->
  inb s2 = inb s1 /\
  (outb s2 = outb s1 \/
   (o_pc s1 = OWaitAddr /\ outb s2 = Some (spawn Stdin Con (remoteAddr p)))) /\
  closed s2 = closed s1 /\ crashed s2 = crashed s1.
Proof.
  unfold receive. destruct (o_pc s1); intros [= <-]; cbn; tauto.
Qed.

Section LocalInvariant.

Variable ep : endpoint.
Variable P : locals -> Prop.

Hypothesis P_spawn : forall r w ra, P (spawn r w ra).
Hypothesis P_read : forall cl st rr,
  P st -> c_pc st = AtRead -> read_ok ep cl st rr = true ->
  P (on_read ep st rr).
Hypothesis P_send : forall st, P st -> P (after_send st).
Hypothesis P_check : forall st,
  P st -> c_pc st = AtCheck -> P (fst (on_check st)).
Hypothesis P_write : forall cl d st wr,
  P st -> c_pc st = AtWrite ->
  match write_request ep st with
  | Some (data, _) => write_ok cl st data wr = true
  | None => True
  end ->
  P (fst (do_write ep d st wr)).
Hypothesis P_defer : forall st, P st -> c_pc st = AtDefer -> P (at_ Done st).

Lemma local_init : forall d st, worker d (init ep) = Some st -> P st.
Proof.
  intros d st. unfold init.
  destruct (is_nil (RemoteAddr ep Con)); destruct d; cbn;
    intros [= <-]; apply P_spawn.
Qed.

Lemma local_commit d0 st' ev s :
  (forall d st, worker d s = Some st -> P st) ->
  P st' ->
  forall d st, worker d (commit d0 (st', ev) s) = Some st -> P st.
Proof.
  intros HJ HP d st.
  destruct (commit_facts d0 st' ev s) as (_ & _ & _ & _ & F5 & F6).
  destruct (dir_cases d0 d) as [-> | ->].
  - rewrite F5. now intros [= <-].
  - rewrite F6. apply HJ.
Qed.

Lemma local_step s c s' :
  (forall d st, worker d s = Some st -> P st) ->
  step ep s c = Some s' ->
  forall d st, worker d s' = Some st -> P st.
Proof.
  intros HJ Hs. apply step_inv in Hs as (Hc & st0 & Hw & H).
  pose proof (HJ _ _ Hw) as HP0.
  destruct c as [d0 rr|d0|d0|d0 wr|d0]; cbn [actor_of] in *.
  - destruct H as (Hpc & Hok & ->). unfold do_read.
    apply local_commit; eauto.
  - destruct H as (k & p & Hsend & Hrecv).
    apply receive_workers in Hrecv as (R1 & R2 & _).
    pose proof (local_commit d0 (after_send st0) [EvChan d0 k p] s HJ
                  (P_send st0 HP0)) as HJ1.
    intros [|] st; cbn.
    + rewrite R1. apply (HJ1 Inbound).
    + destruct R2 as [-> | [_ ->]]; [apply (HJ1 Outbound)|].
      intros [= <-]. apply P_spawn.
  - destruct H as (Hpc & ->).
    pose proof (P_check st0 HP0 Hpc) as HP1. unfold do_check.
    destruct (on_check st0) as [st1 logs]. now apply local_commit.
  - destruct H as (Hpc & Hok & ->).
    pose proof (P_write (closed s) d0 st0 wr HP0 Hpc Hok) as HP1.
    destruct (do_write ep d0 st0 wr) as [st1 ev]. now apply local_commit.
  - destruct H as (Hpc & ->). unfold do_defer.
    intros d st. apply (local_commit d0 (at_ Done st0) _ s HJ
                          (P_defer st0 HP0 Hpc) d st).
Qed.

Lemma local_run_from sched : forall s s',
  (forall d st, worker d s = Some st -> P st) ->
  run_from ep s sched = Some s' ->
  forall d st, worker d s' = Some st -> P st.
Proof.
  induction sched as [|c sched IH]; intros s s' HJ H; cbn in H.
  - now injection H as <-.
  - destruct (step ep s c) as [s1|] eqn:Hs; [|discriminate].
    exact (IH s1 s' (local_step s c s1 HJ Hs) H).
Qed.

Lemma local_run sched s :
  run ep sched = Some s -> forall d st, worker d s = Some st -> P st.
Proof. apply local_run_from. apply local_init. Qed.

End LocalInvariant.

(** ** The buffer and the panic *)

Lemma fill_length b data :
  (length data <= length b)%nat -> length (fill b data) = length b.
Proof.
  intro H. unfold fill. rewrite length_app, length_skipn. lia.
Qed.

Lemma slice_in_range b n :
  0 <= n <= Z.of_nat (length b) -> slice b 0 n <> None.
Proof.
  intros [H1 H2]. unfold slice.
  apply Z.leb_le in H1 as H1', H2 as H2'. rewrite H1', H2'. discriminate.
Qed.

Lemma in_bounds_spawn r w ra : in_bounds (spawn r w ra).
Proof.
  unfold in_bounds, spawn, make. cbn [c_buf c_pc].
  split; [|exact I]. rewrite repeat_length. now rewrite Z2Nat.id.
Qed.

Lemma in_bounds_read ep cl st rr :
  in_bounds st -> c_pc st = AtRead -> read_ok ep cl st rr = true ->
  in_bounds (on_read ep st rr).
Proof.
  intros [HL _] _ Hok. unfold read_ok in Hok.
  apply andb_true_iff in Hok as [Hok _].
  apply andb_true_iff in Hok as [Hlen _]. apply Nat.leb_le in Hlen.
  destruct (on_read_fields ep st rr) as (_ & _ & Hb & Hn & _ & _).
  pose proof (on_read_pc ep st rr) as Hpc.
  unfold in_bounds. rewrite Hb, Hn, fill_length by assumption.
  split; [exact HL|]. rewrite Hpc. destruct (learns ep st); lia.
Qed.

Lemma in_bounds_send st : in_bounds st -> in_bounds (after_send st).
Proof.
  unfold in_bounds, after_send. intros [HL HB].
  destruct (c_pc st) eqn:E; cbn; rewrite ?E; auto.
Qed.

Lemma in_bounds_check st :
  in_bounds st -> c_pc st = AtCheck -> in_bounds (fst (on_check st)).
Proof.
  unfold in_bounds. intros [HL HB] Hpc. rewrite Hpc in HB.
  unfold on_check. destruct (c_err st) as [e|] eqn:He; cbn; [tauto|].
  destruct (slice (c_buf st) 0 (c_n st - 1)) as [b|] eqn:Hs.
  - destruct (bytes_eqb b UDPDisconnectSequence); cbn; tauto.
  - cbn. split; [exact HL|]. split; [|exact He].
    destruct (Z.eq_dec (c_n st) 0) as [E|E]; [exact E|].
    exfalso. apply (slice_in_range (c_buf st) (c_n st - 1)); [lia|exact Hs].
Qed.

Lemma in_bounds_write ep cl d st wr :
  in_bounds st -> c_pc st = AtWrite ->
  match write_request ep st with
  | Some (data, _) => write_ok cl st data wr = true
  | None => True
  end ->
  in_bounds (fst (do_write ep d st wr)).
Proof.
  unfold in_bounds. intros [HL HB] Hpc _. rewrite Hpc in HB.
  unfold do_write, write_request.
  destruct (slice (c_buf st) 0 (c_n st)) as [data|] eqn:Hs.
  - unfold on_write. destruct (werr wr); cbn; tauto.
  - exfalso. now apply (slice_in_range (c_buf st) (c_n st)).
Qed.

Lemma in_bounds_defer st :
  in_bounds st -> c_pc st = AtDefer -> in_bounds (at_ Done st).
Proof. unfold in_bounds. cbn. tauto. Qed.

Lemma in_bounds_run ep sched s d st :
  run ep sched = Some s -> worker d s = Some st -> in_bounds st.
Proof.
  intros Hrun Hw.
  exact (local_run ep in_bounds in_bounds_spawn (in_bounds_read ep)
           in_bounds_send in_bounds_check (in_bounds_write ep)
           in_bounds_defer sched s Hrun d st Hw).
Qed.

Lemma commit_crashed d st' ev s :
  crashed (commit d (st', ev) s)
  = crashed s || match c_pc st' with Panicked => true | _ => false end.
Proof. now destruct d. Qed.

Lemma crashed_step ep s c s' :
  step ep s c = Some s' -> crashed s' = true ->
  exists d st, worker d s' = Some st /\ c_pc st = Panicked.
Proof.
  intros Hs Hcr. apply step_inv in Hs as (Hc & st0 & Hw & H).
  assert (G : forall d st' ev,
            crashed (commit d (st', ev) s) = true ->
            exists d1 st1, worker d1 (commit d (st', ev) s) = Some st1 /\
                           c_pc st1 = Panicked).
  { intros d st' ev X. rewrite commit_crashed, Hc in X. cbn in X.
    exists d, st'. destruct (commit_facts d st' ev s) as (_ & _ & _ & _ & F & _).
    split; [exact F|]. now destruct (c_pc st'). }
  destruct c as [d0 rr|d0|d0|d0 wr|d0]; cbn [actor_of] in *.
  - destruct H as (_ & _ & ->). now apply G.
  - destruct H as (k & p & Hsend & Hrecv).
    apply receive_workers in Hrecv as (_ & _ & _ & R).
    rewrite R, commit_crashed, Hc in Hcr. cbn in Hcr.
    destruct (sending_inv st0 k p Hsend) as [(_ & _ & _ & E)|(_ & _ & _ & E)];
      rewrite E in Hcr; discriminate.
  - destruct H as (_ & ->). destruct (do_check d0 st0). now apply G.
  - destruct H as (_ & _ & ->). destruct (do_write ep d0 st0 wr). now apply G.
  - destruct H as (_ & ->). unfold do_defer in *. cbn in Hcr.
    change (crashed (commit d0 (at_ Done st0,
              [EvClose d0 (c_r st0); EvClose d0 (c_w st0)]) s) = true) in Hcr.
    rewrite commit_crashed, Hc in Hcr. discriminate.
Qed.

Lemma crashed_run_from ep sched : forall s s',
  (crashed s = true ->
   exists d st, worker d s = Some st /\ c_pc st = Panicked) ->
  run_from ep s sched = Some s' -> crashed s' = true ->
  exists d st, worker d s' = Some st /\ c_pc st = Panicked.
Proof.
  induction sched as [|c sched IH]; intros s s' HJ H; cbn in H.
  - now injection H as <-.
  - destruct (step ep s c) as [s1|] eqn:Hs; [|discriminate].
    exact (IH s1 s' (crashed_step ep s c s1 Hs) H).
Qed.

(** X4. The only panic of a datagram session is that of the empty unit. In
    every state a session reaches, each buffer still has the length it was
    made with, the slice [buf[0:n]] of a pending write is in range, a [copy]
    stopped by a panic had read a unit of length 0 without error, and the
    process has ended only if a [copy] panicked. *)
Theorem only_the_empty_unit_panics ep sched s :
  run ep sched = Some s ->
  (forall d st,
     worker d s = Some st ->
     Z.of_nat (length (c_buf st)) = BufferLimit /\
     (c_pc st = AtWrite -> write_request ep st <> None) /\
     (c_pc st = Panicked -> c_n st = 0 /\ c_err st = None)) /\
  (crashed s = true ->
   exists d st, worker d s = Some st /\ c_pc st = Panicked).
Proof.
  intro Hrun. split.
  - intros d st Hw.
    destruct (in_bounds_run ep sched s d st Hrun Hw) as [HL HB].
    split; [exact HL|]. split; intro Hpc; rewrite Hpc in HB; [|exact HB].
    unfold write_request.
    pose proof (slice_in_range (c_buf st) (c_n st) HB) as X.
    destruct (slice (c_buf st) 0 (c_n st)); [discriminate|contradiction].
  - apply (crashed_run_from ep sched (init ep) s); [|exact Hrun].
    unfold init. destruct (is_nil (RemoteAddr ep Con)); discriminate.
Qed.

Lemma empty_first_runs :
  run listener empty_first = Some (state_after listener empty_first) /\
  crashed (state_after listener empty_first) = true.
Proof.
  split; [apply run_state_after with OWait1|]; vm_compute; reflexivity.
Qed.

Lemma only_the_empty_unit_panics_witness :
  exists d st,
    worker d (state_after listener empty_first) = Some st /\
    c_pc st = Panicked.
Proof.
  exact (proj2 (only_the_empty_unit_panics listener empty_first
                  (state_after listener empty_first)
                  (proj1 empty_first_runs))
               (proj2 empty_first_runs)).
Defined.

(** ** Induction on the states a session reaches *)

Lemma run_snoc ep sched c s' :
  run ep (sched ++ [c]) = Some s' ->
  exists s, run ep sched = Some s /\ step ep s c = Some s'.
Proof.
  unfold run. rewrite run_from_app.
  destruct (run_from ep (init ep) sched) as [s|]; [|discriminate].
  cbn. destruct (step ep s c) as [s1|] eqn:E; [|discriminate].
  intros [= <-]. now exists s.
Qed.

Lemma run_ind ep (Q : system -> Prop) :
  Q (init ep) ->
  (forall sched s c s',
     run ep sched = Some s -> Q s -> step ep s c = Some s' -> Q s') ->
  forall sched s, run ep sched = Some s -> Q s.
Proof.
  intros Q0 QS sched. induction sched as [|c sched IH] using rev_ind;
    intros s H.
  - cbn in H. now injection H as <-.
  - apply run_snoc in H as (s0 & H0 & Hs).
    exact (QS sched s0 c s H0 (IH s0 H0) Hs).
Qed.

(** The writes a step adds to the trace. *)
Lemma step_writes ep s c s' :
  step ep s c = Some s' ->
  exists ev,
    trace s' = trace s ++ ev /\
    forall d x to data wr,
      In (EvWrite d x to data wr) ev ->
      exists st,
        c = DoWrite d wr /\ worker d s = Some st /\ c_pc st = AtWrite /\
        write_request ep st = Some (data, to) /\ x = c_w st.
Proof.
  intro Hs. apply step_inv in Hs as (Hc & st0 & Hw & H).
  destruct c as [d0 rr|d0|d0|d0 wr|d0]; cbn [actor_of] in *.
  - destruct H as (_ & _ & ->). unfold do_read.
    destruct (commit_facts d0 (on_read ep st0 rr) [EvRead d0 (c_r st0) rr] s)
      as (_ & _ & _ & F4 & _).
    eexists. split; [exact F4|]. intros ? ? ? ? ? [X|[]]. discriminate.
  - destruct H as (k & p & Hsend & Hrecv).
    destruct (commit_facts d0 (after_send st0) [EvChan d0 k p] s)
      as (F1 & _ & _ & F4 & _).
    set (s1 := commit d0 (after_send st0, [EvChan d0 k p]) s) in *.
    clearbody s1. unfold receive in Hrecv. rewrite F1 in Hrecv.
    destruct (o_pc s); try discriminate; apply some_eq in Hrecv; subst s';
      cbn [trace]; rewrite F4, <- app_assoc;
      (eexists; split; [reflexivity|]);
      intros ? ? ? ? ? X;
      repeat (destruct X as [X|X]; [discriminate|]); destruct X.
  - destruct H as (_ & ->).
    destruct (do_check_shape d0 st0) as (p & ev & -> & _ & Hev).
    destruct (commit_facts d0 (at_ p st0) ev s) as (_ & _ & _ & F4 & _).
    exists ev. split; [exact F4|]. intros ? ? ? ? ? X.
    destruct (Hev _ X) as [(l & Y)|Y]; discriminate.
  - destruct H as (Hpc & _ & ->). unfold do_write.
    destruct (write_request ep st0) as [[data to]|] eqn:Hreq.
    + destruct (on_write st0 wr) as [st1 logs] eqn:How.
      destruct (commit_facts d0 st1
                  (EvWrite d0 (c_w st0) to data wr
                   :: map (EvLog (Worker d0)) logs) s)
        as (_ & _ & _ & F4 & _).
      eexists. split; [exact F4|]. intros d x to' data' wr' [X|X].
      * injection X as <- <- <- <- <-. exists st0. repeat split; auto.
      * apply in_map_iff in X as (l & Y & _). discriminate.
    + destruct (commit_facts d0 (at_ Panicked st0) [EvPanic d0] s)
        as (_ & _ & _ & F4 & _).
      eexists. split; [exact F4|]. intros ? ? ? ? ? [X|[]]. discriminate.
  - destruct H as (_ & ->). unfold do_defer.
    destruct (commit_facts d0 (at_ Done st0)
                [EvClose d0 (c_r st0); EvClose d0 (c_w st0)] s)
      as (_ & _ & _ & F4 & _).
    eexists. split; [exact F4|]. intros ? ? ? ? ? [X|[X|[]]]; discriminate.
Qed.

Lemma step_o_ra ep s c s' :
  step ep s c = Some s' ->
  (o_ra s' = o_ra s /\ forall wr, c = DoWrite Outbound wr -> True) \/
  o_pc s = OWaitAddr.
Proof.
  intro Hs. apply step_inv in Hs as (Hc & st0 & Hw & H).
  destruct c as [d0 rr|d0|d0|d0 wr|d0]; cbn [actor_of] in *.
  - destruct H as (_ & _ & ->). left. split; [now destruct d0|auto].
  - destruct H as (k & p & Hsend & Hrecv).
    destruct (commit_facts d0 (after_send st0) [EvChan d0 k p] s)
      as (F1 & F2 & _).
    set (s1 := commit d0 (after_send st0, [EvChan d0 k p]) s) in *.
    clearbody s1. unfold receive in Hrecv. rewrite F1 in Hrecv.
    destruct (o_pc s); try discriminate; [now right|..];
      apply some_eq in Hrecv; subst s'; left; cbn; auto.
  - destruct H as (_ & ->). destruct (do_check d0 st0). left.
    split; [now destruct d0|auto].
  - destruct H as (_ & _ & ->). destruct (do_write ep d0 st0 wr). left.
    split; [now destruct d0|auto].
  - destruct H as (_ & ->). left. split; [now destruct d0|auto].
Qed.

Lemma slice_length b n data :
  slice b 0 n = Some data -> Z.of_nat (length data) <= Z.of_nat (length b).
Proof.
  unfold slice. destruct (_ && _); [|discriminate]. intros [= <-].
  rewrite length_firstn. change (skipn (Z.to_nat 0) b) with b. lia.
Qed.

(** X5. Where units are written. In every run of a datagram session, a
    unit written by the inbound loop goes to local output with [Write]; a
    unit written by the outbound loop goes to the connection, with [WriteTo]
    and the orchestrator's [ra] when the connection has no remote address,
    with [Write] when it has one; and no unit written is longer than the
    buffer. *)
Theorem units_go_where_they_should ep sched s :
  is_udp ep = true -> run ep sched = Some s ->
  forall d x to data wr,
    In (EvWrite d x to data wr) (trace s) ->
    Z.of_nat (length data) <= BufferLimit /\
    match d with
    | Inbound => x = Stdout /\ to = None
    | Outbound => x = Con /\
                  to = (if is_nil (remote ep) then Some (o_ra s) else None)
    end.
Proof.
  intros Hu. revert sched s.
  apply (run_ind ep (fun s =>
    forall d x to data wr,
      In (EvWrite d x to data wr) (trace s) ->
      Z.of_nat (length data) <= BufferLimit /\
      match d with
      | Inbound => x = Stdout /\ to = None
      | Outbound => x = Con /\
                    to = (if is_nil (remote ep) then Some (o_ra s) else None)
      end)).
  - unfold init. destruct (is_nil (RemoteAddr ep Con)); cbn;
      intros ? ? ? ? ? X;
      repeat (destruct X as [X|X]; [discriminate|]); destruct X.
  - intros sched s c s' Hrun IH Hs d x to data wr Hin.
    pose proof (Inv_run ep sched s Hu Hrun) as HI.
    destruct (step_writes ep s c s' Hs) as (ev & Htr & Hev).
    rewrite Htr in Hin. apply in_app_or in Hin as [Hin|Hin].
    + destruct (IH d x to data wr Hin) as [L M]. split; [exact L|].
      destruct d; [exact M|].
      destruct (step_o_ra ep s c s' Hs) as [[-> _]|Hop]; [exact M|].
      exfalso. pose proof (inv_phase ep s HI) as Hph. rewrite Hop in Hph.
      destruct Hph as (_ & _ & _ & Hno & _).
      specialize (Hno _ Hin). discriminate.
    + destruct (Hev d x to data wr Hin) as (st & -> & Hw & Hpc & Hreq & ->).
      destruct (in_bounds_run ep sched s d st Hrun Hw) as [HL _].
      unfold write_request in Hreq.
      destruct (slice (c_buf st) 0 (c_n st)) as [data'|] eqn:Hsl;
        [|discriminate].
      injection Hreq as <- <-.
      split; [rewrite <- HL; now apply slice_length with (c_n st)|].
      destruct d; cbn in Hw.
      * injection Hw as <-. destruct (inv_in ep s HI) as [_ ->].
        now split.
      * destruct (inv_out ep s HI st Hw) as (_ & -> & Hra & _).
        split; [reflexivity|]. cbn. rewrite Hu, Hra. cbn.
        destruct (step_o_ra ep s _ s' Hs) as [[-> _]|Hop]; [reflexivity|].
        exfalso. pose proof (inv_phase ep s HI) as Hph. rewrite Hop in Hph.
        eapply learning_alone; eauto.
Qed.

Lemma units_go_where_they_should_witness :
  Z.of_nat (length hi) <= BufferLimit /\
  Con = Con /\
  Some (Some A1)
  = (if is_nil (remote listener)
     then Some (o_ra (state_after listener listen_session)) else None).
Proof.
  apply (units_go_where_they_should listener listen_session
           (state_after listener listen_session) eq_refl listen_session_runs
           Outbound Con (Some (Some A1)) hi (mkWrite 3 None)).
  exact (proj2 (proj2 listen_session_writes)).
Defined.

(** X6. A dialled datagram session needs no address report. When the
    connection has a remote address, both loops are started with it at
    once: in every state the session reaches no address-only report has
    been sent, [ra] is that address in the orchestrator and in both loops,
    and the outbound loop is running or has run. *)
Theorem dialled_session_sends_no_report ep a sched s :
  is_udp ep = true -> remote ep = Some a -> run ep sched = Some s ->
  addr_reports (trace s) = [] /\
  o_ra s = Some a /\ c_ra (inb s) = Some a /\
  (exists st, outb s = Some st /\ c_ra st = Some a) /\
  o_pc s <> OWaitAddr.
Proof.
  intros Hu Hr Hrun. pose proof (Inv_run ep sched s Hu Hrun) as HI.
  pose proof (inv_phase ep s HI) as Hph.
  destruct (o_pc s) eqn:Hop.
  { destruct Hph as (X & _). congruence. }
  all: destruct Hph as (Ho & _ & Hra & M); rewrite Hr in M;
    destruct M as (M1 & M2);
    destruct (outb s) as [st|] eqn:Hout; [|congruence];
    destruct (inv_out ep s HI st Hout) as (_ & _ & Hst & _);
    (split; [exact M1|]); (split; [exact M2|]);
    (split; [congruence|]); (split; [|discriminate]);
    exists st; split; [reflexivity|congruence].
Qed.

Lemma dial_session_runs :
  run dialer dial_session = Some (state_after dialer dial_session).
Proof. apply run_state_after with OWait1. vm_compute. reflexivity. Qed.

Lemma dialled_session_sends_no_report_witness :
  addr_reports (trace (state_after dialer dial_session)) = [] /\
  o_ra (state_after dialer dial_session) = Some A1 /\
  c_ra (inb (state_after dialer dial_session)) = Some A1 /\
  (exists st, outb (state_after dialer dial_session) = Some st /\
              c_ra st = Some A1) /\
  o_pc (state_after dialer dial_session) <> OWaitAddr.
Proof.
  exact (dialled_session_sends_no_report dialer A1 dial_session
           (state_after dialer dial_session) eq_refl eq_refl
           dial_session_runs).
Defined.

(** ** The deferred closes *)

Lemma is_closed_app x cl xs :
  is_closed x (cl ++ xs) = is_closed x cl || is_closed x xs.
Proof. unfold is_closed. apply existsb_app. Qed.

Lemma resource_eqb_eq a b : resource_eqb a b = true <-> a = b.
Proof. destruct a, b; cbn; split; intro; try discriminate; auto. Qed.

(** A step that closes nothing and leaves no copy returned. *)
Lemma closes_local d0 st0 st' s s' :
  closes_ok s -> worker d0 s = Some st0 -> c_pc st0 <> Done ->
  (o_pc s' = OWaitAddr -> o_pc s = OWaitAddr) ->
  worker d0 s' = Some st' -> c_pc st' <> Done ->
  worker (other d0) s' = worker (other d0) s ->
  closed s' = closed s ->
  closes_ok s'.
Proof.
  intros (Ha & Hb & Hc) Hw Hpc Hop Hw' Hpc' Hoth Hcl.
  split; [|split].
  - intro E. specialize (Ha (Hop E)). destruct d0; cbn in *; congruence.
  - intros d st Hd HD. rewrite Hcl.
    destruct (dir_cases d0 d) as [-> | ->].
    + congruence.
    + rewrite Hoth in Hd. now apply Hb with (other d0).
  - intros x Hx. rewrite Hcl in Hx.
    destruct (Hc x Hx) as (d & st & Hd & HD & Hxx).
    exists d, st. split; [|now split].
    destruct (dir_cases d0 d) as [-> | ->]; [congruence|].
    now rewrite Hoth.
Qed.

Lemma closes_step ep s c s' :
  closes_ok s -> step ep s c = Some s' -> closes_ok s'.
Proof.
  intros HC Hs. apply step_inv in Hs as (Hcr & st0 & Hw & H).
  destruct c as [d0 rr|d0|d0|d0 wr|d0]; cbn [actor_of] in *.
  - destruct H as (Hpc & _ & ->). unfold do_read.
    destruct (commit_facts d0 (on_read ep st0 rr) [EvRead d0 (c_r st0) rr] s)
      as (F1 & _ & F3 & _ & F5 & F6).
    eapply closes_local; eauto; try congruence.
    rewrite on_read_pc. now destruct (learns ep st0).
  - destruct H as (k & p & Hsend & Hrecv).
    destruct (commit_facts d0 (after_send st0) [EvChan d0 k p] s)
      as (F1 & _ & F3 & _ & F5 & F6).
    set (s1 := commit d0 (after_send st0, [EvChan d0 k p]) s) in *.
    clearbody s1.
    assert (Hp0 : c_pc st0 <> Done /\ c_pc (after_send st0) <> Done).
    { destruct (sending_inv st0 k p Hsend)
        as [(E & _ & _ & ->)|(E & _ & _ & ->)]; rewrite E; cbn;
        split; discriminate. }
    destruct Hp0 as [Hp0 Hp1].
    unfold receive in Hrecv. rewrite F1 in Hrecv.
    destruct (o_pc s) eqn:Hop; try discriminate;
      apply some_eq in Hrecv; subst s'.
    + (* the outbound copy is started *)
      destruct HC as (Ha & Hb & Hc). specialize (Ha Hop).
      destruct d0; cbn in Hw; [injection Hw as <-|congruence].
      cbn in F5, F6. injection F5 as F5. rewrite Ha in F6.
      split; [discriminate|]. split.
      * intros [|] st; cbn; [rewrite F5|]; intros [= <-]; [congruence|].
        discriminate.
      * intros x Hx. cbn in Hx. rewrite F3 in Hx.
        destruct (Hc x Hx) as ([|] & st & Hd & HD & _); cbn in Hd; congruence.
    + eapply closes_local with (d0 := d0) (st' := after_send st0); eauto;
        try discriminate;
        try (rewrite <- F5; now destruct d0);
        try (rewrite <- F6; now destruct d0).
    + eapply closes_local with (d0 := d0) (st' := after_send st0); eauto;
        try discriminate;
        try (rewrite <- F5; now destruct d0);
        try (rewrite <- F6; now destruct d0).
  - destruct H as (Hpc & ->).
    destruct (do_check_shape d0 st0) as (p & ev & -> & Hp & _).
    destruct (commit_facts d0 (at_ p st0) ev s)
      as (F1 & _ & F3 & _ & F5 & F6).
    eapply closes_local; eauto; try congruence.
    destruct Hp as [->|[(-> & _)|(-> & _)]]; discriminate.
  - destruct H as (Hpc & _ & ->).
    destruct (do_write_shape ep d0 st0 wr)
      as (st' & ev & -> & _ & _ & _ & Wpc & _).
    destruct (commit_facts d0 st' ev s) as (F1 & _ & F3 & _ & F5 & F6).
    eapply closes_local; eauto; try congruence.
    destruct Wpc as [E|[E|E]]; rewrite E; discriminate.
  - destruct H as (Hpc & ->). unfold do_defer.
    destruct (commit_facts d0 (at_ Done st0)
                [EvClose d0 (c_r st0); EvClose d0 (c_w st0)] s)
      as (F1 & _ & F3 & _ & F5 & F6).
    set (s1 := commit d0 (at_ Done st0,
                 [EvClose d0 (c_r st0); EvClose d0 (c_w st0)]) s) in *.
    clearbody s1.
    destruct HC as (Ha & Hb & Hc). split; [|split].
    + cbn. rewrite F1. intro E. specialize (Ha E).
      destruct d0; cbn in *; congruence.
    + intros d st Hd HD. cbn [closed close]. rewrite F3, !is_closed_app.
      change (worker d s1 = Some st) in Hd.
      destruct (dir_cases d0 d) as [-> | ->].
      * rewrite F5 in Hd. injection Hd as <-. cbn.
        rewrite (proj2 (resource_eqb_eq (c_r st0) (c_r st0)) eq_refl).
        rewrite (proj2 (resource_eqb_eq (c_w st0) (c_w st0)) eq_refl).
        cbn. rewrite !orb_true_r. now split.
      * rewrite F6 in Hd. destruct (Hb _ _ Hd HD) as [-> ->]. now split.
    + intros x Hx. cbn [closed close] in Hx. rewrite F3, is_closed_app in Hx.
      apply orb_true_iff in Hx as [Hx|Hx].
      * destruct (Hc x Hx) as (d & st & Hd & HD & Hxx).
        exists d, st. split; [|now split].
        change (worker d s1 = Some st).
        destruct (dir_cases d0 d) as [-> | ->]; [congruence|].
        now rewrite F6.
      * exists d0, (at_ Done st0). split; [exact F5|]. split; [reflexivity|].
        cbn in Hx. rewrite orb_false_r in Hx.
        apply orb_true_iff in Hx as [Hx|Hx]; apply resource_eqb_eq in Hx;
          cbn; auto.
Qed.

Lemma closes_init ep : closes_ok (init ep).
Proof.
  unfold init. destruct (is_nil (RemoteAddr ep Con)); cbn;
    (split; [try reflexivity; discriminate|]); split.
  all: try (intros x Hx; discriminate).
  all: intros [|] st; cbn; intros [= <-]; discriminate.
Qed.

Lemma closes_run ep sched s : run ep sched = Some s -> closes_ok s.
Proof.
  revert sched s. apply (run_ind ep closes_ok (closes_init ep)).
  intros sched s c s' _ HC Hs. exact (closes_step ep s c s' HC Hs).
Qed.

(** X7. The deferred closes are the only cancellation. In every state a
    datagram session reaches without a panic, a handle is closed only if a
    [copy] that has returned had it as its reader or writer. Once the inbound [copy] has
    returned, the connection is closed, so any write of the outbound loop
    returns an error and sends it to its final report; once the outbound
    [copy] has returned, any read of the inbound loop returns an error,
    which it examines next. *)
Theorem closing_ends_the_other_loop ep sched s :
  is_udp ep = true -> run ep sched = Some s -> crashed s = false ->
  (forall x,
     is_closed x (closed s) = true ->
     exists d st, worker d s = Some st /\ c_pc st = Done /\
                  (x = c_r st \/ x = c_w st)) /\
  (c_pc (inb s) = Done ->
   forall wr s',
     step ep s (DoWrite Outbound wr) = Some s' ->
     exists e st',
       werr wr = Some e /\ outb s' = Some st' /\ c_pc st' = AtFinal) /\
  (forall sto,
     outb s = Some sto -> c_pc sto = Done ->
     forall rr s',
       step ep s (DoRead Inbound rr) = Some s' ->
       exists e,
         rerr rr = Some e /\ c_err (inb s') = Some e /\
         c_pc (inb s') = AtCheck).
Proof.
  intros Hu Hrun _.
  pose proof (Inv_run ep sched s Hu Hrun) as HI.
  destruct (closes_run ep sched s Hrun) as (_ & Hb & Hc).
  destruct (inv_in ep s HI) as [Hir Hiw].
  split; [exact Hc|]. split.
  - intros HD wr s' Hs.
    destruct (Hb Inbound (inb s) eq_refl HD) as [Hcl _]. rewrite Hir in Hcl.
    apply step_inv in Hs as (_ & st0 & Hw & Hpc & Hok & ->).
    cbn in Hw.
    destruct (inv_out ep s HI st0 Hw) as (_ & Hcw & _ & _).
    destruct (in_bounds_run ep sched s Outbound st0 Hrun Hw) as [_ HB].
    rewrite Hpc in HB. unfold do_write.
    pose proof (slice_in_range (c_buf st0) (c_n st0) HB) as Hsl.
    unfold write_request in *.
    destruct (slice (c_buf st0) 0 (c_n st0)) as [data|]; [|contradiction].
    unfold write_ok in Hok. rewrite Hcw, Hcl in Hok.
    apply andb_true_iff in Hok as [_ Hok].
    unfold on_write. destruct (werr wr) as [e|]; [|discriminate].
    eexists e, _. cbn. repeat split; reflexivity.
  - intros sto Hout HD rr s' Hs.
    destruct (Hb Outbound sto Hout HD) as [_ Hcl].
    destruct (inv_out ep s HI sto Hout) as (_ & Hcw & _ & _).
    rewrite Hcw in Hcl.
    apply step_inv in Hs as (_ & st0 & Hw & Hpc & Hok & ->).
    cbn in Hw. injection Hw as <-.
    unfold read_ok in Hok. rewrite Hir, Hcl in Hok.
    apply andb_true_iff in Hok as [Hok _].
    apply andb_true_iff in Hok as [_ Hok].
    destruct (rerr rr) as [e|] eqn:He; [|discriminate].
    exists e. split; [reflexivity|]. unfold do_read. cbn.
    destruct (on_read_fields ep (inb s) rr) as (_ & _ & _ & _ & Re & _).
    split; [congruence|].
    rewrite on_read_pc, (learns_inbound ep (inb s) Hu Hir).
    assert (Ho : outb s <> None) by congruence.
    now rewrite (relaying_no_learn ep s (relaying_of ep s HI Ho) Hpc).
Qed.

Lemma listen_closed_runs :
  run listener listen_closed = Some (state_after listener listen_closed) /\
  c_pc (inb (state_after listener listen_closed)) = Done /\
  crashed (state_after listener listen_closed) = false.
Proof.
  split; [apply run_state_after with OWait2|split]; vm_compute; reflexivity.
Qed.

Lemma listen_closed_step :
  step listener (state_after listener listen_closed)
       (DoWrite Outbound (mkWrite 0 (Some (ErrOther "closed"))))
  = Some (state_after listener (firstn 17 listen_session)).
Proof.
  assert (H : run listener (firstn 17 listen_session)
              = Some (state_after listener (firstn 17 listen_session))).
  { apply run_state_after with OWait2. vm_compute. reflexivity. }
  change (firstn 17 listen_session)
    with (listen_closed ++
          [DoWrite Outbound (mkWrite 0 (Some (ErrOther "closed")))]) in H at 1.
  apply run_snoc in H as (s0 & H0 & Hs).
  rewrite (proj1 listen_closed_runs) in H0. apply some_eq in H0.
  rewrite H0. exact Hs.
Qed.

Lemma closing_ends_the_other_loop_witness :
  exists e st',
    werr (mkWrite 0 (Some (ErrOther "closed"))) = Some e /\
    outb (state_after listener (firstn 17 listen_session)) = Some st' /\
    c_pc st' = AtFinal.
Proof.
  exact (proj1 (proj2 (closing_ends_the_other_loop listener listen_closed
                         (state_after listener listen_closed) eq_refl
                         (proj1 listen_closed_runs)
                         (proj2 (proj2 listen_closed_runs))))
               (proj1 (proj2 listen_closed_runs))
               (mkWrite 0 (Some (ErrOther "closed")))
               (state_after listener (firstn 17 listen_session))
               listen_closed_step).
Defined.

(** X8. The byte counter wraps. Without any bound on the traffic, the
    count of a final report of a datagram session is the sum of the counts
    of the successful writes of its direction modulo 2^64, and so lies
    between 0 and 2^64. *)
Theorem final_report_wraps ep sched s d p :
  run ep sched = Some s ->
  In (EvChan d FinalCount p) (trace s) ->
  bytes p = uint64 (written d (trace s)) /\ 0 <= bytes p < two64.
Proof.
  intros Hrun Hin.
  pose proof (bytes_run_from ep sched _ s (bytes_init ep) Hrun) as [_ Hb].
  specialize (Hb d). destruct (worker d s) as [st|].
  - destruct Hb as (H1 & _ & H3). destruct (H3 p Hin) as [_ ->].
    rewrite H1. split; [reflexivity|].
    unfold uint64. apply Z.mod_pos_bound. reflexivity.
  - specialize (Hb _ Hin). cbn in Hb. now rewrite dir_eqb_refl in Hb.
Qed.

Lemma final_report_wraps_witness :
  bytes (mkProgress None 3)
  = uint64 (written Outbound (trace (state_after listener listen_session))) /\
  0 <= bytes (mkProgress None 3) < two64.
Proof.
  apply (final_report_wraps listener listen_session
           (state_after listener listen_session) Outbound (mkProgress None 3)
           listen_session_runs).
  vm_compute. tauto.
Defined.

(** ** A stream session comes to its end *)

Lemma streams_run_from_app ep l1 : forall s l2,
  Streams.run_from ep s (l1 ++ l2) =
  match Streams.run_from ep s l1 with
  | Some s' => Streams.run_from ep s' l2
  | None => None
  end.
Proof.
  induction l1 as [|c l1 IH]; intros s l2; cbn; [reflexivity|].
  destruct (Streams.step ep s c); [apply IH|reflexivity].
Qed.

(** X9. A stream session never deadlocks. From every state a stream
    session reaches, letting each pending [io.Copy] return and each pending
    report be sent brings the orchestrator to its return: no send finds the
    channel without a receiver. *)
Theorem stream_session_can_return ep sched s :
  Streams.run ep sched = Some s ->
  exists s',
    Streams.run ep (sched ++ Streams.finish_session s) = Some s' /\
    Streams.returned s' = true.
Proof.
  intro Hrun.
  pose proof (streams_run_from ep sched _ s streams_init Hrun) as [Hcount _].
  unfold Streams.run in *. rewrite streams_run_from_app, Hrun.
  destruct s as [op [ir iw inn ipc] [or ow onn opc] cl tr].
  unfold Streams.count_delivered, Streams.delivered in Hcount.
  cbn in Hcount.
  destruct ipc, opc, op; cbn in Hcount; try discriminate;
    eexists; (split; [cbn; reflexivity|reflexivity]).
Qed.

Lemma stream_session_can_return_witness :
  exists s',
    Streams.run dialer
      ([Streams.DoCopy Inbound 5 None] ++
       Streams.finish_session
         (stream_after dialer [Streams.DoCopy Inbound 5 None])) = Some s' /\
    Streams.returned s' = true.
Proof.
  apply (stream_session_can_return dialer [Streams.DoCopy Inbound 5 None]).
  vm_compute. reflexivity.
Defined.

(** ** [main]: what is started, and with what *)

Lemma starts_not_usage net f :
  startTCPServer net f <> Usage /\ startTCPClient net f <> Usage /\
  startUDPServer net f <> Usage /\ startUDPClient net f <> Usage.
Proof.
  unfold startTCPServer, startTCPClient, startUDPServer, startUDPClient.
  repeat split.
  - destruct (Listen net _ _); [discriminate|].
    destruct (Accept net); discriminate.
  - destruct (Dial net _ _); discriminate.
  - destruct (ResolveUDPAddr net _ _) as [a|]; [|discriminate].
    destruct (ListenUDP net _ a); discriminate.
  - destruct (ResolveUDPAddr net _ _) as [a|]; [|discriminate].
    destruct (DialUDP net _ a); discriminate.
Qed.

(** X10. [main] prints the usage text and starts nothing exactly when the
    protocol is neither tcp nor udp, or when it is not asked to listen and
    no host is given; the network is not consulted for this. In particular
    the default flags give the usage text, and listening needs no host. *)
Theorem usage_exactly_when net f :
  (main net f = Usage <->
   (proto f <> "tcp"%string /\ proto f <> "udp"%string) \/
   (listen f = false /\ host f = EmptyString)) /\
  main net default_flags = Usage.
Proof.
  split; [|reflexivity].
  destruct (starts_not_usage net f) as (H1 & H2 & H3 & H4).
  unfold main.
  destruct (String.eqb_spec (proto f) "tcp") as [Et|Et];
    [|destruct (String.eqb_spec (proto f) "udp") as [Eu|Eu]].
  - destruct (listen f) eqn:El.
    + split; [intro H; contradiction|].
      intros [[H _]|[H _]]; [contradiction|discriminate].
    + destruct (String.eqb_spec (host f) EmptyString) as [Eh|Eh]; cbn.
      * split; auto.
      * split; [intro H; contradiction|].
        intros [[H _]|[_ H]]; contradiction.
  - destruct (listen f) eqn:El.
    + split; [intro H; contradiction|].
      intros [[_ H]|[H _]]; [contradiction|discriminate].
    + destruct (String.eqb_spec (host f) EmptyString) as [Eh|Eh]; cbn.
      * split; auto.
      * split; [intro H; contradiction|].
        intros [[_ H]|[_ H]]; contradiction.
  - split; auto.
Qed.

(** X11. When [main] starts the datagram engine, the protocol is udp and
    the connection is a UDP one. Asked to listen, it resolved the port
    alone and the connection has no remote address, whatever host was
    given; otherwise a host was given, and the remote address of the
    connection is the one [host+port] resolved to. *)
Theorem datagram_engine_endpoint net f logs ep :
  main net f = RunPackets logs ep ->
  proto f = "udp"%string /\ is_udp ep = true /\
  if listen f then
    remote ep = None /\ logs = [LogListening ("udp" ++ port f)] /\
    exists addr, ResolveUDPAddr net "udp" (port f) = inl addr /\
                 ListenUDP net "udp" addr = None
  else
    host f <> EmptyString /\ logs = [LogSending (host f ++ port f)] /\
    exists addr, ResolveUDPAddr net "udp" (host f ++ port f) = inl addr /\
                 DialUDP net "udp" addr = None /\ remote ep = Some addr.
Proof.
  unfold main. intro H.
  destruct (String.eqb_spec (proto f) "tcp") as [Et|Et].
  - exfalso. revert H.
    unfold startTCPServer, startTCPClient.
    destruct (listen f).
    + destruct (Listen net _ _); [discriminate|].
      destruct (Accept net); discriminate.
    + destruct (negb _); [|discriminate].
      destruct (Dial net _ _); discriminate.
  - destruct (String.eqb_spec (proto f) "udp") as [Eu|Eu]; [|discriminate H].
    split; [exact Eu|].
    destruct (listen f).
    + unfold startUDPServer in H. rewrite Eu in H.
      destruct (ResolveUDPAddr net _ _) as [a|] eqn:Er; [|discriminate H].
      destruct (ListenUDP net _ a) eqn:Ed; [discriminate H|].
      inversion H; subst. cbn [is_udp remote].
      repeat split. exists a. split; first [reflexivity|assumption].
    + destruct (String.eqb_spec (host f) EmptyString) as [Eh|Eh];
        cbn [negb] in H; [discriminate H|].
      unfold startUDPClient in H. rewrite Eu in H.
      destruct (ResolveUDPAddr net _ _) as [a|] eqn:Er; [|discriminate H].
      destruct (DialUDP net _ a) eqn:Ed; [discriminate H|].
      inversion H; subst. cbn [is_udp remote].
      repeat split; [exact Eh|].
      exists a. repeat split; first [reflexivity|assumption].
Qed.

Lemma datagram_engine_endpoint_witness :
  main fair_weather (mkFlags "peer" "udp" false ":53")
  = RunPackets [LogSending "peer:53"] (mkEndpoint true (Some A2)) /\
  exists addr, ResolveUDPAddr fair_weather "udp" "peer:53" = inl addr /\
               remote (mkEndpoint true (Some A2)) = Some addr.
Proof.
  split; [reflexivity|].
  destruct (datagram_engine_endpoint fair_weather
              (mkFlags "peer" "udp" false ":53")
              [LogSending "peer:53"] (mkEndpoint true (Some A2))
              eq_refl) as (_ & _ & _ & _ & addr & Hr & _ & Ha).
  exists addr. split; [exact Hr|exact Ha].
Defined.

(** X12. When [main] starts the stream engine, the protocol is tcp and the
    connection is not a UDP one; it has a remote address: that of the
    accepted connection when asked to listen (the host is then ignored),
    and otherwise that of the connection dialled to [host+port], with a
    host given. *)
Theorem stream_engine_endpoint net f logs ep :
  main net f = RunStreams logs ep ->
  proto f = "tcp"%string /\ is_udp ep = false /\
  exists ra, remote ep = Some ra /\
  if listen f then
    Listen net "tcp" (port f) = None /\ Accept net = inl ra /\
    logs = [LogListening ("tcp" ++ port f); LogOpened (Some ra)]
  else
    host f <> EmptyString /\ Dial net "tcp" (host f ++ port f) = inl ra /\
    logs = [LogConnected (host f ++ port f)].
Proof.
  unfold main. intro H.
  destruct (String.eqb_spec (proto f) "tcp") as [Et|Et].
  - split; [exact Et|].
    destruct (listen f).
    + unfold startTCPServer in H. rewrite Et in H.
      destruct (Listen net _ _) eqn:El; [discriminate H|].
      destruct (Accept net) as [ra|] eqn:Ea; [|discriminate H].
      inversion H; subst. cbn [is_udp remote].
      split; [reflexivity|]. exists ra.
      repeat split; first [reflexivity|assumption].
    + destruct (String.eqb_spec (host f) EmptyString) as [Eh|Eh];
        cbn [negb] in H; [discriminate H|].
      unfold startTCPClient in H. rewrite Et in H.
      destruct (Dial net _ _) as [ra|] eqn:Ed; [|discriminate H].
      inversion H; subst. cbn [is_udp remote].
      split; [reflexivity|]. exists ra.
      repeat split; first [reflexivity|assumption].
  - exfalso. revert H.
    destruct (String.eqb (proto f) "udp"); [|discriminate].
    unfold startUDPServer, startUDPClient.
    destruct (listen f).
    + destruct (ResolveUDPAddr net _ _) as [a|]; [|discriminate].
      destruct (ListenUDP net _ a); discriminate.
    + destruct (negb _); [|discriminate].
      destruct (ResolveUDPAddr net _ _) as [a|]; [|discriminate].
      destruct (DialUDP net _ a); discriminate.
Qed.

Lemma stream_engine_endpoint_witness :
  main fair_weather (mkFlags "ignored" "tcp" true ":9999")
  = RunStreams [LogListening "tcp:9999"; LogOpened (Some A1)]
               (mkEndpoint false (Some A1)) /\
  exists ra, Accept fair_weather = inl ra.
Proof.
  split; [reflexivity|].
  destruct (stream_engine_endpoint fair_weather
              (mkFlags "ignored" "tcp" true ":9999")
              [LogListening "tcp:9999"; LogOpened (Some A1)]
              (mkEndpoint false (Some A1))
              eq_refl) as (_ & _ & ra & _ & _ & Ha & _).
  exists ra. exact Ha.
Defined.

(** ** The closing lines of a session *)

Lemma final_reports_app tr ev :
  final_reports (tr ++ ev) = final_reports tr ++ final_reports ev.
Proof. apply flat_map_app. Qed.

Lemma closing_lines_app tr ev :
  closing_lines (tr ++ ev) = closing_lines tr ++ closing_lines ev.
Proof. apply flat_map_app. Qed.

Lemma silent_events ev :
  (forall e, In e ev -> silent e) ->
  final_reports ev = [] /\ closing_lines ev = [].
Proof.
  induction ev as [|e ev IH]; intro H; [now split|].
  destruct IH as [I1 I2]; [intros; apply H; now right|].
  specialize (H e (or_introl eq_refl)).
  change (e :: ev) with ([e] ++ ev).
  rewrite final_reports_app, closing_lines_app, I1, I2.
  destruct e; try contradiction; try (now split).
  destruct a; [contradiction|now split].
Qed.

(** What a step adds to the final reports and to the closing lines. *)
Lemma step_lines ep s c s' :
  Inv ep s -> step ep s c = Some s' ->
  exists ev,
    trace s' = trace s ++ ev /\
    ((final_reports ev = [] /\ closing_lines ev = [] /\
      ((o_pc s' = o_pc s /\ o_ra s' = o_ra s) \/
       (o_pc s = OWaitAddr /\ o_pc s' = OWait1))) \/
     (exists d n,
        final_reports ev = [(d, n)] /\ o_ra s' = o_ra s /\
        ((o_pc s = OWait1 /\ o_pc s' = OWait2 /\
          closing_lines ev = [LogReceived (o_ra s) n]) \/
         (o_pc s = OWait2 /\ o_pc s' = OReturned /\
          closing_lines ev = [LogSent (o_ra s) n])))).
Proof.
  intros HI Hs. apply step_inv in Hs as (Hc & st0 & Hw & H).
  destruct c as [d0 rr|d0|d0|d0 wr|d0]; cbn [actor_of] in *.
  - destruct H as (_ & _ & ->). unfold do_read.
    destruct (commit_facts d0 (on_read ep st0 rr) [EvRead d0 (c_r st0) rr] s)
      as (F1 & F2 & _ & F4 & _).
    eexists. split; [exact F4|]. left. cbn. auto.
  - destruct H as (k & p & Hsend & Hrecv).
    destruct (commit_facts d0 (after_send st0) [EvChan d0 k p] s)
      as (F1 & F2 & _ & F4 & _).
    set (s1 := commit d0 (after_send st0, [EvChan d0 k p]) s) in *.
    clearbody s1. unfold receive in Hrecv. rewrite F1, F2 in Hrecv.
    pose proof (inv_phase ep s HI) as Hph.
    destruct (sending_inv st0 k p Hsend)
      as [(Hpc & -> & -> & _)|(Hpc & -> & -> & _)].
    + (* the address-only report *)
      assert (Hop : o_pc s = OWaitAddr).
      { destruct (o_pc s) eqn:Hop; [reflexivity|..];
          exfalso; destruct Hph as (_ & Hnr & _);
          (destruct d0; cbn in Hw;
           [injection Hw as <-; contradiction
           |destruct (inv_out ep s HI st0 Hw) as (_ & _ & _ & X);
            contradiction]). }
      rewrite Hop in Hrecv. apply some_eq in Hrecv. subst s'.
      cbn [trace o_pc o_ra]. rewrite F4, <- app_assoc.
      eexists. split; [reflexivity|]. left. cbn. auto.
    + (* a final report *)
      destruct (o_pc s) eqn:Hop; try discriminate Hrecv.
      * exfalso. destruct Hph as (_ & Hnone & _ & _ & Hin).
        destruct d0; cbn in Hw; [|congruence].
        injection Hw as <-.
        destruct Hin as [(X & _)|(X & _)]; congruence.
      * apply some_eq in Hrecv. subst s'.
        cbn [trace o_pc o_ra]. rewrite F4, <- app_assoc.
        eexists. split; [reflexivity|]. right.
        exists d0, (bytes (final_report st0)).
        split; [reflexivity|]. split; [reflexivity|]. left. now repeat split.
      * apply some_eq in Hrecv. subst s'.
        cbn [trace o_pc o_ra]. rewrite F4, <- app_assoc.
        eexists. split; [reflexivity|]. right.
        exists d0, (bytes (final_report st0)).
        split; [reflexivity|]. split; [reflexivity|]. right. now repeat split.
  - destruct H as (_ & ->).
    destruct (do_check_shape d0 st0) as (p & ev & -> & _ & Hev).
    destruct (commit_facts d0 (at_ p st0) ev s) as (F1 & F2 & _ & F4 & _).
    exists ev. split; [exact F4|]. left.
    destruct (silent_events ev) as [Q1 Q2].
    { intros e He. destruct (Hev e He) as [(l & ->)| ->]; exact I. }
    auto.
  - destruct H as (_ & _ & ->).
    destruct (do_write_shape ep d0 st0 wr) as (st1 & ev & -> & _ & _ & _ & _ & Hev).
    destruct (commit_facts d0 st1 ev s) as (F1 & F2 & _ & F4 & _).
    exists ev. split; [exact F4|]. left.
    destruct (silent_events ev) as [Q1 Q2].
    { intros e He.
      destruct (Hev e He) as [(l & ->)|[ -> |(data & ->)]]; exact I. }
    auto.
  - destruct H as (_ & ->). unfold do_defer.
    destruct (commit_facts d0 (at_ Done st0)
                [EvClose d0 (c_r st0); EvClose d0 (c_w st0)] s)
      as (F1 & F2 & _ & F4 & _).
    eexists. split; [exact F4|]. left. cbn. auto.
Qed.

(** X13. The closing lines of a datagram session are labelled by arrival,
    not by direction. In every state a session reaches, the orchestrator
    has logged one line for each final report sent so far: the count of
    the first report to arrive, whichever loop sent it, as the bytes
    received, and the count of the second as the bytes sent; and it has
    taken as many final reports as were sent, two at most. *)
Theorem closing_lines_follow_arrival ep sched s :
  is_udp ep = true -> run ep sched = Some s ->
  closing_lines (trace s)
  = labelled (o_ra s) (map snd (final_reports (trace s))) /\
  length (final_reports (trace s)) = taken (o_pc s).
Proof.
  intros Hu. revert sched s.
  apply (run_ind ep (fun s =>
    closing_lines (trace s)
    = labelled (o_ra s) (map snd (final_reports (trace s))) /\
    length (final_reports (trace s)) = taken (o_pc s))).
  - unfold init. destruct (is_nil (RemoteAddr ep Con)); now split.
  - intros sched s c s' Hrun [IH1 IH2] Hs.
    pose proof (Inv_run ep sched s Hu Hrun) as HI.
    destruct (step_lines ep s c s' HI Hs) as (ev & -> & Hev).
    rewrite final_reports_app, closing_lines_app.
    destruct Hev as [(E1 & E2 & Hop)|(d & n & E1 & Hra & Hop)];
      rewrite E1.
    + rewrite E2, !app_nil_r.
      destruct Hop as [[-> ->]|[Hop ->]]; [now split|].
      rewrite Hop in IH2. cbn in IH2.
      destruct (final_reports (trace s)); [|discriminate IH2].
      cbn in IH1. rewrite IH1. now split.
    + rewrite Hra, length_app, IH2, map_app.
      destruct Hop as [(Hop & -> & ->)|(Hop & -> & ->)];
        rewrite Hop in IH2 |- *; cbn in IH2.
      * destruct (final_reports (trace s)); [|discriminate IH2].
        cbn in IH1. rewrite IH1. now split.
      * destruct (final_reports (trace s)) as [|[d1 a] [|? ?]];
          try discriminate IH2.
        cbn in IH1. rewrite IH1. now split.
Qed.

Lemma outbound_first_runs :
  run dialer outbound_first = Some (state_after dialer outbound_first).
Proof. apply run_state_after with OWait2. vm_compute. reflexivity. Qed.

Lemma closing_lines_follow_arrival_witness :
  closing_lines (trace (state_after dialer outbound_first))
  = labelled (o_ra (state_after dialer outbound_first))
      (map snd (final_reports (trace (state_after dialer outbound_first)))) /\
  length (final_reports (trace (state_after dialer outbound_first)))
  = taken (o_pc (state_after dialer outbound_first)).
Proof.
  exact (closing_lines_follow_arrival dialer outbound_first
           (state_after dialer outbound_first) eq_refl outbound_first_runs).
Defined.

(** The three bytes the outbound loop sent are logged as received. *)
Example sent_bytes_logged_as_received :
  final_reports (trace (state_after dialer outbound_first)) = [(Outbound, 3)] /\
  closing_lines (trace (state_after dialer outbound_first))
  = [LogReceived (Some A1) 3] /\
  written Inbound (trace (state_after dialer outbound_first)) = 0.
Proof. vm_compute. repeat split. Qed.

Lemma streams_step_lines ep s c s' :
  Streams.step ep s c = Some s' ->
  exists ev,
    Streams.trace s' = Streams.trace s ++ ev /\
    ((final_reports ev = [] /\ closing_lines ev = [] /\
      Streams.o_pc s' = Streams.o_pc s) \/
     (exists d n,
        final_reports ev = [(d, n)] /\
        ((Streams.o_pc s = Streams.OWait1 /\
          Streams.o_pc s' = Streams.OWait2 /\
          closing_lines ev = [LogClosedByPeer (RemoteAddr ep Con) n]) \/
         (Streams.o_pc s = Streams.OWait2 /\
          Streams.o_pc s' = Streams.OReturned /\
          closing_lines ev = [LogSent (RemoteAddr ep Con) n])))).
Proof.
  intro Hs. destruct c as [d n err|d|d]; unfold Streams.step in Hs;
    destruct (Streams.c_pc (Streams.worker d s)) eqn:Hpc; try discriminate Hs.
  - destruct (Streams.copy_ok n err); [|discriminate Hs].
    apply some_eq in Hs. subst s'. unfold Streams.do_copy.
    match goal with |- context [Streams.commit d (?x, ?y) s] =>
      destruct (streams_commit_facts d x y s) as (F1 & F2 & _) end.
    eexists. split; [exact F2|]. left.
    split; [now destruct err|]. split; [now destruct err|exact F1].
  - unfold Streams.do_send in Hs.
    match type of Hs with context [Streams.commit d (?x, ?y) s] =>
      destruct (streams_commit_facts d x y s) as (F1 & F2 & _);
      set (s1 := Streams.commit d (x, y) s) in *; clearbody s1 end.
    unfold Streams.receive in Hs. rewrite F1 in Hs.
    destruct (Streams.o_pc s) eqn:Hop; try discriminate Hs;
      apply some_eq in Hs; subst s'; cbn [Streams.trace Streams.o_pc];
      rewrite F2, <- app_assoc; (eexists; split; [reflexivity|]); right;
      exists d, (bytes (Streams.final_report (Streams.worker d s)));
      (split; [reflexivity|]); [left|right]; now repeat split.
  - apply some_eq in Hs. subst s'. unfold Streams.do_defer.
    match goal with |- context [Streams.commit d (?x, ?y) s] =>
      destruct (streams_commit_facts d x y s) as (F1 & F2 & _) end.
    eexists. split; [exact F2|]. left. cbn. auto.
Qed.

Lemma streams_lines_run_from ep sched : forall s s',
  closing_lines (Streams.trace s)
  = Streams.labelled (RemoteAddr ep Con)
      (map snd (final_reports (Streams.trace s))) /\
  length (final_reports (Streams.trace s)) = Streams.taken (Streams.o_pc s) ->
  Streams.run_from ep s sched = Some s' ->
  closing_lines (Streams.trace s')
  = Streams.labelled (RemoteAddr ep Con)
      (map snd (final_reports (Streams.trace s'))) /\
  length (final_reports (Streams.trace s')) = Streams.taken (Streams.o_pc s').
Proof.
  induction sched as [|c sched IH]; intros s s' HQ H; cbn in H.
  - now injection H as <-.
  - destruct (Streams.step ep s c) as [s1|] eqn:Hs; [|discriminate H].
    apply (IH s1 s'); [|exact H]. clear IH H.
    destruct HQ as [IH1 IH2].
    destruct (streams_step_lines ep s c s1 Hs) as (ev & -> & Hev).
    rewrite final_reports_app, closing_lines_app.
    destruct Hev as [(E1 & E2 & ->)|(d & n & E1 & Hop)]; rewrite E1.
    + rewrite E2, !app_nil_r. now split.
    + rewrite length_app, IH2, map_app.
      destruct Hop as [(Hop & -> & ->)|(Hop & -> & ->)];
        rewrite Hop in IH2 |- *; cbn in IH2.
      * destruct (final_reports (Streams.trace s)); [|discriminate IH2].
        cbn in IH1. rewrite IH1. now split.
      * destruct (final_reports (Streams.trace s)) as [|[d1 a] [|? ?]];
          try discriminate IH2.
        cbn in IH1. rewrite IH1. now split.
Qed.

(** X14. The closing lines of a stream session are labelled by arrival
    too. In every state a stream session reaches, the count of the first
    final report to arrive, whichever [copy] sent it, is logged as received
    before the remote peer closed, and the count of the second as sent;
    the orchestrator has taken as many reports as were sent. *)
Theorem stream_lines_follow_arrival ep sched s :
  Streams.run ep sched = Some s ->
  closing_lines (Streams.trace s)
  = Streams.labelled (RemoteAddr ep Con)
      (map snd (final_reports (Streams.trace s))) /\
  length (final_reports (Streams.trace s)) = Streams.taken (Streams.o_pc s).
Proof.
  apply streams_lines_run_from. now split.
Qed.

Lemma stream_lines_follow_arrival_witness :
  closing_lines (Streams.trace (stream_after tcp_peer stream_outbound_first))
  = [LogClosedByPeer (Some A1) 7] /\
  final_reports (Streams.trace (stream_after tcp_peer stream_outbound_first))
  = [(Outbound, 7)].
Proof.
  destruct (stream_lines_follow_arrival tcp_peer stream_outbound_first
              (stream_after tcp_peer stream_outbound_first) eq_refl) as [H _].
  split; [exact H|reflexivity].
Defined.

(** * The byte counts, the address report and the closes *)

(** ** What is written and what is counted *)

Lemma transferred_app d tr ev :
  transferred d (tr ++ ev) = transferred d tr + transferred d ev.
Proof.
  unfold transferred. induction tr as [|e tr IH]; simpl; [reflexivity|].
  destruct e; try exact IH. destruct (dir_eqb d d0); lia.
Qed.

(** The count a write returns is within the unit it was given. *)
Lemma writes_in_range ep sched s :
  run ep sched = Some s ->
  forall d x to data wr,
    In (EvWrite d x to data wr) (trace s) ->
    0 <= wn wr <= Z.of_nat (length data).
Proof.
  revert sched s.
  apply (run_ind ep (fun s =>
    forall d x to data wr,
      In (EvWrite d x to data wr) (trace s) ->
      0 <= wn wr <= Z.of_nat (length data))).
  - unfold init. destruct (is_nil (RemoteAddr ep Con)); cbn;
      intros ? ? ? ? ? X;
      repeat (destruct X as [X|X]; [discriminate|]); destruct X.
  - intros sched s c s' Hrun IH Hs d x to data wr Hin.
    destruct (step_writes ep s c s' Hs) as (ev & Htr & Hev).
    rewrite Htr in Hin. apply in_app_or in Hin as [Hin|Hin].
    + exact (IH d x to data wr Hin).
    + destruct (Hev d x to data wr Hin) as (st & -> & Hw & Hpc & Hreq & ->).
      apply step_inv in Hs as (_ & st0 & Hw0 & _ & Hok & _).
      cbn [actor_of] in Hw0. rewrite Hw in Hw0. injection Hw0 as <-.
      rewrite Hreq in Hok. unfold write_ok in Hok.
      apply andb_true_iff in Hok as [Hok _].
      apply andb_true_iff in Hok as [H1 H2].
      apply Z.leb_le in H1, H2. lia.
Qed.

Lemma written_le_transferred d tr :
  (forall d' x to data wr, In (EvWrite d' x to data wr) tr -> 0 <= wn wr) ->
  written d tr <= transferred d tr /\
  (no_partial_write d tr -> written d tr = transferred d tr).
Proof.
  induction tr as [|e tr IH]; intro Hpos.
  - split; [reflexivity|]. intros _. reflexivity.
  - destruct IH as [IH1 IH2].
    { intros d' x to data wr Hin. apply (Hpos d' x to data wr). now right. }
    change (e :: tr) with ([e] ++ tr).
    rewrite written_app, transferred_app.
    destruct e as [| | d' x to data wr | | | | | |];
      try (split; [exact IH1|]; intro Hn; apply IH2;
           intros x0 to0 data0 wr0 Hin; apply (Hn x0 to0 data0 wr0);
           now right).
    assert (Hwn : 0 <= wn wr)
      by (apply (Hpos d' x to data wr); now left).
    set (W := written d tr) in *. set (T := transferred d tr) in *.
    unfold written, transferred. cbn [fold_right].
    destruct (dir_eqb d d') eqn:Ed; cbn [andb].
    + apply dir_eqb_eq in Ed. subst d'.
      destruct (werr wr) as [e|] eqn:He; cbn [is_nil].
      * split; [lia|]. intro Hn.
        assert (H0 : wn wr = 0).
        { apply (Hn x to data wr); [now left|congruence]. }
        rewrite IH2; [lia|].
        intros x0 to0 data0 wr0 Hin. apply (Hn x0 to0 data0 wr0). now right.
      * split; [lia|]. intro Hn. rewrite IH2; [lia|].
        intros x0 to0 data0 wr0 Hin. apply (Hn x0 to0 data0 wr0). now right.
    + split; [lia|]. intro Hn. rewrite IH2; [lia|].
      intros x0 to0 data0 wr0 Hin. apply (Hn x0 to0 data0 wr0). now right.
Qed.

(** A number of equal units, each written in full, and what the loop has
    counted and written after them. *)
Lemma loop_repeat ep d rr wr rest (k : nat) :
  forwardable rr -> werr wr = None ->
  forall st,
    0 <= c_bytes st < two64 ->
    exists st' ev,
      loop ep d (repeat (mkRound rr wr) k ++ rest) st
      = (fst (loop ep d rest st'), ev ++ snd (loop ep d rest st')) /\
      c_bytes st' = uint64 (c_bytes st + wn wr * Z.of_nat k) /\
      transferred d ev = wn wr * Z.of_nat k /\
      no_partial_write d ev.
Proof.
  intros Hfw Hw. induction k as [|k IH]; intros st Hrange.
  - exists st, []. cbn [repeat app].
    split; [now destruct (loop ep d rest st)|].
    split; [|split; [cbn; lia|intros ? ? ? ? []]].
    rewrite Z.mul_0_r, Z.add_0_r. symmetry. now apply uint64_small.
  - cbn [repeat app].
    rewrite (loop_forward ep d st rr wr (repeat (mkRound rr wr) k ++ rest) Hfw).
    rewrite Hw. cbn [fst snd].
    set (st1 := fst (on_write (at_ AtWrite (after_send (on_read ep st rr))) wr)).
    assert (Hb : c_bytes st1 = uint64 (c_bytes st + uint64 (wn wr))).
    { unfold st1, on_write. rewrite Hw. cbn [fst c_bytes at_].
      destruct (after_send_read ep st rr) as (_ & _ & _ & _ & _ & _ & _ & Hy).
      now rewrite Hy. }
    assert (Hr1 : 0 <= c_bytes st1 < two64).
    { rewrite Hb. unfold uint64. apply Z.mod_pos_bound. reflexivity. }
    destruct (IH st1 Hr1) as (st' & ev & E & Hb' & Ht & Hn).
    rewrite E. cbn [fst snd].
    eexists st', _. split; [rewrite app_assoc; reflexivity|].
    split; [|split].
    + rewrite Hb', Hb, uint64_add.
      replace (c_bytes st + uint64 (wn wr) + wn wr * Z.of_nat k)
        with (c_bytes st + wn wr * Z.of_nat k + uint64 (wn wr)) by lia.
      rewrite uint64_add_r. f_equal. lia.
    + rewrite !transferred_app, Ht. unfold transferred. cbn [fold_right].
      rewrite dir_eqb_refl. destruct (learns ep st); cbn [fold_right]; lia.
    + intros x to data w Hin Herr.
      apply in_app_or in Hin as [Hin|Hin]; [|exact (Hn x to data w Hin Herr)].
      exfalso. destruct (learns ep st); cbn in Hin;
        repeat (destruct Hin as [Hin|Hin];
                [try discriminate Hin; injection Hin as <- <- <- <-;
                 congruence|]);
        destruct Hin.
Qed.

(** The same units followed by a read that meets the end of the input:
    what the final report carries and what has been written. *)
Lemma copy_repeat ep d rr wr (k : nat) st :
  forwardable rr -> werr wr = None -> 0 <= c_bytes st < two64 ->
  In (EvChan d FinalCount
        (mkProgress None (uint64 (c_bytes st + wn wr * Z.of_nat k))))
     (snd (copy ep d st (repeat (mkRound rr wr) k ++ [mkRound hung_up wr])))
  /\
  transferred d
    (snd (copy ep d st (repeat (mkRound rr wr) k ++ [mkRound hung_up wr])))
  = wn wr * Z.of_nat k /\
  no_partial_write d
    (snd (copy ep d st (repeat (mkRound rr wr) k ++ [mkRound hung_up wr]))).
Proof.
  intros Hfw Hw Hrange.
  change (snd (copy ep d st (repeat (mkRound rr wr) k ++ [mkRound hung_up wr])))
    with (snd (summary (copy ep d st
                          (repeat (mkRound rr wr) k ++ [mkRound hung_up wr])))).
  rewrite summary_copy. cbn [snd].
  destruct (loop_repeat ep d rr wr [mkRound hung_up wr] k Hfw Hw st Hrange)
    as (st' & ev & E & Hb & Ht & Hn).
  rewrite E. cbn [fst snd]. rewrite loop_step. cbn [i_read i_write].
  destruct (arrive_check ep d st' hung_up)
    as (st2 & -> & Hpc & _ & _ & _ & _ & _ & He & Hy).
  unfold do_check. rewrite (check_error st2 EOF He).
  cbn [c_pc at_ is_EOF map app fst snd].
  assert (Hf : snd (finish d (at_ AtFinal st2))
               = [EvChan d FinalCount (mkProgress None (c_bytes st2));
                  EvClose d (c_r st2); EvClose d (c_w st2)]).
  { change (snd (finish d (at_ AtFinal st2)))
      with (snd (summary (finish d (at_ AtFinal st2)))).
    now rewrite finish_final. }
  rewrite Hf, Hy, Hb.
  split; [|split].
  - apply in_or_app. right. now left.
  - rewrite !transferred_app, Ht. unfold transferred.
    destruct (learns ep st'); cbn [fold_right app]; lia.
  - intros x to data w Hin Herr.
    apply in_app_or in Hin as [Hin|Hin].
    + apply in_app_or in Hin as [Hin|Hin]; [exact (Hn x to data w Hin Herr)|].
      exfalso. destruct (learns ep st'); cbn in Hin;
        repeat (destruct Hin as [Hin|Hin]; [discriminate Hin|]); destruct Hin.
    + exfalso. cbn in Hin.
      repeat (destruct Hin as [Hin|Hin]; [discriminate Hin|]); destruct Hin.
Qed.

(** C7. The byte count of a final report and the bytes transferred. In a
    datagram session the count of a final report is the sum, modulo 2^64,
    of the counts returned by the writes of its direction that returned no
    error. That sum is never more than the bytes the writes of the
    direction have written; the two are equal, and equal to the count
    reported, when no write returned an error after writing part of its
    unit and the total is below 2^64. In a stream session the count is the
    one [io.Copy] returned. *)
Theorem final_report_counts_bytes :
  (forall ep sched s d p,
     run ep sched = Some s ->
     In (EvChan d FinalCount p) (trace s) ->
     bytes p = uint64 (written d (trace s)) /\
     0 <= written d (trace s) <= transferred d (trace s) /\
     (no_partial_write d (trace s) -> transferred d (trace s) < two64 ->
      bytes p = transferred d (trace s))) /\
  (forall ep sched s d p,
     Streams.run ep sched = Some s ->
     In (EvChan d FinalCount p) (Streams.trace s) ->
     bytes p = Streams.copied d (Streams.trace s)).
Proof.
  split.
  - intros ep sched s d p Hrun Hin.
    pose proof (bytes_run_from ep sched _ s (bytes_init ep) Hrun) as [_ Hb].
    specialize (Hb d). destruct (worker d s) as [st|].
    + destruct Hb as (H1 & H2 & H3). destruct (H3 p Hin) as [_ Hp].
      destruct (written_le_transferred d (trace s)) as [L1 L2].
      { intros d' x to data wr Hw.
        apply (writes_in_range ep sched s Hrun d' x to data wr Hw). }
      split; [congruence|]. split; [lia|].
      intros Hn Hlt. rewrite Hp, H1, (L2 Hn).
      apply uint64_small. rewrite <- (L2 Hn). lia.
    + specialize (Hb _ Hin). cbn in Hb. now destruct d.
  - intros ep sched s d p Hrun Hin.
    pose proof (streams_run_from ep sched _ s streams_init Hrun) as [_ Hacc].
    destruct (Hacc d) as (H1 & H2 & _ & H4). destruct (H4 p Hin) as [_ ->].
    rewrite <- H1. apply uint64_small. unfold two64. lia.
Qed.

Lemma final_report_counts_bytes_witness :
  (bytes (mkProgress None 6)
   = uint64 (written Inbound (trace (state_after listener listen_session))) /\
   0 <= written Inbound (trace (state_after listener listen_session))
     <= transferred Inbound (trace (state_after listener listen_session))) /\
  bytes (mkProgress None 5)
  = Streams.copied Outbound (Streams.trace (stream_after dialer stream_session)).
Proof.
  split.
  - destruct (proj1 final_report_counts_bytes listener listen_session
                (state_after listener listen_session) Inbound
                (mkProgress None 6) listen_session_runs) as (H1 & H2 & _).
    + vm_compute. tauto.
    + split; [exact H1|exact H2].
  - apply (proj2 final_report_counts_bytes dialer stream_session
             (stream_after dialer stream_session) Outbound (mkProgress None 5)
             stream_session_runs).
    vm_compute. tauto.
Defined.

(** C7, as stated, fails in two ways. A write may return a count together
    with an error: local output takes two bytes of a unit of three and
    fails; the two bytes are written, the loop ends without counting them,
    and the final report carries 0. And the counter has 64 bits: after
    2^63 units of three bytes, each written in full, the final report
    carries 2^63, not the 3 * 2^63 bytes that were written. *)
Lemma final_count_misses_bytes :
  (run dialer short_write = Some (state_after dialer short_write) /\
   In (EvWrite Inbound Stdout None hi
         (mkWrite 2 (Some (ErrOther "no space left on device"))))
      (trace (state_after dialer short_write)) /\
   transferred Inbound (trace (state_after dialer short_write)) = 2 /\
   In (EvChan Inbound FinalCount (mkProgress None 0))
      (trace (state_after dialer short_write))) /\
  (In (EvChan Inbound FinalCount (mkProgress None (2 ^ 63)))
      (snd (copy dialer Inbound (spawn Con Stdout (Some A1)) flood)) /\
   transferred Inbound
     (snd (copy dialer Inbound (spawn Con Stdout (Some A1)) flood))
   = 3 * 2 ^ 63 /\
   no_partial_write Inbound
     (snd (copy dialer Inbound (spawn Con Stdout (Some A1)) flood))).
Proof.
  split.
  - split; [apply run_state_after with OWait2; vm_compute; reflexivity|].
    split; [vm_compute; tauto|]. split; [vm_compute; reflexivity|].
    vm_compute. tauto.
  - assert (Hfw : forwardable (mkRead hi (Some A1) None)).
    { repeat split; cbn; discriminate. }
    assert (Hrange : 0 <= c_bytes (spawn Con Stdout (Some A1)) < two64).
    { cbn. unfold two64. lia. }
    destruct (copy_repeat dialer Inbound (mkRead hi (Some A1) None)
                (mkWrite 3 None) (Z.to_nat (2 ^ 63))
                (spawn Con Stdout (Some A1)) Hfw eq_refl Hrange)
      as (H1 & H2 & H3).
    assert (HK : Z.of_nat (Z.to_nat (2 ^ 63)) = 2 ^ 63)
      by (apply Z2Nat.id; lia).
    cbn [wn] in H1, H2. rewrite HK in H1, H2.
    unfold flood. split; [|split; [exact H2|exact H3]].
    replace (2 ^ 63)
      with (uint64 (c_bytes (spawn Con Stdout (Some A1)) + 3 * 2 ^ 63))
      at 1 by reflexivity.
    exact H1.
Qed.

(** ** The address the outbound loop is started with *)

(** The reads a step adds to the trace. *)
Lemma step_reads ep s c s' :
  step ep s c = Some s' ->
  exists ev,
    trace s' = trace s ++ ev /\
    forall d x rr,
      In (EvRead d x rr) ev ->
      exists st,
        c = DoRead d rr /\ worker d s = Some st /\ x = c_r st /\
        read_ok ep (closed s) st rr = true.
Proof.
  intro Hs. apply step_inv in Hs as (Hc & st0 & Hw & H).
  destruct c as [d0 rr|d0|d0|d0 wr|d0]; cbn [actor_of] in *.
  - destruct H as (_ & Hok & ->). unfold do_read.
    destruct (commit_facts d0 (on_read ep st0 rr) [EvRead d0 (c_r st0) rr] s)
      as (_ & _ & _ & F4 & _).
    eexists. split; [exact F4|]. intros d x rr' [X|[]].
    injection X as <- <- <-. exists st0. repeat split; assumption.
  - destruct H as (k & p & Hsend & Hrecv).
    destruct (commit_facts d0 (after_send st0) [EvChan d0 k p] s)
      as (F1 & _ & _ & F4 & _).
    set (s1 := commit d0 (after_send st0, [EvChan d0 k p]) s) in *.
    clearbody s1. unfold receive in Hrecv. rewrite F1 in Hrecv.
    destruct (o_pc s); try discriminate; apply some_eq in Hrecv; subst s';
      cbn [trace]; rewrite F4, <- app_assoc;
      (eexists; split; [reflexivity|]);
      intros ? ? ? X;
      repeat (destruct X as [X|X]; [discriminate|]); destruct X.
  - destruct H as (_ & ->).
    destruct (do_check_shape d0 st0) as (p & ev & -> & _ & Hev).
    destruct (commit_facts d0 (at_ p st0) ev s) as (_ & _ & _ & F4 & _).
    exists ev. split; [exact F4|]. intros ? ? ? X.
    destruct (Hev _ X) as [(l & Y)|Y]; discriminate.
  - destruct H as (_ & _ & ->).
    destruct (do_write_shape ep d0 st0 wr)
      as (st1 & ev & -> & _ & _ & _ & _ & Hev).
    destruct (commit_facts d0 st1 ev s) as (_ & _ & _ & F4 & _).
    exists ev. split; [exact F4|]. intros ? ? ? X.
    destruct (Hev _ X) as [(l & Y)|[Y|(data & Y)]]; discriminate.
  - destruct H as (_ & ->). unfold do_defer.
    destruct (commit_facts d0 (at_ Done st0)
                [EvClose d0 (c_r st0); EvClose d0 (c_w st0)] s)
      as (_ & _ & _ & F4 & _).
    eexists. split; [exact F4|]. intros ? ? ? [X|[X|[]]]; discriminate.
Qed.

(** A datagram the inbound loop has read without error came with its
    sender: the promise of [ReadFrom]. *)
Lemma senders_known ep sched s :
  is_udp ep = true -> run ep sched = Some s ->
  forall x rr,
    In (EvRead Inbound x rr) (trace s) -> rerr rr = None -> raddr rr <> None.
Proof.
  intros Hu. revert sched s.
  apply (run_ind ep (fun s =>
    forall x rr,
      In (EvRead Inbound x rr) (trace s) -> rerr rr = None ->
      raddr rr <> None)).
  - unfold init. destruct (is_nil (RemoteAddr ep Con)); cbn;
      intros ? ? X;
      repeat (destruct X as [X|X]; [discriminate|]); destruct X.
  - intros sched s c s' Hrun IH Hs x rr Hin Herr.
    pose proof (Inv_run ep sched s Hu Hrun) as HI.
    destruct (step_reads ep s c s' Hs) as (ev & Htr & Hev).
    rewrite Htr in Hin. apply in_app_or in Hin as [Hin|Hin].
    + exact (IH x rr Hin Herr).
    + destruct (Hev Inbound x rr Hin) as (st & _ & Hw & _ & Hok).
      cbn in Hw. injection Hw as <-.
      destruct (inv_in ep s HI) as [Hr _].
      unfold read_ok in Hok. apply andb_true_iff in Hok as [_ Hok].
      rewrite Hr, Herr in Hok. cbn in Hok. rewrite Hu in Hok. cbn in Hok.
      now destruct (raddr rr).
Qed.

Lemma first_read_sender tr x :
  first_sender tr = Some x ->
  exists y rr,
    first_read tr = Some rr /\ x = raddr rr /\ In (EvRead Inbound y rr) tr.
Proof.
  unfold first_sender, first_read. intro H.
  destruct (find _ tr) as [e|] eqn:F; [|discriminate H].
  apply find_some in F as [Hin Hf].
  destruct e as [|d y rr| | | | | | |]; try discriminate H.
  destruct d; [|discriminate Hf].
  injection H as <-. exists y, rr. repeat split. exact Hin.
Qed.

(** C5. In a listening datagram session every event of the outbound loop,
    its start included, comes after the address-only report of the inbound
    loop: the trace before it holds exactly one such report, and the
    address it carries is the one the outbound loop is started with and
    sends to. That address is the sender of the first read of the inbound
    loop. It is an address when that read returned no error; when the
    read failed it may be nil, and the outbound loop is started and sends
    with nil all the same. *)
Theorem outbound_starts_after_report ep sched s :
  is_udp ep = true -> remote ep = None -> run ep sched = Some s ->
  forall pre e post,
    trace s = pre ++ e :: post -> acts Outbound e = true ->
    exists x rr,
      In (EvChan Inbound AddressOnly (mkProgress x 0)) pre /\
      addr_reports pre = [x] /\ uses x e /\
      first_read (trace s) = Some rr /\ x = raddr rr /\
      (rerr rr = None -> x <> None).
Proof.
  intros Hu Hr Hrun pre e post E Ha.
  pose proof (order_run ep sched s Hu Hr Hrun) as [HF HO].
  pose proof (Inv_run ep sched s Hu Hrun) as HI.
  destruct (HO pre e post E Ha) as [H1 H2].
  assert (Hrel : relaying ep s).
  { pose proof (inv_phase ep s HI) as Hph.
    destruct (o_pc s) eqn:Hop; try exact Hph.
    exfalso. destruct Hph as (_ & _ & _ & Hno & _).
    assert (Hin : In e (trace s))
      by (rewrite E; apply in_or_app; right; now left).
    specialize (Hno e Hin). congruence. }
  destruct Hrel as (_ & _ & _ & M). rewrite Hr in M.
  destruct M as (_ & Hfs & _).
  destruct (first_read_sender (trace s) (o_ra s) Hfs) as (y & rr & R1 & R2 & R3).
  exists (o_ra s), rr.
  split; [|split; [exact H1|split; [exact H2|split; [exact R1|split;
            [exact R2|]]]]].
  - assert (Hin : In (o_ra s) (addr_reports pre)) by (rewrite H1; now left).
    apply addr_reports_in in Hin as (d & p & Hp & Hx).
    assert (Hp' : In (EvChan d AddressOnly p) (trace s)).
    { rewrite E. apply in_or_app. now left. }
    destruct (HF _ Hp') as [-> Hb]. destruct p as [a b]. cbn in *. now subst.
  - intro Herr. rewrite R2.
    exact (senders_known ep sched s Hu Hrun y rr R3 Herr).
Qed.

Lemma outbound_starts_after_report_witness :
  exists x rr,
    In (EvChan Inbound AddressOnly (mkProgress x 0)) listen_before /\
    addr_reports listen_before = [x] /\ uses x listen_write /\
    first_read (trace (state_after listener listen_session)) = Some rr /\
    x = raddr rr /\ (rerr rr = None -> x <> None).
Proof.
  exact (outbound_starts_after_report listener listen_session
           (state_after listener listen_session) eq_refl eq_refl
           listen_session_runs listen_before listen_write listen_afterwards
           listen_session_split eq_refl).
Defined.

(** C5, as stated, fails when the first read of a listening session
    fails: the report carries no address, the outbound loop is started all
    the same, and its first send is attempted with no peer address known,
    by [WriteTo] with nil. *)
Lemma outbound_sends_to_no_address :
  run listener blind_reply = Some (state_after listener blind_reply) /\
  addr_reports (trace (state_after listener blind_reply)) = [None] /\
  o_ra (state_after listener blind_reply) = None /\
  In (EvWrite Outbound Con (Some None) hi
        (mkWrite 0 (Some (ErrOther "missing address"))))
     (trace (state_after listener blind_reply)).
Proof.
  split; [apply run_state_after with OWait1; vm_compute; reflexivity|].
  split; [vm_compute; reflexivity|]. split; [vm_compute; reflexivity|].
  vm_compute. tauto.
Qed.

(** ** The end of a direction and the connection *)

Lemma run_step ep sched s c s' :
  run ep sched = Some s -> step ep s c = Some s' ->
  run ep (sched ++ [c]) = Some s'.
Proof.
  intros Hrun Hs. unfold run in *. rewrite run_from_app, Hrun.
  cbn [run_from]. now rewrite Hs.
Qed.

(** A [copy] at its final report finds the orchestrator at a receive. *)
Lemma final_has_receiver ep s d st :
  Inv ep s -> worker d s = Some st -> c_pc st = AtFinal ->
  o_pc s = OWait1 \/ o_pc s = OWait2.
Proof.
  intros HI Hw Hpc. pose proof (inv_phase ep s HI) as Hph.
  pose proof (inv_count ep s HI) as Hcount.
  destruct (o_pc s) eqn:Hop; [exfalso|now left|now right|exfalso].
  - destruct Hph as (_ & Hnone & _ & _ & Hin).
    destruct d; cbn in Hw; [|congruence]. injection Hw as <-.
    destruct Hin as [(X & _)|(X & _)]; congruence.
  - apply count_two in Hcount as (D1 & sto & Hout & D2).
    unfold delivered in D1, D2. destruct d; cbn in Hw.
    + injection Hw as <-. now rewrite Hpc in D1.
    + assert (sto = st) by congruence. subst. now rewrite Hpc in D2.
Qed.

Lemma final_send_step ep s d st :
  crashed s = false -> worker d s = Some st -> c_pc st = AtFinal ->
  o_pc s = OWait1 \/ o_pc s = OWait2 ->
  exists s',
    step ep s (DoSend d) = Some s' /\
    crashed s' = false /\ worker d s' = Some (at_ AtDefer st) /\
    worker (other d) s' = worker (other d) s /\ closed s' = closed s /\
    trace s' = trace s ++
               EvChan d FinalCount (mkProgress None (c_bytes st)) ::
               closing (o_pc s) (o_ra s) (c_bytes st).
Proof.
  intros Hc Hw Hpc Hop. unfold step. rewrite Hc. cbn [actor_of]. rewrite Hw.
  unfold step_worker, do_send, sending, after_send. rewrite Hpc.
  destruct (commit_facts d (at_ AtDefer st)
              [EvChan d FinalCount (final_report st)] s)
    as (F1 & F2 & F3 & F4 & F5 & F6).
  assert (F7 : crashed (commit d (at_ AtDefer st,
                                 [EvChan d FinalCount (final_report st)]) s)
               = false)
    by (rewrite commit_crashed, Hc; reflexivity).
  set (s1 := commit d (at_ AtDefer st,
                       [EvChan d FinalCount (final_report st)]) s) in *.
  clearbody s1. unfold receive. rewrite F1, F2.
  destruct Hop as [Hop|Hop]; rewrite Hop; eexists;
    (split; [reflexivity|]); cbn [crashed closed trace closing];
    (split; [exact F7|]);
    (split; [destruct d; exact F5|]);
    (split; [destruct d; exact F6|]);
    (split; [exact F3|]);
    rewrite F4, <- app_assoc; reflexivity.
Qed.

Lemma defer_step ep s d st :
  crashed s = false -> worker d s = Some st -> c_pc st = AtDefer ->
  exists s',
    step ep s (DoDefer d) = Some s' /\
    crashed s' = false /\ worker d s' = Some (at_ Done st) /\
    worker (other d) s' = worker (other d) s /\
    closed s' = closed s ++ [c_r st; c_w st] /\
    trace s' = trace s ++ [EvClose d (c_r st); EvClose d (c_w st)].
Proof.
  intros Hc Hw Hpc. unfold step. rewrite Hc. cbn [actor_of]. rewrite Hw.
  unfold step_worker, do_defer. rewrite Hpc.
  eexists. split; [reflexivity|].
  destruct d; cbn; rewrite Hc; repeat split; reflexivity.
Qed.

(** Once the connection is closed, the inbound loop can only read an
    error and the outbound loop can only write with an error; either ends
    its loop. *)
Lemma closed_connection ep sched s :
  is_udp ep = true -> run ep sched = Some s ->
  is_closed Con (closed s) = true ->
  (forall rr s',
     step ep s (DoRead Inbound rr) = Some s' ->
     exists e,
       rerr rr = Some e /\ c_err (inb s') = Some e /\
       c_pc (inb s') = AtCheck) /\
  (forall wr s',
     step ep s (DoWrite Outbound wr) = Some s' ->
     exists e st',
       werr wr = Some e /\ outb s' = Some st' /\ c_pc st' = AtFinal).
Proof.
  intros Hu Hrun Hcl.
  pose proof (Inv_run ep sched s Hu Hrun) as HI.
  destruct (inv_in ep s HI) as [Hir Hiw].
  assert (Hrel : relaying ep s).
  { destruct (closes_run ep sched s Hrun) as (Hw0 & _ & Hc).
    destruct (Hc Con Hcl) as (d & st & Hw & Hpc & _).
    pose proof (inv_phase ep s HI) as Hph.
    destruct (o_pc s) eqn:Hop; try exact Hph.
    exfalso. destruct Hph as (_ & Hnone & _ & _ & Hin).
    destruct d; cbn in Hw; [|congruence]. injection Hw as <-.
    destruct Hin as [(X & _)|(X & _)]; congruence. }
  split.
  - intros rr s' Hs.
    apply step_inv in Hs as (_ & st0 & Hw & Hpc & Hok & ->).
    cbn in Hw. injection Hw as <-.
    unfold read_ok in Hok. rewrite Hir, Hcl in Hok.
    apply andb_true_iff in Hok as [Hok _].
    apply andb_true_iff in Hok as [_ Hok].
    destruct (rerr rr) as [e|] eqn:He; [|discriminate].
    exists e. split; [reflexivity|]. unfold do_read. cbn.
    destruct (on_read_fields ep (inb s) rr) as (_ & _ & _ & _ & Re & _).
    split; [congruence|].
    rewrite on_read_pc, (learns_inbound ep (inb s) Hu Hir).
    now rewrite (relaying_no_learn ep s Hrel Hpc).
  - intros wr s' Hs.
    apply step_inv in Hs as (_ & st0 & Hw & Hpc & Hok & ->).
    cbn in Hw.
    destruct (inv_out ep s HI st0 Hw) as (_ & Hcw & _ & _).
    destruct (in_bounds_run ep sched s Outbound st0 Hrun Hw) as [_ HB].
    rewrite Hpc in HB. unfold do_write.
    pose proof (slice_in_range (c_buf st0) (c_n st0) HB) as Hsl.
    unfold write_request in *.
    destruct (slice (c_buf st0) 0 (c_n st0)) as [data|]; [|contradiction].
    unfold write_ok in Hok. rewrite Hcw, Hcl in Hok.
    apply andb_true_iff in Hok as [_ Hok].
    unfold on_write. destruct (werr wr) as [e|]; [|discriminate].
    eexists e, _. cbn. repeat split; reflexivity.
Qed.

(** A [copy] that stands at its final report sends it and closes its
    handles; the connection is one of them. *)
Lemma direction_ends ep sched s d st :
  is_udp ep = true -> run ep sched = Some s -> crashed s = false ->
  worker d s = Some st -> c_pc st = AtFinal ->
  exists s',
    run ep (sched ++ [DoSend d; DoDefer d]) = Some s' /\
    crashed s' = false /\ worker d s' = Some (at_ Done st) /\
    worker (other d) s' = worker (other d) s /\
    trace s' = trace s ++
               EvChan d FinalCount (mkProgress None (c_bytes st)) ::
               closing (o_pc s) (o_ra s) (c_bytes st) ++
               [EvClose d (c_r st); EvClose d (c_w st)] /\
    is_closed Con (closed s') = true.
Proof.
  intros Hu Hrun Hc Hw Hpc.
  pose proof (Inv_run ep sched s Hu Hrun) as HI.
  pose proof (final_has_receiver ep s d st HI Hw Hpc) as Hop.
  destruct (final_send_step ep s d st Hc Hw Hpc Hop)
    as (s1 & S1 & C1 & W1 & O1 & L1 & T1).
  destruct (defer_step ep s1 d (at_ AtDefer st) C1 W1 eq_refl)
    as (s2 & S2 & C2 & W2 & O2 & L2 & T2).
  exists s2. split; [|split; [exact C2|split; [exact W2|split; [|split]]]].
  - change [DoSend d; DoDefer d] with ([DoSend d] ++ [DoDefer d]).
    rewrite app_assoc.
    exact (run_step ep _ s1 _ s2 (run_step ep sched s _ s1 Hrun S1) S2).
  - now rewrite O2, O1.
  - rewrite T2, T1. cbn [c_r c_w at_]. rewrite <- app_assoc. reflexivity.
  - rewrite L2, is_closed_app. cbn [c_r c_w at_].
    apply orb_true_iff. right.
    destruct d; cbn in Hw.
    + injection Hw as <-. destruct (inv_in ep s HI) as [-> _]. reflexivity.
    + destruct (inv_out ep s HI st Hw) as (_ & -> & _).
      cbn. apply orb_true_iff. right. reflexivity.
Qed.

(** The orchestrator's lines are not events of a [copy]. *)
Lemma own_events_closing d p ra n : filter (acts d) (closing p ra n) = [].
Proof. now destruct p. Qed.

(** C8. In a datagram-session copy loop a read that fails ends its
    direction: the run goes on to the final report and the deferred
    closes. An end of data is not logged; any other error is logged once,
    with [ra] as it stands after the read (the sender just learned, which
    may be nil, on the first read of a listening endpoint). In a session
    the failure does not stop the process and reaches the orchestrator in
    no other way than the final report, which carries the byte count and
    no error: [TransferPackets] has no result. The variables of the other
    direction are left as they are, but the failure does not stay in its
    direction: the closes shut the connection, so that from then on the
    inbound loop can only read an error and the outbound loop can only
    write with one. *)
Theorem read_failure_ends_direction ep d st rr wr rest e :
  rerr rr = Some e ->
  summary (copy ep d st (mkRound rr wr :: rest)) =
  (Done,
   [EvRead d (c_r st) rr] ++
   (if learns ep st
    then [EvChan d AddressOnly (mkProgress (raddr rr) 0)] else []) ++
   (if is_EOF e then []
    else [EvLog (Worker d)
                (LogError (if learns ep st then raddr rr else c_ra st) e)]) ++
   [EvChan d FinalCount (mkProgress None (c_bytes st));
    EvClose d (c_r st); EvClose d (c_w st)])
  /\
  forall sched s st',
    is_udp ep = true -> run ep sched = Some s -> crashed s = false ->
    worker d s = Some st' -> c_pc st' = AtCheck -> c_err st' = Some e ->
    exists s',
      run ep (sched ++ [DoCheck d; DoSend d; DoDefer d]) = Some s' /\
      crashed s' = false /\
      worker d s' = Some (at_ Done st') /\
      worker (other d) s' = worker (other d) s /\
      filter (acts d) (trace s') =
      filter (acts d) (trace s) ++
      (if is_EOF e then []
       else [EvLog (Worker d) (LogError (c_ra st') e)]) ++
      [EvChan d FinalCount (mkProgress None (c_bytes st'));
       EvClose d (c_r st'); EvClose d (c_w st')] /\
      is_closed Con (closed s') = true /\
      (forall rr' s'',
         step ep s' (DoRead Inbound rr') = Some s'' ->
         exists e',
           rerr rr' = Some e' /\ c_err (inb s'') = Some e' /\
           c_pc (inb s'') = AtCheck) /\
      (forall wr' s'',
         step ep s' (DoWrite Outbound wr') = Some s'' ->
         exists e' st'',
           werr wr' = Some e' /\ outb s'' = Some st'' /\
           c_pc st'' = AtFinal).
Proof.
  intro Herr. split.
  - rewrite summary_copy, loop_step. cbn [i_read i_write].
    destruct (arrive_check ep d st rr)
      as (st2 & -> & Hpc & Hr & Hw & Hra & Hb & Hn & He & Hy).
    unfold do_check. rewrite (check_error st2 e) by congruence.
    cbn. unfold final_report. cbn. rewrite Hr, Hw, Hy, Hra.
    destruct (is_EOF e); cbn; now rewrite ?app_nil_r, <- ?app_assoc.
  - intros sched s st' Hu Hrun Hc Hw Hpc He.
    pose proof (check_step ep s d st' Hc Hw Hpc) as S1.
    unfold do_check in S1. rewrite (check_error st' e He) in S1.
    cbn [c_pc at_ app] in S1. rewrite app_nil_r in S1.
    match type of S1 with _ = Some (commit d (?x, ?y) s) =>
      destruct (commit_facts d x y s) as (F1 & F2 & F3 & F4 & F5 & F6);
      pose proof (commit_crashed d x y s) as F7;
      set (s1 := commit d (x, y) s) in * end.
    rewrite Hc in F7. cbn [c_pc at_ orb] in F7. clearbody s1.
    pose proof (run_step ep sched s _ s1 Hrun S1) as Hrun1.
    destruct (direction_ends ep _ s1 d (at_ AtFinal st') Hu Hrun1 F7 F5
                eq_refl) as (s' & Hrun' & C' & W' & O' & T' & L').
    exists s'.
    split; [|split; [exact C'|split; [exact W'|split; [|split; [|split]]]]].
    + rewrite <- app_assoc in Hrun'. exact Hrun'.
    + now rewrite O', F6.
    + rewrite T', F4, !filter_app. cbn [c_bytes c_r c_w at_].
      change (EvChan d FinalCount (mkProgress None (c_bytes st')) ::
              closing (o_pc s1) (o_ra s1) (c_bytes st') ++
              [EvClose d (c_r st'); EvClose d (c_w st')])
        with ([EvChan d FinalCount (mkProgress None (c_bytes st'))] ++
              closing (o_pc s1) (o_ra s1) (c_bytes st') ++
              [EvClose d (c_r st'); EvClose d (c_w st')]).
      rewrite !filter_app, own_events_closing, <- app_assoc.
      cbn [app]. f_equal.
      destruct (is_EOF e); cbn; rewrite dir_eqb_refl; reflexivity.
    + exact L'.
    + exact (closed_connection ep _ s' Hu Hrun' L').
Qed.

Lemma refused_start_run :
  run listener refused_start = Some (state_after listener refused_start).
Proof. apply run_state_after with OWait1. vm_compute. reflexivity. Qed.

Lemma read_failure_ends_direction_witness :
  summary (copy listener Inbound (spawn Con Stdout None)
             [mkRound refused (mkWrite 0 None)]) =
  (Done,
   [EvRead Inbound Con refused;
    EvChan Inbound AddressOnly (mkProgress None 0);
    EvLog (Worker Inbound) (LogError None (ErrOther "refused"));
    EvChan Inbound FinalCount (mkProgress None 0);
    EvClose Inbound Con; EvClose Inbound Stdout]) /\
  exists s',
    run listener
      (refused_start ++ [DoCheck Inbound; DoSend Inbound; DoDefer Inbound])
    = Some s' /\
    crashed s' = false /\
    worker Outbound s' = worker Outbound (state_after listener refused_start) /\
    is_closed Con (closed s') = true.
Proof.
  destruct refused_start_runs as (H1 & H2 & H3).
  destruct (read_failure_ends_direction listener Inbound
              (spawn Con Stdout None) refused (mkWrite 0 None) []
              (ErrOther "refused") eq_refl) as [W1 W2].
  split; [exact W1|].
  destruct (W2 refused_start (state_after listener refused_start)
              (inb (state_after listener refused_start)) eq_refl
              refused_start_run H1 eq_refl H2 H3)
    as (s' & R1 & R2 & _ & R4 & _ & R6 & _).
  exists s'. repeat split; assumption.
Defined.

Lemma input_ends_runs :
  run dialer input_ends = Some (state_after dialer input_ends) /\
  is_closed Con (closed (state_after dialer input_ends)) = true.
Proof.
  split; [apply run_state_after with OWait2|]; vm_compute; reflexivity.
Qed.

(** C8, as stated, fails: a read failure does not end its own direction
    only. Local input ends, the most ordinary of read failures; the
    outbound loop reports and closes its handles, the connection among
    them. The inbound loop, which had done nothing yet, can then read
    nothing but an error, and with it the session returns. *)
Lemma end_of_input_ends_receiving :
  run dialer input_ends = Some (state_after dialer input_ends) /\
  c_pc (inb (state_after dialer input_ends)) = AtRead /\
  step dialer (state_after dialer input_ends)
       (DoRead Inbound (mkRead hi (Some A1) None)) = None /\
  (forall rr s',
     step dialer (state_after dialer input_ends) (DoRead Inbound rr)
     = Some s' ->
     exists e,
       rerr rr = Some e /\ c_err (inb s') = Some e /\
       c_pc (inb s') = AtCheck) /\
  option_map returned
    (run dialer (input_ends ++
                 [DoRead Inbound on_closed; DoCheck Inbound; DoSend Inbound]))
  = Some true.
Proof.
  destruct input_ends_runs as [H1 H2].
  split; [exact H1|]. split; [vm_compute; reflexivity|].
  split; [vm_compute; reflexivity|].
  split; [|vm_compute; reflexivity].
  exact (proj1 (closed_connection dialer input_ends
                  (state_after dialer input_ends) eq_refl H1 H2)).
Qed.

(** ** The marker and the connection *)

(** C9, as the code has it. In a datagram session whose outbound loop is
    running, a unit made of the marker and one more byte ends the inbound
    loop: the read and its examination lead to the final report, with the
    byte count as it was, nothing written and nothing logged. No step of
    the inbound loop changes the variables of the outbound loop. But the
    outbound loop is not left unaffected: once the inbound [copy] has sent
    its report and run its deferred closes the connection is closed, and
    every write the outbound loop attempts from then on returns an error
    and ends it. *)
Theorem marker_ends_inbound_and_closes ep sched s rr b :
  is_udp ep = true -> run ep sched = Some s -> crashed s = false ->
  outb s <> None -> c_pc (inb s) = AtRead ->
  read_ok ep (closed s) (inb s) rr = true ->
  rerr rr = None -> rdata rr = UDPDisconnectSequence ++ [b] ->
  (exists s',
     run ep (sched ++ [DoRead Inbound rr; DoCheck Inbound]) = Some s' /\
     c_pc (inb s') = AtFinal /\ c_bytes (inb s') = c_bytes (inb s) /\
     trace s' = trace s ++ [EvRead Inbound Con rr] /\
     outb s' = outb s /\ crashed s' = false /\ o_pc s' = o_pc s /\
     closed s' = closed s) /\
  (forall sched1 s1 c s2,
     run ep sched1 = Some s1 -> step ep s1 c = Some s2 ->
     actor_of c = Inbound -> outb s1 <> None -> outb s2 = outb s1) /\
  (exists s3,
     run ep (sched ++ [DoRead Inbound rr; DoCheck Inbound;
                       DoSend Inbound; DoDefer Inbound]) = Some s3 /\
     c_pc (inb s3) = Done /\ outb s3 = outb s /\ crashed s3 = false /\
     filter (acts Inbound) (trace s3) =
     filter (acts Inbound) (trace s) ++
     [EvRead Inbound Con rr;
      EvChan Inbound FinalCount (mkProgress None (c_bytes (inb s)));
      EvClose Inbound Con; EvClose Inbound Stdout] /\
     is_closed Con (closed s3) = true /\
     forall wr s4,
       step ep s3 (DoWrite Outbound wr) = Some s4 ->
       exists e st',
         werr wr = Some e /\ outb s4 = Some st' /\ c_pc st' = AtFinal).
Proof.
  intros Hu Hrun Hc Ho Hpc Hok Herr Hdata.
  pose proof (Inv_run ep sched s Hu Hrun) as HI.
  destruct (inv_in ep s HI) as [Hr Hwo].
  assert (P1 : exists s',
     run ep (sched ++ [DoRead Inbound rr; DoCheck Inbound]) = Some s' /\
     c_pc (inb s') = AtFinal /\ c_bytes (inb s') = c_bytes (inb s) /\
     trace s' = trace s ++ [EvRead Inbound Con rr] /\
     outb s' = outb s /\ crashed s' = false /\ o_pc s' = o_pc s /\
     closed s' = closed s /\ o_ra s' = o_ra s /\
     c_r (inb s') = Con /\ c_w (inb s') = Stdout).
  { pose proof (relaying_no_learn ep s (relaying_of ep s HI Ho) Hpc) as Hnl.
    pose proof (on_read_pc ep (inb s) rr) as Rpc.
    rewrite (learns_inbound ep (inb s) Hu Hr), Hnl in Rpc.
    destruct (on_read_fields ep (inb s) rr) as (Rr & Rw & Rb & Rn & Re & Ry).
    set (st1 := on_read ep (inb s) rr) in *.
    set (s1 := commit Inbound (do_read ep Inbound (inb s) rr) s).
    assert (S1 : step ep s (DoRead Inbound rr) = Some s1)
      by (now apply read_step).
    assert (C1 : crashed s1 = false).
    { unfold s1, do_read. cbn. fold st1. now rewrite Hc, Rpc. }
    assert (M : on_check st1 = (at_ AtFinal st1, [])).
    { apply check_marker with (rdata rr) (c_buf (inb s)); try congruence.
      rewrite Hdata. reflexivity. }
    assert (S2 : step ep s1 (DoCheck Inbound)
                 = Some (commit Inbound (do_check Inbound st1) s1))
      by (now apply check_step).
    unfold do_check in S2. rewrite M in S2. cbn [map app c_pc at_] in S2.
    eexists. split.
    { unfold run in *. rewrite run_from_app, Hrun. cbn [run_from].
      rewrite S1, S2. reflexivity. }
    unfold s1, do_read. cbn. fold st1.
    rewrite Hc, Rpc, Ry, Rr, Rw, Hr, Hwo, app_nil_r.
    repeat split; reflexivity. }
  destruct P1 as (s' & R1 & R2 & R3 & R4 & R5 & R6 & R7 & R8 & R9 & R10 & R11).
  split; [exists s'; repeat split; assumption|]. split.
  - intros sched1 s1 c s2 Hrun1 Hs Hact Ho1.
    destruct (outb s1) as [st|] eqn:E; [|contradiction].
    exact (inbound_step_frame ep s1 c s2 st (Inv_run ep sched1 s1 Hu Hrun1)
             Hs Hact E).
  - destruct (direction_ends ep _ s' Inbound (inb s') Hu R1 R6 eq_refl R2)
      as (s3 & Hrun3 & C3 & W3 & O3 & T3 & L3).
    exists s3. cbn [worker other] in W3, O3. apply some_eq in W3.
    split; [|split; [|split; [|split; [exact C3|split; [|split;
              [exact L3|]]]]]].
    + rewrite <- app_assoc in Hrun3. exact Hrun3.
    + now rewrite W3.
    + now rewrite O3, R5.
    + rewrite T3, R4, R3, R10, R11.
      change (EvChan Inbound FinalCount (mkProgress None (c_bytes (inb s))) ::
              closing (o_pc s') (o_ra s') (c_bytes (inb s)) ++
              [EvClose Inbound Con; EvClose Inbound Stdout])
        with ([EvChan Inbound FinalCount (mkProgress None (c_bytes (inb s)))]
              ++ closing (o_pc s') (o_ra s') (c_bytes (inb s)) ++
              [EvClose Inbound Con; EvClose Inbound Stdout]).
      rewrite !filter_app, own_events_closing, <- app_assoc. reflexivity.
    + exact (proj2 (closed_connection ep _ s3 Hu Hrun3 L3)).
Qed.

Lemma marker_ends_inbound_and_closes_witness :
  exists s3,
    run listener (listen_start ++
                  [DoRead Inbound (mkRead bye (Some A2) None); DoCheck Inbound;
                   DoSend Inbound; DoDefer Inbound])
    = Some s3 /\
    c_pc (inb s3) = Done /\
    outb s3 = outb (state_after listener listen_start) /\
    crashed s3 = false /\
    is_closed Con (closed s3) = true.
Proof.
  destruct listen_start_state as (H1 & H2 & H3 & H4).
  assert (Ho : outb (state_after listener listen_start) <> None).
  { intro E. rewrite E in H2. discriminate H2. }
  destruct (proj2 (proj2 (marker_ends_inbound_and_closes listener listen_start
                            (state_after listener listen_start)
                            (mkRead bye (Some A2) None) x0a
                            eq_refl listen_start_runs H1 Ho H3 H4 eq_refl
                            eq_refl)))
    as (s3 & R1 & R2 & R3 & R4 & _ & R6 & _).
  exists s3. repeat split; assumption.
Defined.

(** C9, as stated, fails in two ways. A unit that is exactly the two bytes
    of the marker does not end the inbound loop: the comparison drops its
    last byte, the unit is written to local output and the loop is back at
    its read. And when a unit of the marker and a newline has ended the
    inbound loop, the outbound loop is not unaffected: with the connection
    closed by the inbound [copy], the write of the line it has read cannot
    succeed, and whatever it returns ends the outbound loop. *)
Lemma marker_needs_three_bytes_and_cuts_outbound :
  summary (copy listener Inbound (spawn Con Stdout None)
             [mkRound (mkRead UDPDisconnectSequence (Some A1) None)
                      (mkWrite 2 None)]) =
  (AtRead,
   [EvRead Inbound Con (mkRead UDPDisconnectSequence (Some A1) None);
    EvChan Inbound AddressOnly (mkProgress (Some A1) 0);
    EvWrite Inbound Stdout None UDPDisconnectSequence (mkWrite 2 None)]) /\
  run listener listen_closed = Some (state_after listener listen_closed) /\
  In (EvRead Inbound Con (mkRead bye (Some A2) None))
     (trace (state_after listener listen_closed)) /\
  c_pc (inb (state_after listener listen_closed)) = Done /\
  option_map c_pc (outb (state_after listener listen_closed)) = Some AtWrite /\
  step listener (state_after listener listen_closed)
       (DoWrite Outbound (mkWrite 3 None)) = None /\
  (forall wr s',
     step listener (state_after listener listen_closed) (DoWrite Outbound wr)
     = Some s' ->
     exists e st',
       werr wr = Some e /\ outb s' = Some st' /\ c_pc st' = AtFinal).
Proof.
  split; [vm_compute; reflexivity|].
  destruct listen_closed_runs as (H1 & H2 & H3).
  split; [exact H1|]. split; [vm_compute; tauto|]. split; [exact H2|].
  split; [vm_compute; reflexivity|]. split; [vm_compute; reflexivity|].
  apply (closed_connection listener listen_closed
           (state_after listener listen_closed) eq_refl H1).
  vm_compute. reflexivity.
Qed.

(** ** A datagram session can always be wound down *)





























(** A session that has yet to receive its first datagram winds down by
    reporting no address; one with a pending write to the connection
    completes it. *)
Example unheard_listener_returns :
  wind_down listener net_down EOF (init listener)
  = [DoRead Inbound (fails net_down); DoSend Inbound; DoCheck Inbound;
     DoSend Inbound;
     DoRead Outbound (fails EOF); DoCheck Outbound; DoSend Outbound] /\
  option_map returned
    (run listener (wind_down listener net_down EOF (init listener)))
  = Some true /\
  wind_down listener net_down EOF (state_after listener listen_midway)
  = [DoRead Inbound (fails net_down); DoCheck Inbound; DoSend Inbound;
     DoWrite Outbound (mkWrite 3 None); DoRead Outbound (fails EOF);
     DoCheck Outbound; DoSend Outbound].
Proof. repeat split; vm_compute; reflexivity. Qed.
